(** * Filamentous-network extraction: contour filtering, graph
      simplification and persistence

    A shallow embedding of the parts of [net_utilities.py] and
    [Vectorisation.py] that decide the behaviour of the graph
    simplifier ([removeRedundantNodes]), the persistence stage
    ([drawAndSave]), contour thresholding ([thresholdContours],
    [createContours]) and the per-slice driver ([vectorize]).

    Conventions.
    - Python floats are modelled by exact rationals [Q]; the
      comparison [length == 0] is [Qeq_bool].
    - Node identifiers are the integers [0 .. N-1] that
      [nx.Graph(adjacency_matrix)] creates; they are modelled by [nat].
    - A Python exception is a value of [exn]; code that may raise
      returns an [outcome].  Loops without a bound in the source run
      on fuel, and [OutOfFuel] is an outcome of its own. *)

From Stdlib Require Import List Arith ZArith QArith Qminmax Bool Lia Permutation.
Import ListNotations.

Local Open Scope nat_scope.

(* ================================================================= *)
(** ** Exceptions and outcomes *)

Inductive exn : Type :=
| KeyError
| IndexError
| UnboundLocalError
| RuntimeError
| NetworkXError.

Inductive outcome (A : Type) : Type :=
| Ok (a : A)
| Raise (e : exn)
| OutOfFuel.

Arguments Ok {A} a.
Arguments Raise {A} e.
Arguments OutOfFuel {A}.

Definition bind {A B : Type} (m : outcome A) (k : A -> outcome B) : outcome B :=
  match m with
  | Ok a => k a
  | Raise e => Raise e
  | OutOfFuel => OutOfFuel
  end.

Notation "x <- m ;; k" := (bind m (fun x => k))
  (at level 61, m at next level, right associativity).
Notation "' pat <- m ;; k" := (bind m (fun x => match x with pat => k end))
  (at level 61, pat pattern, m at next level, right associativity).

Definition omap {A B : Type} (f : A -> B) (m : outcome A) : outcome B :=
  x <- m ;; Ok (f x).

(** Membership test of a Python [dict]/[list] of integers. *)
Definition mem (n : nat) (l : list nat) : bool := existsb (Nat.eqb n) l.

(* ================================================================= *)
(** ** Contours *)

(** A flattened contour point is the list [[x, y]] of two floats. *)
Definition Point : Type := (Q * Q)%type.
Definition Contour : Type := list Point.

(** A raw contour as OpenCV returns it: points with integer coordinates. *)
Definition RawPoint : Type := (Z * Z)%type.
Definition RawContour : Type := list RawPoint.

(** [flattenContours]: every point [[[x, y]]] becomes [[float(x), float(y)]]. *)
Definition flattenContours (raw_contours : list RawContour) : list Contour :=
  map (fun contour =>
         map (fun point : RawPoint => (inject_Z (fst point), inject_Z (snd point)))
             contour)
      raw_contours.

(** [thresholdContours]: the loop runs over [zip(contours, range(len(contours)))]
    and appends [c] whenever [len(c) > threshold]. *)
Definition thresholdContours (contours : list Contour) (threshold : Z)
  : list Contour :=
  fold_left
    (fun thresholded_contours (ci : Contour * nat) =>
       let c := fst ci in
       if (threshold <? Z.of_nat (length c))%Z
       then thresholded_contours ++ [c]
       else thresholded_contours)
    (combine contours (seq 0 (length contours)))
    [].

(** The test [len(c) > threshold]. *)
Definition longer_than (t : Z) (c : Contour) : bool :=
  (t <? Z.of_nat (length c))%Z.

(** The search for the longest contour in [createContours]:
    [longuest_index] is unbound until the first assignment. *)
Definition longest_step (flattened_contours : list Contour)
           (st : nat * option nat) (c : nat) : nat * option nat :=
  let '(longuest_length, longuest_index) := st in
  if longuest_length <? length (nth c flattened_contours [])
  then (length (nth c flattened_contours []), Some c)
  else (longuest_length, longuest_index).

Definition longest_search (flattened_contours : list Contour) : nat * option nat :=
  fold_left (longest_step flattened_contours)
            (seq 0 (length flattened_contours))
            (0, None).

Section CreateContours.

(** The image type and OpenCV's [findContours] wrapper are external. *)
Variable Image : Type.
Variable getContours : Image -> list RawContour.

Definition createContours (image : Image) : outcome (nat * list Contour) :=
  let raw_contours := getContours image in
  let flattened_contours := flattenContours raw_contours in
  let flattened_contours := thresholdContours flattened_contours 3 in
  match snd (longest_search flattened_contours) with
  | Some longuest_index => Ok (longuest_index, flattened_contours)
  | None => Raise UnboundLocalError
  end.

End CreateContours.

Arguments createContours {Image} getContours image.


(* ================================================================= *)
(** ** Attributed graphs

    A networkx [Graph] keeps its nodes in insertion order and, for
    every node, its neighbours in the order in which the incident
    edges were first added; both directions of an edge share one
    attribute dictionary.  The model keeps the node list and one list
    of undirected edges in insertion order: the neighbours of a node
    are the other endpoints of its incident edges, in that order.

    Attribute dictionaries have the closed key sets of the pipeline; a
    missing key is [None]. *)

Record NodeAttr : Type := {
  node_x : option Q;
  node_y : option Q;
  node_conductivity : option Q
}.

Record EdgeAttr : Type := {
  weight : option Q;
  conductivity : option Q
}.

Definition Edge : Type := (nat * nat * EdgeAttr)%type.

Record Graph : Type := {
  node_data : list (nat * NodeAttr);
  edge_data : list Edge
}.

(** [nx.Graph()] *)
Definition empty_graph : Graph := {| node_data := []; edge_data := [] |}.

Definition no_attr : NodeAttr :=
  {| node_x := None; node_y := None; node_conductivity := None |}.

(** [G.nodes()], [G.order()] and [len(G)] *)
Definition nodes (G : Graph) : list nat := map fst (node_data G).
Definition order (G : Graph) : nat := length (node_data G).

Definition joins (u v : nat) (e : Edge) : bool :=
  let '(a, b, _) := e in
  ((a =? u) && (b =? v)) || ((a =? v) && (b =? u)).

Definition incident (n : nat) (e : Edge) : bool :=
  let '(a, b, _) := e in (a =? n) || (b =? n).

Definition other_end (n : nat) (e : Edge) : nat :=
  let '(a, b, _) := e in if a =? n then b else a.

(** [list(G.neighbors(node))] *)
Definition neighbors (G : Graph) (node : nat) : list nat :=
  map (other_end node) (filter (incident node) (edge_data G)).

(** [G.edges[u, v]] *)
Definition get_edge (G : Graph) (u v : nat) : option EdgeAttr :=
  option_map snd (find (joins u v) (edge_data G)).

(** [G.edges[u, v][key]] *)
Definition edge_attr (G : Graph) (u v : nat) (key : EdgeAttr -> option Q)
  : outcome Q :=
  match get_edge G u v with
  | Some a => match key a with
              | Some q => Ok q
              | None => Raise KeyError
              end
  | None => Raise KeyError
  end.

Definition add_node (G : Graph) (n : nat) : Graph :=
  if mem n (nodes G) then G
  else {| node_data := node_data G ++ [(n, no_attr)];
          edge_data := edge_data G |}.

(** The edge [u]-[v] keeps its place when it exists and is appended
    otherwise; both keys of the attribute dictionary are overwritten. *)
Fixpoint put_edge (u v : nat) (a : EdgeAttr) (es : list Edge) : list Edge :=
  match es with
  | [] => [(u, v, a)]
  | e :: es' =>
      if joins u v e then (fst e, a) :: es' else e :: put_edge u v a es'
  end.

(** [G.add_edge(u, v, weight = w, conductivity = c)] *)
Definition add_edge (G : Graph) (u v : nat) (w c : Q) : Graph :=
  let G' := add_node (add_node G u) v in
  {| node_data := node_data G';
     edge_data := put_edge u v {| weight := Some w; conductivity := Some c |}
                           (edge_data G') |}.

(** [G.remove_node(n)] deletes the node and its incident edges, and
    raises when [n] is not a node. *)
Definition remove_node (G : Graph) (n : nat) : outcome Graph :=
  if mem n (nodes G)
  then Ok {| node_data := filter (fun p => negb (fst p =? n)) (node_data G);
             edge_data := filter (fun e => negb (incident n e)) (edge_data G) |}
  else Raise NetworkXError.

Fixpoint remove_nodes (G : Graph) (l : list nat) : outcome Graph :=
  match l with
  | [] => Ok G
  | n :: l' => G' <- remove_node G n ;; remove_nodes G' l'
  end.

(* ================================================================= *)
(** ** The graph simplifier: [removeRedundantNodes] *)

(** [nodelist] is a dictionary [{node: node}]; it is kept as the list
    of its keys in insertion order.  [nodelist.update({node: node})]: *)
Definition dict_update (nodelist : list nat) (node : nat) : list nat :=
  if mem node nodelist then nodelist else nodelist ++ [node].

(** [nodelist[k]] *)
Definition dict_get (nodelist : list nat) (k : nat) : outcome nat :=
  if mem k nodelist then Ok k else Raise KeyError.

(** The guarded length: [if length == 0: length = 1]. *)
Definition guarded_length (w1 w2 : Q) : Q :=
  let length := (w1 + w2)%Q in
  if Qeq_bool length 0 then 1%Q else length.

Definition merged_radius (c1 w1 c2 w2 : Q) : Q :=
  ((c1 * w1 + c2 * w2) / guarded_length w1 w2)%Q.

(** The body of [for node in G.nodes()].  Growing the node dictionary
    while it is iterated raises [RuntimeError]. *)
Definition visit (st : Graph * list nat) (node : nat)
  : outcome (Graph * list nat) :=
  let '(G, nodelist) := st in
  match neighbors G node with
  | [n1; n2] =>
      w1 <- edge_attr G node n1 weight ;;
      w2 <- edge_attr G node n2 weight ;;
      c1 <- edge_attr G node n1 conductivity ;;
      c2 <- edge_attr G node n2 conductivity ;;
      let length := guarded_length w1 w2 in
      let radius := merged_radius c1 w1 c2 w2 in
      let G' := add_edge G n1 n2 length radius in
      let nodelist' :=
        if negb (mem n1 nodelist) && negb (mem n2 nodelist)
        then dict_update nodelist node
        else nodelist in
      if order G' =? order G then Ok (G', nodelist') else Raise RuntimeError
  | _ => Ok (G, nodelist)
  end.

Fixpoint scan (ns : list nat) (st : Graph * list nat)
  : outcome (Graph * list nat) :=
  match ns with
  | [] => Ok st
  | node :: ns' => st' <- visit st node ;; scan ns' st'
  end.

(** One iteration of the [while] body up to the removal of the marked
    nodes: a collapse pass. *)
Definition collapse_pass (G : Graph) : outcome Graph :=
  ' (G1, nodelist) <- scan (nodes G) (G, []) ;;
  if (Z.of_nat (length nodelist) =? Z.of_nat (length (nodes G1)) - 1)%Z
  then key <- dict_get nodelist 1 ;; remove_node G1 key
  else remove_nodes G1 nodelist.

(** The [while(True)] loop.  The result carries the final value of the
    counter [i], the number of passes carried out. *)
Fixpoint rrn_loop (fuel : nat) (mode : Z) (G : Graph)
         (order_ new_order i : nat) : outcome (Graph * nat) :=
  match fuel with
  | O => OutOfFuel
  | S fuel' =>
      if (mode =? 1)%Z && (2 <? i) then Ok (G, i)
      else if (mode =? 0)%Z && (new_order =? order_) then Ok (G, i)
      else if (mode =? 2)%Z then Ok (G, i)
      else
        G' <- collapse_pass G ;;
        let order_ := new_order in
        let new_order := order G' in
        let i := S i in
        if order_ =? new_order then Ok (G', i)
        else rrn_loop fuel' mode G' order_ new_order i
  end.

Definition rrn_run (G : Graph) (mode : Z) : outcome (Graph * nat) :=
  rrn_loop (S (S (order G))) mode G (order G) 0 0.

Definition removeRedundantNodes (G : Graph) (mode : Z) : outcome Graph :=
  omap fst (rrn_run G mode).

(* ================================================================= *)
(** ** Connected components and [sorted]

    [nx.connected_components] walks the nodes in graph order and
    starts a breadth-first search at every node not seen yet;
    [connected_component_subgraphs] yields copies of the induced
    subgraphs in that order. *)

(** One step of [for v in thislevel] inside [_plain_bfs]. *)
Definition bfs_visit (G : Graph) (st : list nat * list nat) (v : nat)
  : list nat * list nat :=
  let '(seen, nextlevel) := st in
  if mem v seen then (seen, nextlevel)
  else (seen ++ [v], nextlevel ++ neighbors G v).

(** [while nextlevel: ...] *)
Fixpoint plain_bfs (fuel : nat) (G : Graph) (seen thislevel : list nat)
  : outcome (list nat) :=
  match thislevel with
  | [] => Ok seen
  | _ :: _ =>
      match fuel with
      | O => OutOfFuel
      | S fuel' =>
          let '(seen', nextlevel) :=
            fold_left (bfs_visit G) thislevel (seen, []) in
          plain_bfs fuel' G seen' nextlevel
      end
  end.

Definition component_of (G : Graph) (source : nat) : outcome (list nat) :=
  plain_bfs (S (order G)) G [] [source].

Fixpoint components_from (G : Graph) (vs seen : list nat)
  : outcome (list (list nat)) :=
  match vs with
  | [] => Ok []
  | v :: vs' =>
      if mem v seen then components_from G vs' seen
      else
        c <- component_of G v ;;
        cs <- components_from G vs' (seen ++ c) ;;
        Ok (c :: cs)
  end.

Definition connected_components (G : Graph) : outcome (list (list nat)) :=
  components_from G (nodes G) [].

(** What the view [G.subgraph(c)] shows at the node [u]: the edges of
    [G] from [u] to its neighbours in [c], in the order of the
    neighbours, each reported as leaving [u]. *)
Definition view_edges (G : Graph) (c : list nat) (u : nat) : list Edge :=
  map (fun e : Edge => (u, other_end u e, snd e))
      (filter (fun e : Edge => incident u e && mem (other_end u e) c)
              (edge_data G)).

(** [add_edges_from]: the edges are added one after the other. *)
Definition add_edges_from (es new_edges : list Edge) : list Edge :=
  fold_left (fun es e => put_edge (fst (fst e)) (snd (fst e)) (snd e) es)
            new_edges es.

(** [G.subgraph(c).copy()]: the copy is a new graph that receives the
    nodes of [c] with their attributes and then the edges, node by
    node: for every node [u] of [c] and every neighbour [v] of [u] in
    [c], the edge [u]-[v] with its attributes.  An edge met a second
    time, from its other end, keeps the place it has.  So the
    neighbours of a node of the copy need not come in the order they
    have in [G].  The nodes are walked in the order of [G]; networkx
    may also walk them in the order of the Python set [c], which is
    not modelled: no property below depends on the order of the nodes
    or of the edges of a copy. *)
Definition subgraph (G : Graph) (c : list nat) : Graph :=
  let nodes_of_view := filter (fun p => mem (fst p) c) (node_data G) in
  {| node_data := nodes_of_view;
     edge_data :=
       add_edges_from [] (flat_map (view_edges G c) (map fst nodes_of_view)) |}.

Definition connected_component_subgraphs (G : Graph) : outcome (list Graph) :=
  cs <- connected_components G ;; Ok (map (subgraph G) cs).

(** [sorted(l, key = key, reverse = True)]: a stable sort, elements
    with equal keys keep their original order. *)
Fixpoint insert_desc {A : Type} (key : A -> nat) (x : A) (l : list A) : list A :=
  match l with
  | [] => [x]
  | y :: l' => if key x <? key y then y :: insert_desc key x l' else x :: l
  end.

Definition sorted_desc {A : Type} (key : A -> nat) (l : list A) : list A :=
  fold_right (insert_desc key) [] l.

(** [Gcc = sorted(...); G = Gcc[0]] *)
Definition largest_component (G : Graph) : outcome Graph :=
  Gcc <- omap (sorted_desc order) (connected_component_subgraphs G) ;;
  match Gcc with
  | [] => Raise IndexError
  | g :: _ => Ok g
  end.

(* ================================================================= *)
(** ** Effects of the pipeline

    Calls into the stages and writes of graph files are recorded in a
    trace; an exception ends the computation and keeps the trace so
    far.  File names, timing, log text and the drawings made only when
    [debug] is set are left out. *)

Inductive Stage : Type :=
| Smoothing
| DistanceTransform
| ContourExtraction
| Meshing
| Triangulation
| Classification
| Pruning
| GraphBuilding
| Simplification
| Drawing.

Inductive Event : Type :=
| Invoke (s : Stage)
| WriteGraph (G : Graph).

Definition traced (A : Type) : Type := (list Event * outcome A)%type.

Definition tret {A : Type} (a : A) : traced A := ([], Ok a).

Definition tbind {A B : Type} (m : traced A) (k : A -> traced B) : traced B :=
  match snd m with
  | Ok a => (fst m ++ fst (k a), snd (k a))
  | Raise e => (fst m, Raise e)
  | OutOfFuel => (fst m, OutOfFuel)
  end.

Notation "x <~ m ;; k" := (tbind m (fun x => k))
  (at level 61, m at next level, right associativity).
Notation "' pat <~ m ;; k" := (tbind m (fun x => match x with pat => k end))
  (at level 61, pat pattern, m at next level, right associativity).

Definition emit (e : Event) : traced unit := ([e], Ok tt).
Definition lift {A : Type} (m : outcome A) : traced A := ([], m).
Definition invoke {A : Type} (s : Stage) (m : outcome A) : traced A :=
  ([Invoke s], m).

(** The values of [graph_format]; [other_format] is any string that is
    neither ['gpickle'] nor a key of [save_function_dict]. *)
Inductive GraphFormat : Type :=
| gpickle | adjlist | gml | graphml | edgelist | yaml
| weighted_edgelist | multiline_adjlist | gexf | pajek
| other_format.

Definition node_attributed (a : NodeAttr) : bool :=
  match node_x a, node_y a, node_conductivity a with
  | Some _, Some _, Some _ => true
  | _, _, _ => false
  end.

Definition edge_attributed (a : EdgeAttr) : bool :=
  match weight a, conductivity a with
  | Some _, Some _ => true
  | _, _ => false
  end.

(** [_convertNumbers]: every attribute is read and stored back as a
    float; a missing attribute raises. *)
Definition convertNumbers (G : Graph) : outcome Graph :=
  if forallb (fun p => node_attributed (snd p)) (node_data G)
     && forallb (fun e : Edge => edge_attributed (snd e)) (edge_data G)
  then Ok G else Raise KeyError.

Section Persistence.

(** The matplotlib drawing of [_drawGraph] and [plt.savefig]. *)
Variable drawGraph : Graph -> outcome unit.

Definition drawAndSave (G : Graph) (plot : bool) (fmt : GraphFormat)
  : traced unit :=
  G <~ lift (largest_component G) ;;
  _ <~ (if plot then invoke Drawing (drawGraph G) else tret tt) ;;
  match fmt with
  | gpickle => emit (WriteGraph G)
  | other_format => lift (Raise KeyError)
  | graphml | gexf => G <~ lift (convertNumbers G) ;; emit (WriteGraph G)
  | _ => emit (WriteGraph G)
  end.

(** [cleanAndSaveGraph]; [redundancy] is [params['r']]. *)
Definition cleanAndSaveGraph (G : Graph) (redundancy : Z) (plot : bool)
           (fmt : GraphFormat) : traced unit :=
  _ <~ (if (redundancy =? 2)%Z then drawAndSave G plot fmt else tret tt) ;;
  G <~ (if (redundancy =? 1)%Z
        then G <~ invoke Simplification (removeRedundantNodes G 1) ;;
             _ <~ drawAndSave G plot fmt ;; tret G
        else tret G) ;;
  if (redundancy =? 0)%Z
  then G <~ invoke Simplification (removeRedundantNodes G 0) ;;
       drawAndSave G plot fmt
  else tret tt.

End Persistence.

(* ================================================================= *)
(** ** The per-slice driver of [vectorize] *)

(** A slice is a two-dimensional array of unsigned bytes. *)
Definition Slice : Type := list (list Z).

Definition pixel_sum (sli : Slice) : Z :=
  fold_right Z.add 0%Z (map (fold_right Z.add 0%Z) sli).

(** [np.sum] accumulates an unsigned byte array in an unsigned 64-bit
    integer. *)
Definition np_sum (sli : Slice) : Z := (pixel_sum sli mod 2 ^ 64)%Z.

(** The stages whose results the properties below do not look into.
    Each one calls an external library: scikit-image and scipy for the
    image, OpenCV for the contours, shapely and meshpy for the mesh and
    its triangulation, the compiled triangle library for
    classification, pruning and adjacency, networkx and [math.sqrt]
    for [createGraph], matplotlib for the drawing. *)
Record Collaborators : Type := {
  Mesh : Type;
  Triangulated : Type;
  Triangle : Type;
  AdjacencyMatrix : Type;
  DistanceMap : Type;
  binary_smoothing : Slice -> outcome Slice;
  distance_transform_edt : Slice -> outcome DistanceMap;
  getContours : Slice -> list RawContour;
  createMesh : nat -> list Contour -> outcome Mesh;
  createTriangulation : Mesh -> outcome Triangulated;
  triangleClassification : Triangulated -> outcome (list Triangle);
  graphPruning : list Triangle -> DistanceMap -> Z -> outcome (list Triangle);
  createTriangleAdjacencyMatrix : list Triangle -> outcome AdjacencyMatrix;
  createGraph : AdjacencyMatrix -> list Triangle -> outcome Graph;
  drawGraph : Graph -> outcome unit
}.

(** The entries of [vect_params] that the loop body reads. *)
Record VectParams : Type := {
  smoothing : bool;
  plot : bool;
  graph_format : GraphFormat;
  pruning : Z;
  redundancy : Z
}.

Section Vectorize.

Variable ext : Collaborators.
Variable vect_params : VectParams.

(** The body of [for i, sli in enumerate(slices)]. *)
Definition vectorize_slice (sli : Slice) : traced unit :=
  if (np_sum sli <=? 0)%Z
  then emit (WriteGraph empty_graph)
  else
    sli <~ (if smoothing vect_params
            then invoke Smoothing (binary_smoothing ext sli)
            else tret sli) ;;
    distance_map <~
        invoke DistanceTransform (distance_transform_edt ext sli) ;;
    ' (longuest_index, flattened_contours) <~
        invoke ContourExtraction (createContours (getContours ext) sli) ;;
    mesh <~ invoke Meshing (createMesh ext longuest_index flattened_contours) ;;
    triangulation <~ invoke Triangulation (createTriangulation ext mesh) ;;
    triangles <~
        invoke Classification (triangleClassification ext triangulation) ;;
    triangles <~
        invoke Pruning
               (graphPruning ext triangles distance_map (pruning vect_params)) ;;
    adjacency_matrix <~
        invoke GraphBuilding (createTriangleAdjacencyMatrix ext triangles) ;;
    G <~ invoke GraphBuilding (createGraph ext adjacency_matrix triangles) ;;
    cleanAndSaveGraph (drawGraph ext) G (redundancy vect_params)
                      (plot vect_params) (graph_format vect_params).

Fixpoint vectorize_slices (slices : list Slice) : traced unit :=
  match slices with
  | [] => tret tt
  | sli :: rest => _ <~ vectorize_slice sli ;; vectorize_slices rest
  end.

End Vectorize.


(* ================================================================= *)
(** ** Well-formed graphs and the vocabulary of the properties *)

(** The endpoints of an edge as an unordered pair. *)
Definition ends (e : Edge) : nat * nat :=
  let '(a, b, _) := e in (Nat.min a b, Nat.max a b).

(** An edge of a simple attributed graph joins two different nodes of
    the graph and carries both attributes. *)
Definition edge_ok (G : Graph) (e : Edge) : Prop :=
  In (fst (fst e)) (nodes G) /\ In (snd (fst e)) (nodes G)
  /\ fst (fst e) <> snd (fst e) /\ edge_attributed (snd e) = true.

(** Simple graphs: no node twice, no self-loop, no parallel edge. *)
Definition graph_wf (G : Graph) : Prop :=
  NoDup (nodes G)
  /\ Forall (edge_ok G) (edge_data G)
  /\ NoDup (map ends (edge_data G)).

(** Every node carries [x], [y] and [conductivity]. *)
Definition nodes_attributed (G : Graph) : Prop :=
  Forall (fun p => node_attributed (snd p) = true) (node_data G).

Definition well_formed (G : Graph) : Prop := graph_wf G /\ nodes_attributed G.

Definition degree (G : Graph) (n : nat) : nat := length (neighbors G n).

Definition no_redundant_node (G : Graph) : Prop :=
  forall n, In n (nodes G) -> degree G n <> 2.

(** [k] collapse passes in a row. *)
Fixpoint iter_pass (k : nat) (G : Graph) : outcome Graph :=
  match k with
  | O => Ok G
  | S k' => G' <- iter_pass k' G ;; collapse_pass G'
  end.

(** The merge rule as the specification words it: the denominator is
    [max(new weight, 1)]. *)
Definition spec_radius (c1 w1 c2 w2 : Q) : Q :=
  ((c1 * w1 + c2 * w2) / Qmax (w1 + w2) 1)%Q.

(** Invariant of the marked nodes during a scan: as soon as a node is
    marked, two different unmarked nodes remain. *)
Definition marked_ok (N nodelist : list nat) : Prop :=
  nodelist = [] \/
  exists a b, a <> b /\ In a N /\ In b N
              /\ ~ In a nodelist /\ ~ In b nodelist.

(** The simple path [A]-[B]-[C]: three nodes in any order and the two
    edges in any order and orientation. *)
Definition same_edge (u v : nat) (a : EdgeAttr) (e : Edge) : Prop :=
  e = (u, v, a) \/ e = (v, u, a).

Definition simple_path (G : Graph) (A B C : nat) (ab bc : EdgeAttr) : Prop :=
  A <> B /\ B <> C /\ A <> C
  /\ Permutation (nodes G) [A; B; C]
  /\ exists e1 e2,
      edge_data G = [e1; e2]
      /\ ((same_edge A B ab e1 /\ same_edge B C bc e2)
          \/ (same_edge B C bc e1 /\ same_edge A B ab e2)).

Definition attrs (w c : Q) : EdgeAttr :=
  {| weight := Some w; conductivity := Some c |}.

(** A decision procedure for [graph_wf]. *)
Fixpoint nodupb (l : list nat) : bool :=
  match l with
  | [] => true
  | x :: l' => negb (mem x l') && nodupb l'
  end.

Fixpoint simple_edgesb (es : list Edge) : bool :=
  match es with
  | [] => true
  | e :: es' =>
      negb (existsb (joins (fst (fst e)) (snd (fst e))) es')
      && simple_edgesb es'
  end.

Definition edge_okb (G : Graph) (e : Edge) : bool :=
  mem (fst (fst e)) (nodes G) && mem (snd (fst e)) (nodes G)
  && negb (fst (fst e) =? snd (fst e)) && edge_attributed (snd e).

Definition graph_wfb (G : Graph) : bool :=
  nodupb (nodes G) && forallb (edge_okb G) (edge_data G)
  && simple_edgesb (edge_data G).

(** Example graphs: paths [0]-[1]-...-[n] with unit attributes, a
    path whose two edges have length 1/4, a path of two edges of
    length 0, and the graph with the single node [0]. *)
Definition plain_nodes (ns : list nat) : list (nat * NodeAttr) :=
  map (fun n => (n, {| node_x := Some (inject_Z (Z.of_nat n));
                       node_y := Some 0%Q;
                       node_conductivity := Some 1%Q |})) ns.

Definition unit_path (n : nat) : Graph :=
  {| node_data := plain_nodes (seq 0 (S n));
     edge_data := map (fun i => (i, S i, attrs 1 1)) (seq 0 n) |}.

Definition quarter_path : Graph :=
  {| node_data := plain_nodes [0; 1; 2];
     edge_data := [(0, 1, attrs (1 # 4) 1); (1, 2, attrs (1 # 4) 1)] |}.

Definition zero_path : Graph :=
  {| node_data := plain_nodes [0; 1; 2];
     edge_data := [(0, 1, attrs 0 3); (1, 2, attrs 0 5)] |}.

Definition single_node : Graph :=
  {| node_data := plain_nodes [0]; edge_data := [] |}.


(** Collaborators that return at once; [contours] is what the contour
    extraction finds in every slice. *)
Definition stub_collaborators (contours : list RawContour) : Collaborators :=
  {| Mesh := unit;
     Triangulated := unit;
     Triangle := unit;
     AdjacencyMatrix := unit;
     DistanceMap := unit;
     binary_smoothing := fun sli => Ok sli;
     distance_transform_edt := fun _ => Ok tt;
     getContours := fun _ => contours;
     createMesh := fun _ _ => Ok tt;
     createTriangulation := fun _ => Ok tt;
     triangleClassification := fun _ => Ok [];
     graphPruning := fun triangles _ _ => Ok triangles;
     createTriangleAdjacencyMatrix := fun _ => Ok tt;
     createGraph := fun _ _ => Ok empty_graph;
     drawGraph := fun _ => Ok tt |}.

(** The parameters set by [init]. *)
Definition default_params : VectParams :=
  {| smoothing := false;
     plot := false;
     graph_format := gpickle;
     pruning := 5;
     redundancy := 1 |}.

(** Connectivity: [connected G v u] when a walk leads from [v] to [u]. *)
Inductive connected (G : Graph) (v : nat) : nat -> Prop :=
| connected_here : connected G v v
| connected_next (u w : nat) :
    connected G v u -> In w (neighbors G u) -> connected G v w.



(** Invariants of the search from [source]: everything seen or pending
    is connected to the source, and every neighbour of a seen node is
    seen or pending. *)
Definition search_sound (G : Graph) (source : nat) (seen pending : list nat)
  : Prop :=
  forall u, In u (seen ++ pending) -> connected G source u.

Definition search_closed (G : Graph) (seen pending : list nat) : Prop :=
  forall u w, In u seen -> In w (neighbors G u) -> In w (seen ++ pending).
(* ================================================================= *)
(** ** Adjacency and what a collapse pass keeps *)

(** [G.has_edge(u, v)] *)
Definition has_edge (G : Graph) (u v : nat) : bool :=
  existsb (joins u v) (edge_data G).

(** What holds of the working graph [Gc] and of the marked nodes
    [nodelist] while the nodes of [G] are scanned: edges are only
    added, every added edge closes a triangle over a visited node,
    marked nodes are pairwise not adjacent, and a marked node keeps
    exactly the two neighbours it has in [G], which are joined. *)
Record collapse_inv (G Gc : Graph) (nodelist : list nat) : Prop := {
  ci_wf : graph_wf Gc;
  ci_nodes : node_data Gc = node_data G;
  ci_grow : forall p q, has_edge G p q = true -> has_edge Gc p q = true;
  ci_new : forall p q, has_edge Gc p q = true ->
      has_edge G p q = true
      \/ exists v, has_edge Gc v p = true /\ has_edge Gc v q = true
                   /\ (In v nodelist \/ In p nodelist \/ In q nodelist);
  ci_indep : forall p q, In p nodelist -> In q nodelist ->
      has_edge Gc p q = false;
  ci_marked : forall p, In p nodelist ->
      exists x y, neighbors Gc p = [x; y] /\ has_edge Gc x y = true
                  /\ has_edge G p x = true /\ has_edge G p y = true;
  ci_conn : forall p q, has_edge Gc p q = true -> connected G p q
}.

(** [G'] is [G] with some nodes taken out in a way that keeps what is
    connected: the nodes left are connected in [G'] exactly when they
    are in [G], and every node of [G] is connected to one that is
    left. *)
Definition keeps_connectivity (G G' : Graph) : Prop :=
  incl (nodes G') (nodes G)
  /\ (forall u w, In u (nodes G') -> In w (nodes G') ->
                  (connected G' u w <-> connected G u w))
  /\ (forall v, In v (nodes G) ->
                exists x, In x (nodes G') /\ connected G v x).

(** The graphs written during a run, in the order of the writes. *)
Definition writes (t : list Event) : list Graph :=
  flat_map (fun e => match e with WriteGraph g => [g] | Invoke _ => [] end) t.

(** What the search for the longest contour has established after the
    indices below [k]: nothing but empty contours so far, or the index
    of the first contour of maximal length. *)
Definition longest_upto (fc : list Contour) (k : nat) (st : nat * option nat)
  : Prop :=
  match snd st with
  | None => fst st = 0 /\ forall j, j < k -> length (nth j fc []) = 0
  | Some i =>
      i < k /\ fst st = length (nth i fc []) /\ 0 < fst st
      /\ (forall j, j < k -> length (nth j fc []) <= fst st)
      /\ (forall j, j < i -> length (nth j fc []) < fst st)
  end.

(* ================================================================= *)
(** ** The mesh: [roundTripConnect] and [createMesh]

    Python integers are modelled by [Z]: [len(mesh_points) - 1] is
    [-1] for an empty contour. *)

(** [range(start, stop)] *)
Definition range (start stop : Z) : list Z :=
  map (fun k => (start + Z.of_nat k)%Z) (seq 0 (Z.to_nat (stop - start))).

(** [[(i, i+1) for i in range(start, end)] + [(end, start)]] *)
Definition roundTripConnect (start end_ : Z) : list (Z * Z) :=
  map (fun i => (i, (i + 1)%Z)) (range start end_) ++ [(end_, start)].

(** The mesh and the drawing can also end in an [AttributeError] or a
    [ValueError]. *)
Inductive error : Type :=
| Builtin (e : exn)
| AttributeError
| ValueError.

Inductive checked (A : Type) : Type :=
| Returns (a : A)
| Fails (e : error).

Arguments Returns {A} a.
Arguments Fails {A} e.

(** Mesh points, mesh facets and hole points. *)
Definition MeshData : Type := (list Point * list (Z * Z) * list Point)%type.

(** [np.asarray] on the list of contours (numpy up to 1.23): when all
    contours have the same number of points the result is one array
    of floats, and indexing it gives arrays; otherwise it is an array
    that holds the Python lists themselves. *)
Definition rectangular (contours : list Contour) : bool :=
  match contours with
  | [] => true
  | c :: rest => forallb (fun c' => length c' =? length c) rest
  end.

Module Vectorisation.

Section CreateMesh.

(** The successive values of [np.random.rand()], and the search for
    an interior point, which goes through shapely. *)
Variable rand : nat -> Q.
Variable getInteriorPoint : Contour -> checked Point.

(** [p[0] = p[0] + 0.1 * np.random.rand()] and the same for [p[1]];
    [k] is the number of values drawn before. *)
Definition jitter_point (k : nat) (p : Point) : Point :=
  (fst p + (1 # 10) * rand k, snd p + (1 # 10) * rand (S k))%Q.

Fixpoint jitter_contour (k : nat) (c : Contour) : Contour :=
  match c with
  | [] => []
  | p :: c' => jitter_point k p :: jitter_contour (S (S k)) c'
  end.

Fixpoint jitter_contours (k : nat) (contours : list Contour) : list Contour :=
  match contours with
  | [] => []
  | c :: rest => jitter_contour k c :: jitter_contours (k + 2 * length c) rest
  end.

(** The body of [for i in range(len(flattened_contours))].  On an
    array, [mesh_points.extend] does not exist. *)
Definition mesh_step (is_array : bool) (longuest_index : nat) (st : MeshData)
           (ic : nat * Contour) : checked MeshData :=
  let '(mesh_points, mesh_facets, hole_points) := st in
  let '(i, contour) := ic in
  let curr_length := Z.of_nat (length mesh_points) in
  if i =? longuest_index then Returns st
  else
    match getInteriorPoint contour with
    | Fails e => Fails e
    | Returns interior_point =>
        let hole_points := hole_points ++ [interior_point] in
        if is_array then Fails AttributeError
        else
          let mesh_points := mesh_points ++ contour in
          Returns (mesh_points,
                   mesh_facets
                     ++ roundTripConnect curr_length
                          (Z.of_nat (length mesh_points) - 1),
                   hole_points)
    end.

Fixpoint mesh_loop (is_array : bool) (longuest_index : nat)
         (ics : list (nat * Contour)) (st : MeshData) : checked MeshData :=
  match ics with
  | [] => Returns st
  | ic :: rest =>
      match mesh_step is_array longuest_index st ic with
      | Returns st' => mesh_loop is_array longuest_index rest st'
      | Fails e => Fails e
      end
  end.

Definition createMesh (longuest_index : nat) (flattened_contours : list Contour)
  : checked MeshData :=
  let is_array := rectangular flattened_contours in
  let flattened_contours := jitter_contours 0 flattened_contours in
  match nth_error flattened_contours longuest_index with
  | None => Fails (Builtin IndexError)
  | Some mesh_points =>
      let mesh_facets :=
        roundTripConnect 0 (Z.of_nat (length mesh_points) - 1) in
      mesh_loop is_array longuest_index
                (combine (seq 0 (length flattened_contours)) flattened_contours)
                (mesh_points, mesh_facets, [])
  end.

End CreateMesh.

End Vectorisation.

(** The contours other than the longest, in order. *)
Definition other_contours (longuest_index : nat) (contours : list Contour)
  : list Contour :=
  firstn longuest_index contours ++ skipn (S longuest_index) contours.

(** One closed ring of facets for every contour, the points of the
    contours being numbered one contour after the other from [start]. *)
Fixpoint rings (start : Z) (contours : list Contour) : list (Z * Z) :=
  match contours with
  | [] => []
  | c :: rest =>
      roundTripConnect start (start + Z.of_nat (length c) - 1)
        ++ rings (start + Z.of_nat (length c)) rest
  end.

(** The facet that leaves the point [i] of a ring on the points
    [start .. start + n - 1]: it enters the next point, and from the
    last point the first. *)
Definition next_in_ring (start : Z) (n : nat) (i : Z) : Z :=
  if (i =? start + Z.of_nat n - 1)%Z then start else (i + 1)%Z.

(** A mesh whose facets close one ring after the other: the facets
    leave the points [0 .. n-1] in order, one facet each, and every
    point is entered by exactly one facet. *)
Definition ringed (mesh_points : list Point) (mesh_facets : list (Z * Z))
  : Prop :=
  map fst mesh_facets = range 0 (Z.of_nat (length mesh_points))
  /\ Permutation (map snd mesh_facets) (range 0 (Z.of_nat (length mesh_points))).

(* ================================================================= *)
(** ** Building the graph: [createGraph]

    The graph [nx.Graph(adjacency_matrix)] that networkx builds from
    the triangle adjacency matrix is the parameter [adjacency_graph]:
    the matrix comes from the compiled triangle library.  Its nodes
    carry no attribute and its edges the matrix entry as [weight]. *)

(** What [createGraph] reads of a triangle: its centre and its radius. *)
Record TriangleData : Type := {
  center_x : Q;
  center_y : Q;
  radius : Q
}.

(** [G.node[n][key]] *)
Definition node_attr (G : Graph) (n : nat) (key : NodeAttr -> option Q)
  : outcome Q :=
  match find (fun p => fst p =? n) (node_data G) with
  | Some p => match key (snd p) with
              | Some q => Ok q
              | None => Raise KeyError
              end
  | None => Raise KeyError
  end.

Definition set_x (a : NodeAttr) (v : Q) : NodeAttr :=
  {| node_x := Some v; node_y := node_y a;
     node_conductivity := node_conductivity a |}.

Definition set_y (a : NodeAttr) (v : Q) : NodeAttr :=
  {| node_x := node_x a; node_y := Some v;
     node_conductivity := node_conductivity a |}.

Definition set_conductivity (a : NodeAttr) (v : Q) : NodeAttr :=
  {| node_x := node_x a; node_y := node_y a; node_conductivity := Some v |}.

Definition set_edge_conductivity (a : EdgeAttr) (v : Q) : EdgeAttr :=
  {| weight := weight a; conductivity := Some v |}.

Definition set_weight (a : EdgeAttr) (v : Q) : EdgeAttr :=
  {| weight := Some v; conductivity := conductivity a |}.

(** [nx.set_node_attributes(G, dict(zip(np.arange(len(values)), values)), name)]
    (networkx 2.0 to 2.3): node [i] receives [values[i]]; an index
    that is not a node of [G] is skipped. *)
Definition set_node_attributes (G : Graph) (set : NodeAttr -> Q -> NodeAttr)
           (values : list Q) : Graph :=
  {| node_data :=
       map (fun p => match nth_error values (fst p) with
                     | Some v => (fst p, set (snd p) v)
                     | None => p
                     end)
           (node_data G);
     edge_data := edge_data G |}.

(** [[f(edge[0], edge[1]) for edge in G.edges()]].  The values below do
    not depend on the direction in which an edge is reported, and
    every failure is a [KeyError], so the order of [G.edges()] does
    not matter. *)
Fixpoint edge_values (f : nat -> nat -> outcome Q) (es : list Edge)
  : outcome (list Q) :=
  match es with
  | [] => Ok []
  | e :: es' =>
      v <- f (fst (fst e)) (snd (fst e)) ;;
      vs <- edge_values f es' ;;
      Ok (v :: vs)
  end.

(** [nx.set_edge_attributes(G, dict(zip(G.edges(), values)), name)] *)
Definition set_edge_attributes (G : Graph) (set : EdgeAttr -> Q -> EdgeAttr)
           (values : list Q) : Graph :=
  {| node_data := node_data G;
     edge_data :=
       map (fun ev : Edge * Q => (fst (fst ev), set (snd (fst ev)) (snd ev)))
           (combine (edge_data G) values) |}.

Module net_utilities.

Section CreateGraph.

(** [math.sqrt] *)
Variable sqrt : Q -> Q.

Definition mean_conductivity (G : Graph) (u v : nat) : outcome Q :=
  cu <- node_attr G u node_conductivity ;;
  cv <- node_attr G v node_conductivity ;;
  Ok ((cu + cv) / 2)%Q.

Definition euclidean_length (G : Graph) (u v : nat) : outcome Q :=
  xu <- node_attr G u node_x ;;
  xv <- node_attr G v node_x ;;
  yu <- node_attr G u node_y ;;
  yv <- node_attr G v node_y ;;
  Ok (sqrt ((xu - xv) * (xu - xv) + (yu - yv) * (yu - yv)))%Q.

Definition createGraph (adjacency_graph : Graph)
           (all_triangles : list TriangleData) : outcome Graph :=
  let G := adjacency_graph in
  let G := set_node_attributes G set_x (map center_x all_triangles) in
  let G := set_node_attributes G set_y (map center_y all_triangles) in
  let G := set_node_attributes G set_conductivity (map radius all_triangles) in
  radius_edge <- edge_values (mean_conductivity G) (edge_data G) ;;
  let G := set_edge_attributes G set_edge_conductivity radius_edge in
  length_edge <- edge_values (euclidean_length G) (edge_data G) ;;
  let G := set_edge_attributes G set_weight length_edge in
  let G := set_node_attributes G set_y (map center_y all_triangles) in
  Ok G.

End CreateGraph.

End net_utilities.

(** What is asked of the graph of the adjacency matrix: no node
    twice, every edge between two different nodes of the graph, no
    edge twice. *)
Definition adjacency_ok (G : Graph) : Prop :=
  NoDup (nodes G)
  /\ Forall (fun e : Edge => In (fst (fst e)) (nodes G)
                             /\ In (snd (fst e)) (nodes G)
                             /\ fst (fst e) <> snd (fst e))
            (edge_data G)
  /\ NoDup (map ends (edge_data G)).

(** The attributes [createGraph] gives the node of a triangle. *)
Definition triangle_attr (t : TriangleData) : NodeAttr :=
  {| node_x := Some (center_x t); node_y := Some (center_y t);
     node_conductivity := Some (radius t) |}.

(** The graph after the three calls of [set_node_attributes]. *)
Definition with_triangles (G : Graph) (ts : list TriangleData) : Graph :=
  set_node_attributes
    (set_node_attributes (set_node_attributes G set_x (map center_x ts))
                         set_y (map center_y ts))
    set_conductivity (map radius ts).

(** The values [createGraph] computes for an edge whose two ends have
    a triangle. *)
Definition edge_mean (ts : list TriangleData) (e : Edge) : Q :=
  match nth_error ts (fst (fst e)), nth_error ts (snd (fst e)) with
  | Some tu, Some tv => ((radius tu + radius tv) / 2)%Q
  | _, _ => 0%Q
  end.

Definition edge_length (sqrt : Q -> Q) (ts : list TriangleData) (e : Edge) : Q :=
  match nth_error ts (fst (fst e)), nth_error ts (snd (fst e)) with
  | Some tu, Some tv =>
      sqrt ((center_x tu - center_x tv) * (center_x tu - center_x tv)
            + (center_y tu - center_y tv) * (center_y tu - center_y tv))%Q
  | _, _ => 0%Q
  end.

(* ================================================================= *)
(** ** The drawing: [_drawGraph]

    The matplotlib and networkx drawing calls are left out; what is
    kept is what the function reads and computes before and between
    them, which decides whether it raises.  On a simple graph
    [nx.degree] is the number of neighbours. *)

(** [e[2]['weight'] < 1000] *)
Definition lighter (e : Edge) : bool :=
  match weight (snd e) with
  | Some w => negb (Qle_bool 1000 w)
  | None => false
  end.

Definition has_position (a : NodeAttr) : bool :=
  match node_x a, node_y a with
  | Some _, Some _ => true
  | _, _ => false
  end.

Definition has_weight (a : EdgeAttr) : bool :=
  match weight a with Some _ => true | None => false end.

Definition has_conductivity (a : EdgeAttr) : bool :=
  match conductivity a with Some _ => true | None => false end.

Definition _drawGraph (G : Graph) : checked unit :=
  (* pos[k] = (G.node[k]['x']*scale, height - G.node[k]['y']*scale) *)
  if negb (forallb (fun p => has_position (snd p)) (node_data G))
  then Fails (Builtin KeyError)
  (* edgelist = [(e[0], e[1]) for e in G.edges(data=True)
                 if e[2]['weight'] < 1000] *)
  else if negb (forallb (fun e : Edge => has_weight (snd e)) (edge_data G))
  then Fails (Builtin KeyError)
  else
    let edgelist := filter lighter (edge_data G) in
    (* widths = np.array([G[e[0]][e[1]]['conductivity'] for e in edgelist]) *)
    if negb (forallb (fun e : Edge => has_conductivity (snd e)) edgelist)
    then Fails (Builtin KeyError)
    else
      (* np.amax(widths) *)
      match edgelist with
      | [] => Fails ValueError
      | _ :: _ =>
          (* colors.append(color_dict[degree]), color_dict = {3:, 2:, 1:} *)
          if forallb (fun n => negb (degree G n =? 0)) (nodes G)
          then Returns tt
          else Fails (Builtin KeyError)
      end.

(* ================================================================= *)
(** ** More examples *)

(** A square contour of four points and a contour of five points. *)
Definition square_contour : RawContour :=
  [(0, 0); (1, 0); (1, 1); (0, 1)]%Z.

Definition square : Contour := [(0, 0); (1, 0); (1, 1); (0, 1)]%Q.

Definition pentagon : Contour := [(5, 5); (7, 5); (8, 6); (7, 7); (5, 7)]%Q.

(** The graph of a two-by-two adjacency matrix, and two triangles. *)
Definition two_triangles_graph : Graph :=
  {| node_data := [(0, no_attr); (1, no_attr)];
     edge_data := [(0, 1, {| weight := Some 1%Q; conductivity := None |})] |}.

Definition two_triangles : list TriangleData :=
  [ {| center_x := 0; center_y := 0; radius := 2 |};
    {| center_x := 3; center_y := 4; radius := 4 |} ]%Q.

(** Collaborators that return at once, find one square contour and
    build the path [quarter_path]. *)
Definition path_collaborators : Collaborators :=
  {| Mesh := unit;
     Triangulated := unit;
     Triangle := unit;
     AdjacencyMatrix := unit;
     DistanceMap := unit;
     binary_smoothing := fun sli => Ok sli;
     distance_transform_edt := fun _ => Ok tt;
     getContours := fun _ => [square_contour];
     createMesh := fun _ _ => Ok tt;
     createTriangulation := fun _ => Ok tt;
     triangleClassification := fun _ => Ok [];
     graphPruning := fun triangles _ _ => Ok triangles;
     createTriangleAdjacencyMatrix := fun _ => Ok tt;
     createGraph := fun _ _ => Ok quarter_path;
     drawGraph := fun _ => Ok tt |}.

(* ================================================================= *)
(** * Properties *)

(** ** Outcomes and membership *)

Lemma mem_In (n : nat) (l : list nat) : mem n l = true <-> In n l.
Proof.
  unfold mem. rewrite existsb_exists. split.
  - intros [m [Hin Heq]]. apply Nat.eqb_eq in Heq. now subst.
  - intros Hin. exists n. split; [assumption | apply Nat.eqb_refl].
Qed.

Lemma mem_not_In (n : nat) (l : list nat) : mem n l = false <-> ~ In n l.
Proof.
  rewrite <- mem_In. destruct (mem n l); split; intro H; congruence.
Qed.

Lemma bind_Ok {A B : Type} (m : outcome A) (k : A -> outcome B) (b : B) :
  bind m k = Ok b -> exists a, m = Ok a /\ k a = Ok b.
Proof.
  destruct m as [a | e | ]; simpl; intro H; try discriminate.
  exists a. split; [reflexivity | assumption].
Qed.

Lemma omap_Ok {A B : Type} (f : A -> B) (m : outcome A) (b : B) :
  omap f m = Ok b -> exists a, m = Ok a /\ b = f a.
Proof.
  unfold omap. intro H. apply bind_Ok in H as [a [Hm Hk]].
  exists a. split; [assumption | congruence].
Qed.

(* ================================================================= *)
(** ** Contour thresholding *)

Lemma threshold_fold (t : Z) (l : list Contour) :
  forall (s : nat) (acc : list Contour),
    fold_left
      (fun thresholded_contours (ci : Contour * nat) =>
         let c := fst ci in
         if (t <? Z.of_nat (length c))%Z
         then thresholded_contours ++ [c]
         else thresholded_contours)
      (combine l (seq s (length l))) acc
    = acc ++ filter (longer_than t) l.
Proof.
  induction l as [| c l IH]; intros s acc; simpl.
  - now rewrite app_nil_r.
  - rewrite IH. unfold longer_than at 2.
    destruct (t <? Z.of_nat (length c))%Z.
    + now rewrite <- app_assoc.
    + reflexivity.
Qed.

Lemma thresholdContours_filter (contours : list Contour) (t : Z) :
  thresholdContours contours t = filter (longer_than t) contours.
Proof.
  unfold thresholdContours. now rewrite threshold_fold.
Qed.

(** C8. [thresholdContours contours t] is the sublist of the contours
    with more than [t] points, in their original order and unchanged;
    at the pipeline's threshold 3 every surviving contour has at least
    4 points and every contour with fewer than 4 points is dropped. *)
Theorem thresholdContours_spec (contours : list Contour) (t : Z) :
  thresholdContours contours t
  = filter (fun c => (t <? Z.of_nat (length c))%Z) contours
  /\ Forall (fun c => 4 <= length c) (thresholdContours contours 3)
  /\ (forall c, In c contours -> length c < 4 ->
                ~ In c (thresholdContours contours 3))
  /\ (forall c, In c contours -> 4 <= length c ->
                In c (thresholdContours contours 3)).
Proof.
  rewrite !thresholdContours_filter. repeat split.
  - apply Forall_forall. intros c Hc. apply filter_In in Hc as [_ Hc].
    unfold longer_than in Hc. apply Z.ltb_lt in Hc. lia.
  - intros c _ Hshort Hc. apply filter_In in Hc as [_ Hc].
    unfold longer_than in Hc. apply Z.ltb_lt in Hc. lia.
  - intros c Hin Hlong. apply filter_In. split; [assumption |].
    unfold longer_than. apply Z.ltb_lt. lia.
Qed.

(** ** The longest contour *)

Lemma flattenContours_lengths (raw : list RawContour) :
  map (@length Point) (flattenContours raw) = map (@length RawPoint) raw.
Proof.
  unfold flattenContours. rewrite map_map. apply map_ext.
  intro c. apply length_map.
Qed.

Lemma threshold_all_short (raw : list RawContour) :
  Forall (fun c => length c < 4) raw ->
  thresholdContours (flattenContours raw) 3 = [].
Proof.
  intro Hshort. rewrite thresholdContours_filter.
  induction Hshort as [| c raw Hc _ IH]; simpl; [reflexivity |].
  unfold longer_than at 1. rewrite length_map.
  destruct (3 <? Z.of_nat (length c))%Z eqn:E.
  - apply Z.ltb_lt in E. lia.
  - exact IH.
Qed.

(** Once assigned, [longuest_index] stays assigned. *)
Lemma longest_fold_assigned (fc : list Contour) (idx : list nat) :
  forall (len i : nat),
    exists len' i', fold_left (longest_step fc) idx (len, Some i) = (len', Some i').
Proof.
  induction idx as [| c idx IH]; intros len i; simpl.
  - now exists len, i.
  - destruct (len <? length (nth c fc [])); apply IH.
Qed.

Lemma longest_fold_found (fc : list Contour) :
  forall (n s : nat),
    (exists c, s <= c < s + n /\ 0 < length (nth c fc [])) ->
    exists len i, fold_left (longest_step fc) (seq s n) (0, None) = (len, Some i).
Proof.
  induction n as [| n IH]; intros s [c [Hc Hpos]]; [lia |].
  simpl. destruct (0 <? length (nth s fc [])) eqn:E.
  - apply longest_fold_assigned.
  - apply IH. exists c. split; [| assumption].
    apply Nat.ltb_ge in E.
    assert (c <> s) by (intro; subst; lia). lia.
Qed.

Lemma createContours_returns (Image : Type)
      (getContours : Image -> list RawContour) (image : Image) :
  Exists (fun c => 4 <= length c) (getContours image) ->
  exists i fc, createContours getContours image = Ok (i, fc).
Proof.
  intro Hex. unfold createContours.
  set (fc := thresholdContours (flattenContours (getContours image)) 3).
  assert (Hne : exists c, In c fc /\ 0 < length c).
  { apply Exists_exists in Hex as [c [Hin Hlen]].
    exists (map (fun point : RawPoint =>
                   (inject_Z (fst point), inject_Z (snd point))) c).
    rewrite length_map. split; [| lia].
    unfold fc. rewrite thresholdContours_filter. apply filter_In. split.
    - unfold flattenContours. now apply in_map.
    - unfold longer_than. rewrite length_map. apply Z.ltb_lt. lia. }
  destruct Hne as [c [Hin Hpos]].
  apply (In_nth _ _ []) in Hin as [k [Hk Hnth]].
  destruct (longest_fold_found fc (length fc) 0) as [len [i Hfold]].
  - exists k. split; [split; [apply Nat.le_0_l | exact Hk] |]. subst c. exact Hpos.
  - unfold longest_search. rewrite Hfold. simpl. now exists i, fc.
Qed.

Lemma createContours_unbound (Image : Type)
      (getContours : Image -> list RawContour) (image : Image) :
  Forall (fun c => length c < 4) (getContours image) ->
  createContours getContours image = Raise UnboundLocalError.
Proof.
  intro Hshort. unfold createContours.
  now rewrite (threshold_all_short _ Hshort).
Qed.

(* ================================================================= *)
(** ** Edges and neighbours *)

Lemma joins_ends (u v : nat) (e : Edge) :
  joins u v e = true <-> ends e = (Nat.min u v, Nat.max u v).
Proof.
  destruct e as [[a b] x]. simpl.
  rewrite orb_true_iff, !andb_true_iff, !Nat.eqb_eq. split.
  - intros [[-> ->] | [-> ->]]; f_equal; lia.
  - intro H. injection H as Hmin Hmax. lia.
Qed.

Lemma joins_sym (u v : nat) (e : Edge) : joins u v e = joins v u e.
Proof.
  destruct e as [[a b] x]. simpl. apply orb_comm.
Qed.

Lemma joins_fst (u v : nat) (e : Edge) (a : EdgeAttr) :
  joins u v (fst e, a) = joins u v e.
Proof.
  now destruct e as [[? ?] ?].
Qed.

Lemma joins_refl (u v : nat) (a : EdgeAttr) : joins u v (u, v, a) = true.
Proof.
  simpl. now rewrite !Nat.eqb_refl.
Qed.

Lemma existsb_joins_ends (u v : nat) (a : EdgeAttr) (es : list Edge) :
  existsb (joins u v) es = true <-> In (ends (u, v, a)) (map ends es).
Proof.
  rewrite existsb_exists, in_map_iff. simpl. split.
  - intros [e [Hin Hj]]. exists e. split; [now apply joins_ends | assumption].
  - intros [e [He Hin]]. exists e. split; [assumption | now apply joins_ends].
Qed.

(** An incident edge joins the node to the neighbour it contributes. *)
Lemma incident_joins (n : nat) (e : Edge) :
  incident n e = true -> joins n (other_end n e) e = true.
Proof.
  destruct e as [[a b] x]. simpl.
  destruct (a =? n) eqn:Ea; simpl.
  - intros _. now rewrite Nat.eqb_refl.
  - intro Hb. rewrite Hb, Nat.eqb_refl. reflexivity.
Qed.

Lemma joins_incident (n m : nat) (e : Edge) :
  fst (fst e) <> snd (fst e) ->
  joins n m e = true -> incident n e = true /\ other_end n e = m /\ m <> n.
Proof.
  destruct e as [[a b] x]. simpl. intros Hab.
  rewrite orb_true_iff, !andb_true_iff, !Nat.eqb_eq.
  intros [[-> ->] | [-> ->]].
  - rewrite Nat.eqb_refl. simpl. auto.
  - rewrite Nat.eqb_refl, orb_true_r.
    destruct (m =? n) eqn:E.
    + apply Nat.eqb_eq in E. contradiction.
    + apply Nat.eqb_neq in E. auto.
Qed.

Lemma in_neighbors (G : Graph) (n m : nat) :
  In m (neighbors G n) <->
  exists e, In e (edge_data G) /\ incident n e = true /\ other_end n e = m.
Proof.
  unfold neighbors. rewrite in_map_iff. split.
  - intros [e [Ho Hin]]. apply filter_In in Hin as [Hin Hi]. now exists e.
  - intros [e [Hin [Hi Ho]]]. exists e. split; [assumption |].
    now apply filter_In.
Qed.

Lemma find_exists {A : Type} (f : A -> bool) (l : list A) (x : A) :
  In x l -> f x = true -> exists y, find f l = Some y.
Proof.
  intros Hin Hf. destruct (find f l) as [y |] eqn:E.
  - now exists y.
  - apply (find_none f l E) in Hin. congruence.
Qed.

(** Dropping edges keeps the remaining endpoint pairs distinct. *)
Lemma ends_filter_NoDup (keep : Edge -> bool) (es : list Edge) :
  NoDup (map ends es) -> NoDup (map ends (filter keep es)).
Proof.
  intro Hes. induction es as [| e es IH]; simpl; [constructor |].
  apply NoDup_cons_iff in Hes as [Hfresh Hrest].
  destruct (keep e); simpl; [| now apply IH].
  constructor; [| now apply IH].
  intro Hdup. apply in_map_iff in Hdup as [e' [Hends Hin]].
  apply filter_In in Hin as [Hin _].
  apply Hfresh. apply in_map_iff. now exists e'.
Qed.

Section WellFormed.

Variable G : Graph.
Hypothesis Hwf : graph_wf G.

Lemma wf_edge_ok (e : Edge) : In e (edge_data G) -> edge_ok G e.
Proof.
  destruct Hwf as [_ [Hok _]]. rewrite Forall_forall in Hok. apply Hok.
Qed.

(** A neighbour is another node of the graph, joined by an attributed
    edge that [get_edge] finds. *)
Lemma wf_neighbor (n m : nat) :
  In m (neighbors G n) ->
  m <> n /\ In m (nodes G) /\
  exists a, get_edge G n m = Some a /\ edge_attributed a = true.
Proof.
  intro Hin. apply in_neighbors in Hin as [e [Hin [Hi Ho]]].
  pose proof (wf_edge_ok e Hin) as [Ha [Hb [Hab Hattr]]].
  pose proof (incident_joins n e Hi) as Hj. rewrite Ho in Hj.
  destruct (joins_incident n m e Hab Hj) as [_ [_ Hmn]].
  split; [assumption |]. split.
  - destruct e as [[a b] x]. simpl in *. subst m.
    destruct (a =? n); assumption.
  - destruct (find_exists (joins n m) (edge_data G) e Hin Hj) as [e' He'].
    exists (snd e'). unfold get_edge. rewrite He'. split; [reflexivity |].
    apply find_some in He' as [Hin' _].
    now destruct (wf_edge_ok e' Hin') as [_ [_ [_ H]]].
Qed.

Lemma wf_neighbors_NoDup (n : nat) : NoDup (neighbors G n).
Proof.
  destruct Hwf as [_ [Hok Hnd]]. unfold neighbors.
  induction (edge_data G) as [| e es IH]; simpl; [constructor |].
  inversion Hok as [| e0 es0 He Hes]; subst.
  inversion Hnd as [| k ks Hnin Hnd']; subst.
  destruct (incident n e) eqn:Hi; simpl; [| now apply IH].
  constructor; [| now apply IH].
  intro Hin. apply in_map_iff in Hin as [e' [Ho Hin']].
  apply filter_In in Hin' as [Hin' Hi'].
  apply Hnin. apply in_map_iff. exists e'. split; [| assumption].
  apply incident_joins in Hi, Hi'. rewrite Ho in Hi'.
  apply joins_ends in Hi, Hi'. congruence.
Qed.

Lemma wf_edge_attr (n m : nat) :
  In m (neighbors G n) ->
  (exists w, edge_attr G n m weight = Ok w)
  /\ (exists c, edge_attr G n m conductivity = Ok c).
Proof.
  intro Hin. destruct (wf_neighbor n m Hin) as [_ [_ [a [Hget Hattr]]]].
  unfold edge_attr. rewrite Hget. unfold edge_attributed in Hattr.
  destruct (weight a) as [w |]; [| discriminate].
  destruct (conductivity a) as [c |]; [| discriminate].
  split; [now exists w | now exists c].
Qed.

(** The two neighbours of a redundant node. *)
Lemma wf_two_neighbors (n n1 n2 : nat) :
  neighbors G n = [n1; n2] ->
  n1 <> n2 /\ n1 <> n /\ n2 <> n /\ In n1 (nodes G) /\ In n2 (nodes G).
Proof.
  intro Hn. pose proof (wf_neighbors_NoDup n) as Hnd. rewrite Hn in Hnd.
  assert (H1 : In n1 (neighbors G n)) by (rewrite Hn; simpl; auto).
  assert (H2 : In n2 (neighbors G n)) by (rewrite Hn; simpl; auto).
  apply wf_neighbor in H1 as [H1 [H1' _]].
  apply wf_neighbor in H2 as [H2 [H2' _]].
  inversion Hnd as [| x l Hnin _]; subst.
  repeat split; try assumption.
  intro; subst. apply Hnin. simpl. auto.
Qed.

End WellFormed.

(* ================================================================= *)
(** ** Adding an edge, removing a node *)

Lemma NoDup_snoc {A : Type} (l : list A) (x : A) :
  NoDup l -> ~ In x l -> NoDup (l ++ [x]).
Proof.
  intros Hl Hx. apply NoDup_app; [assumption | repeat constructor; auto |].
  intros a Ha [<- | []]. contradiction.
Qed.

Lemma put_edge_ends (u v : nat) (a : EdgeAttr) (es : list Edge) :
  map ends (put_edge u v a es)
  = if existsb (joins u v) es then map ends es
    else map ends es ++ [ends (u, v, a)].
Proof.
  induction es as [| e es IH]; [reflexivity |].
  simpl put_edge. simpl existsb. destruct (joins u v e); simpl.
  - f_equal. now destruct e as [[? ?] ?].
  - rewrite IH. now destruct (existsb (joins u v) es).
Qed.

Lemma put_edge_NoDup (u v : nat) (a : EdgeAttr) (es : list Edge) :
  NoDup (map ends es) -> NoDup (map ends (put_edge u v a es)).
Proof.
  intro H. rewrite put_edge_ends.
  destruct (existsb (joins u v) es) eqn:E; [assumption |].
  apply NoDup_snoc; [assumption |].
  intro Hin. apply (existsb_joins_ends u v a) in Hin. congruence.
Qed.

Lemma put_edge_Forall (P : Edge -> Prop) (u v : nat) (a : EdgeAttr)
      (es : list Edge) :
  Forall P es -> P (u, v, a) -> (forall e, P e -> P (fst e, a)) ->
  Forall P (put_edge u v a es).
Proof.
  intros Hes Hnew Hupd.
  induction Hes as [| e es He Hes IH]; simpl.
  - now constructor.
  - destruct (joins u v e); constructor; auto.
Qed.

(** After [add_edge(u, v, ...)] the edge [u]-[v] carries the new
    attributes. *)
Lemma find_put_edge (u v : nat) (a : EdgeAttr) (es : list Edge) :
  exists p, find (joins u v) (put_edge u v a es) = Some (p, a).
Proof.
  induction es as [| e es IH]; simpl.
  - exists (u, v). now rewrite !Nat.eqb_refl.
  - destruct IH as [p Hp]. destruct e as [[x y] z].
    simpl.
    destruct ((x =? u) && (y =? v) || (x =? v) && (y =? u)) eqn:E.
    + exists (x, y). simpl. now rewrite E.
    + exists p. simpl. rewrite E. exact Hp.
Qed.

Lemma add_node_existing (G : Graph) (n : nat) :
  In n (nodes G) -> add_node G n = G.
Proof.
  intro H. unfold add_node. apply mem_In in H. now rewrite H.
Qed.

Lemma add_edge_existing (G : Graph) (u v : nat) (w c : Q) :
  In u (nodes G) -> In v (nodes G) ->
  add_edge G u v w c
  = {| node_data := node_data G;
       edge_data := put_edge u v {| weight := Some w; conductivity := Some c |}
                             (edge_data G) |}.
Proof.
  intros Hu Hv. unfold add_edge.
  now rewrite (add_node_existing G u Hu), (add_node_existing G v Hv).
Qed.

Lemma get_edge_add_edge (G : Graph) (u v : nat) (w c : Q) :
  get_edge (add_edge G u v w c) u v
  = Some {| weight := Some w; conductivity := Some c |}.
Proof.
  unfold get_edge, add_edge. simpl.
  destruct (find_put_edge u v {| weight := Some w; conductivity := Some c |}
                          (edge_data (add_node (add_node G u) v))) as [p Hp].
  now rewrite Hp.
Qed.

Lemma add_edge_wf (G : Graph) (u v : nat) (w c : Q) :
  graph_wf G -> In u (nodes G) -> In v (nodes G) -> u <> v ->
  graph_wf (add_edge G u v w c).
Proof.
  intros [Hnd [Hok Hsimple]] Hu Hv Huv.
  rewrite (add_edge_existing G u v w c Hu Hv).
  split; [exact Hnd |]. split; simpl.
  - apply put_edge_Forall.
    + exact Hok.
    + repeat split; assumption.
    + intros e [Ha [Hb [Hab _]]]. repeat split; assumption.
  - now apply put_edge_NoDup.
Qed.

Lemma order_nodes (G : Graph) : order G = length (nodes G).
Proof.
  unfold order, nodes. now rewrite length_map.
Qed.

Lemma nodes_filter (n : nat) (l : list (nat * NodeAttr)) :
  map fst (filter (fun p => negb (fst p =? n)) l)
  = filter (fun m => negb (m =? n)) (map fst l).
Proof.
  induction l as [| p l IH]; [reflexivity |].
  simpl. destruct (negb (fst p =? n)); simpl; congruence.
Qed.

Lemma filter_absent (n : nat) (l : list nat) :
  ~ In n l -> filter (fun m => negb (m =? n)) l = l.
Proof.
  induction l as [| a l IH]; [reflexivity |].
  simpl. intro H. destruct (a =? n) eqn:E.
  - apply Nat.eqb_eq in E. tauto.
  - simpl. f_equal. tauto.
Qed.

Lemma filter_present_length (n : nat) (l : list nat) :
  NoDup l -> In n l ->
  S (length (filter (fun m => negb (m =? n)) l)) = length l.
Proof.
  induction l as [| a l IH]; intros Hnd Hin; [destruct Hin |].
  inversion Hnd as [| x l' Hnin Hnd']; subst. simpl.
  destruct (a =? n) eqn:E.
  - apply Nat.eqb_eq in E. subst a. simpl. now rewrite filter_absent.
  - apply Nat.eqb_neq in E. simpl. f_equal. apply IH; [assumption |].
    destruct Hin; [contradiction | assumption].
Qed.

Lemma not_incident (n : nat) (e : Edge) :
  incident n e = false -> fst (fst e) <> n /\ snd (fst e) <> n.
Proof.
  destruct e as [[a b] x]. simpl.
  rewrite orb_false_iff, !Nat.eqb_neq. tauto.
Qed.

Lemma remove_node_spec (G : Graph) (n : nat) :
  graph_wf G -> In n (nodes G) ->
  exists G', remove_node G n = Ok G' /\ graph_wf G'
             /\ S (order G') = order G
             /\ (forall m, In m (nodes G') <-> In m (nodes G) /\ m <> n).
Proof.
  intros [Hnd [Hok Hsimple]] Hin. unfold remove_node.
  pose proof Hin as Hmem. apply mem_In in Hmem. rewrite Hmem.
  set (G' := {| node_data := filter (fun p => negb (fst p =? n)) (node_data G);
                edge_data := filter (fun e => negb (incident n e)) (edge_data G) |}).
  assert (HG' : nodes G' = filter (fun m => negb (m =? n)) (nodes G)).
  { unfold nodes, G'. simpl. apply nodes_filter. }
  assert (Hnodes : forall m, In m (nodes G') <-> In m (nodes G) /\ m <> n).
  { intro m. rewrite HG', filter_In, negb_true_iff, Nat.eqb_neq. tauto. }
  exists G'. split; [reflexivity |]. split; [| split; [| exact Hnodes]].
  - split; [| split].
    + rewrite HG'. now apply NoDup_filter.
    + apply Forall_forall. intros e He. unfold G' in He. simpl in He.
      apply filter_In in He as [He Hinc]. apply negb_true_iff in Hinc.
      apply not_incident in Hinc as [Ha Hb].
      rewrite Forall_forall in Hok. destruct (Hok e He) as [Ha' [Hb' [Hab Hat]]].
      unfold edge_ok.
      repeat split; try assumption; apply Hnodes; split; assumption.
    + unfold G'. simpl. now apply ends_filter_NoDup.
  - rewrite !order_nodes, HG'. now apply filter_present_length.
Qed.

Lemma remove_nodes_spec (l : list nat) :
  forall G : Graph,
    graph_wf G -> NoDup l -> incl l (nodes G) ->
    exists G', remove_nodes G l = Ok G' /\ graph_wf G'
               /\ order G' + length l = order G
               /\ (forall m, In m (nodes G') <-> In m (nodes G) /\ ~ In m l).
Proof.
  induction l as [| n l IH]; intros G Hwf Hnd Hincl.
  - exists G. simpl. split; [reflexivity |]. split; [assumption |].
    split; [lia | intro m; tauto].
  - inversion Hnd as [| x l' Hnin Hnd']; subst.
    destruct (remove_node_spec G n Hwf) as [G1 [Hrm [Hwf1 [Hord1 Hnodes1]]]].
    { apply Hincl. now left. }
    destruct (IH G1 Hwf1 Hnd') as [G' [Hrms [Hwf' [Hord' Hnodes']]]].
    { intros m Hm. apply Hnodes1. split.
      - apply Hincl. now right.
      - intro; subst. contradiction. }
    exists G'. simpl. rewrite Hrm. simpl. split; [assumption |].
    split; [assumption |]. split; [lia |].
    intro m. rewrite Hnodes', Hnodes1. simpl. split.
    + intros [[Hm Hmn] Hml]. split; [assumption |]. intros [-> | H]; auto.
    + intros [Hm Hml]. repeat split; auto.
Qed.

(* ================================================================= *)
(** ** The scan of a collapse pass *)

Lemma visit_inv (G : Graph) (nl : list nat) (node : nat)
      (G' : Graph) (nl' : list nat) :
  visit (G, nl) node = Ok (G', nl') ->
  (G' = G /\ nl' = nl /\ degree G node <> 2)
  \/ (exists n1 n2 w1 w2 c1 c2,
         neighbors G node = [n1; n2]
         /\ edge_attr G node n1 weight = Ok w1
         /\ edge_attr G node n2 weight = Ok w2
         /\ edge_attr G node n1 conductivity = Ok c1
         /\ edge_attr G node n2 conductivity = Ok c2
         /\ G' = add_edge G n1 n2 (guarded_length w1 w2)
                          (merged_radius c1 w1 c2 w2)
         /\ order G' = order G
         /\ nl' = if negb (mem n1 nl) && negb (mem n2 nl)
                  then dict_update nl node else nl).
Proof.
  unfold visit, degree.
  destruct (neighbors G node) as [| n1 [| n2 [| n3 l]]] eqn:Hn; intro H;
    try (left; injection H as <- <-; simpl; repeat split; lia).
  right.
  destruct (edge_attr G node n1 weight) as [w1 | |] eqn:E1; try discriminate.
  destruct (edge_attr G node n2 weight) as [w2 | |] eqn:E2; try discriminate.
  destruct (edge_attr G node n1 conductivity) as [c1 | |] eqn:E3;
    try discriminate.
  destruct (edge_attr G node n2 conductivity) as [c2 | |] eqn:E4;
    try discriminate.
  simpl in H.
  destruct (order _ =? order G) eqn:Eo; try discriminate.
  apply Nat.eqb_eq in Eo. injection H as <- <-.
  exists n1, n2, w1, w2, c1, c2. repeat split; assumption.
Qed.

Lemma visit_wf (G : Graph) (nl : list nat) (node : nat) :
  graph_wf G ->
  exists G' nl',
    visit (G, nl) node = Ok (G', nl') /\ graph_wf G'
    /\ node_data G' = node_data G
    /\ (nl' = nl
        \/ (nl' = nl ++ [node] /\ ~ In node nl
            /\ exists n1 n2, n1 <> n2 /\ In n1 (nodes G) /\ In n2 (nodes G)
                             /\ n1 <> node /\ n2 <> node
                             /\ ~ In n1 nl /\ ~ In n2 nl)).
Proof.
  intro Hwf. unfold visit.
  destruct (neighbors G node) as [| n1 [| n2 [| n3 l]]] eqn:Hn;
    try (exists G, nl; split; [reflexivity |]; split; [assumption |];
         split; [reflexivity | now left]).
  destruct (wf_two_neighbors G Hwf node n1 n2 Hn) as [H12 [H1 [H2 [Hin1 Hin2]]]].
  assert (Hn1 : In n1 (neighbors G node)) by (rewrite Hn; simpl; auto).
  assert (Hn2 : In n2 (neighbors G node)) by (rewrite Hn; simpl; auto).
  destruct (wf_edge_attr G Hwf node n1 Hn1) as [[w1 Hw1] [c1 Hc1]].
  destruct (wf_edge_attr G Hwf node n2 Hn2) as [[w2 Hw2] [c2 Hc2]].
  rewrite Hw1, Hw2, Hc1, Hc2. simpl.
  set (G' := add_edge G n1 n2 (guarded_length w1 w2) (merged_radius c1 w1 c2 w2)).
  assert (HG' : node_data G' = node_data G).
  { unfold G'. now rewrite add_edge_existing. }
  assert (Hord : (order G' =? order G) = true).
  { unfold order. rewrite HG'. apply Nat.eqb_refl. }
  rewrite Hord.
  eexists G', _. split; [reflexivity |].
  split; [now apply add_edge_wf |]. split; [assumption |].
  destruct (mem n1 nl) eqn:M1; simpl; [now left |].
  destruct (mem n2 nl) eqn:M2; simpl; [now left |].
  unfold dict_update. destruct (mem node nl) eqn:M; [now left |].
  right. apply mem_not_In in M1, M2, M.
  split; [reflexivity |]. split; [assumption |].
  exists n1, n2. repeat split; assumption.
Qed.

Lemma visit_extends (G : Graph) (nl : list nat) (node : nat)
      (G' : Graph) (nl' : list nat) :
  visit (G, nl) node = Ok (G', nl') -> exists ext, nl' = nl ++ ext.
Proof.
  intro H. apply visit_inv in H as [[_ [-> _]] | H].
  - exists []. now rewrite app_nil_r.
  - destruct H as [n1 [n2 [w1 [w2 [c1 [c2 H]]]]]].
    destruct H as [_ [_ [_ [_ [_ [_ [_ ->]]]]]]].
    destruct (negb (mem n1 nl) && negb (mem n2 nl)).
    + unfold dict_update. destruct (mem node nl).
      * exists []. now rewrite app_nil_r.
      * now exists [node].
    + exists []. now rewrite app_nil_r.
Qed.

Lemma scan_extends (ns : list nat) :
  forall (G : Graph) (nl : list nat) (G' : Graph) (nl' : list nat),
    scan ns (G, nl) = Ok (G', nl') -> exists ext, nl' = nl ++ ext.
Proof.
  induction ns as [| node ns IH]; intros G nl G' nl' H; simpl in H.
  - injection H as <- <-. exists []. now rewrite app_nil_r.
  - apply bind_Ok in H as [[G1 nl1] [Hv Hs]].
    apply visit_extends in Hv as [e1 ->].
    apply IH in Hs as [e2 ->]. exists (e1 ++ e2). now rewrite app_assoc.
Qed.

(** A scan that marks nothing met no redundant node and left the graph
    as it was. *)
Lemma scan_nothing_marked (ns : list nat) :
  forall G G' : Graph,
    scan ns (G, []) = Ok (G', []) ->
    G' = G /\ forall n, In n ns -> degree G n <> 2.
Proof.
  induction ns as [| node ns IH]; intros G G' H; simpl in H.
  - injection H as <-. split; [reflexivity | intros n []].
  - apply bind_Ok in H as [[G1 nl1] [Hv Hs]].
    pose proof (scan_extends _ _ _ _ _ Hs) as [ext Hext].
    symmetry in Hext. apply app_eq_nil in Hext as [-> _].
    apply visit_inv in Hv as [[-> [_ Hdeg]] | Hv].
    + apply IH in Hs as [-> Hall]. split; [reflexivity |].
      intros n [<- | Hn]; auto.
    + destruct Hv as [n1 [n2 [w1 [w2 [c1 [c2 Hv]]]]]].
      destruct Hv as [_ [_ [_ [_ [_ [_ [_ Hnl]]]]]]].
      simpl in Hnl. discriminate.
Qed.

Lemma scan_wf (ns : list nat) :
  forall (G : Graph) (nl pre : list nat),
    graph_wf G -> incl nl pre -> NoDup nl -> marked_ok (nodes G) nl ->
    exists G' nl',
      scan ns (G, nl) = Ok (G', nl') /\ graph_wf G'
      /\ node_data G' = node_data G
      /\ incl nl' (pre ++ ns) /\ NoDup nl' /\ marked_ok (nodes G) nl'.
Proof.
  induction ns as [| node ns IH]; intros G nl pre Hwf Hincl Hnd Hmk.
  - exists G, nl. simpl. rewrite app_nil_r.
    split; [reflexivity |]. split; [assumption |]. split; [reflexivity |].
    split; [assumption |]. split; assumption.
  - destruct (visit_wf G nl node Hwf) as [G1 [nl1 [Hv [Hwf1 [Hdata Hnl1]]]]].
    assert (Hnodes : nodes G1 = nodes G) by (unfold nodes; now rewrite Hdata).
    destruct (IH G1 nl1 (pre ++ [node]) Hwf1) as
        [G' [nl' [Hs [Hwf' [Hdata' [Hincl' [Hnd' Hmk']]]]]]].
    + destruct Hnl1 as [-> | [-> _]].
      * now apply incl_appl.
      * apply incl_app; [now apply incl_appl | apply incl_appr, incl_refl].
    + destruct Hnl1 as [-> | [-> [Hnin _]]]; [assumption |].
      now apply NoDup_snoc.
    + rewrite Hnodes.
      destruct Hnl1 as [-> | [-> [_ [n1 [n2 H]]]]]; [assumption |].
      destruct H as [H12 [Hin1 [Hin2 [H1 [H2 [Hn1 Hn2]]]]]].
      right. exists n1, n2. repeat split; try assumption.
      * intro Hin. apply in_app_or in Hin as [Hin | [Hin | []]]; auto.
      * intro Hin. apply in_app_or in Hin as [Hin | [Hin | []]]; auto.
    + exists G', nl'.
      rewrite <- app_assoc in Hincl'. simpl in Hincl'.
      rewrite Hnodes in Hmk'.
      split; [cbn [scan]; rewrite Hv; exact Hs |]. split; [assumption |]. split; [congruence |].
      split; [assumption |]. split; assumption.
Qed.

Lemma marked_bound (N nl : list nat) :
  NoDup nl -> incl nl N -> marked_ok N nl ->
  nl = [] \/ length nl + 2 <= length N.
Proof.
  intros Hnd Hincl [-> | [a [b [Hab [Ha [Hb [Hna Hnb]]]]]]]; [now left |].
  right. assert (H : NoDup (a :: b :: nl)).
  { constructor.
    - intros [-> | Hin]; [now apply Hab | contradiction].
    - now constructor. }
  apply NoDup_incl_length with (l' := N) in H.
  - simpl in H. lia.
  - intros x [<- | [<- | Hx]]; auto.
Qed.

(* ================================================================= *)
(** ** One collapse pass *)

(** On a simple graph a pass fails exactly when the graph has a single
    node: nothing is marked, the test [len(nodelist) == len(G.nodes())-1]
    holds and [nodelist[1]] raises.  Otherwise the pass returns a simple
    graph with no more nodes than before, and with as many only if it
    changed nothing because no node had degree 2. *)
Lemma collapse_pass_spec (G : Graph) :
  graph_wf G ->
  (order G = 1 /\ collapse_pass G = Raise KeyError)
  \/ (order G <> 1 /\
      exists G', collapse_pass G = Ok G' /\ graph_wf G'
                 /\ order G' <= order G /\ order G' <> 1
                 /\ (order G' = 0 -> order G = 0)
                 /\ (order G' = order G -> G' = G /\ no_redundant_node G)).
Proof.
  intro Hwf.
  destruct (scan_wf (nodes G) G [] [] Hwf) as
      [G1 [nl [Hs [Hwf1 [Hdata [Hincl [Hnd Hmk]]]]]]].
  { apply incl_refl. }
  { constructor. }
  { now left. }
  simpl in Hincl.
  assert (Hnodes : nodes G1 = nodes G) by (unfold nodes; now rewrite Hdata).
  unfold collapse_pass. rewrite Hs. cbn [bind]. rewrite Hnodes.
  destruct nl as [| x nl0].
  - destruct (Nat.eq_dec (order G) 1) as [H1 | H1].
    + left. split; [assumption |].
      rewrite <- order_nodes, H1. reflexivity.
    + right. split; [assumption |].
      destruct (Z.eqb_spec (Z.of_nat (length (@nil nat)))
                           (Z.of_nat (length (nodes G)) - 1)) as [E | E].
      { simpl in E. rewrite <- order_nodes in E. lia. }
      apply scan_nothing_marked in Hs as [-> Hdeg].
      exists G. split; [reflexivity |]. split; [assumption |].
      split; [lia |]. split; [assumption |]. split; [trivial |].
      intros _. split; [reflexivity | exact Hdeg].
  - set (nl := x :: nl0) in *.
    destruct (marked_bound (nodes G) nl Hnd Hincl Hmk) as [E | Hlen];
      [discriminate |].
    right. rewrite <- order_nodes in Hlen. split; [lia |].
    destruct (Z.eqb_spec (Z.of_nat (length nl))
                         (Z.of_nat (length (nodes G)) - 1)) as [E | E].
    { rewrite <- order_nodes in E. lia. }
    destruct (remove_nodes_spec nl G1 Hwf1 Hnd) as [G' [Hrm [Hwf' [Hord _]]]].
    { now rewrite Hnodes. }
    assert (HG1 : order G1 = order G) by (unfold order; now rewrite Hdata).
    exists G'. split; [assumption |]. split; [assumption |].
    split; [lia |]. split; [lia |]. split; [lia |]. intro Heq.
    unfold nl in Hord. simpl in Hord. lia.
Qed.

(** On a simple graph the test of the guard holds only for a single
    node with nothing marked. *)
Lemma guard_entered_iff (G G1 : Graph) (nodelist : list nat) :
  graph_wf G ->
  scan (nodes G) (G, []) = Ok (G1, nodelist) ->
  ((Z.of_nat (length nodelist) =? Z.of_nat (length (nodes G1)) - 1)%Z = true
   <-> order G = 1 /\ nodelist = []).
Proof.
  intros Hwf Hscan.
  destruct (scan_wf (nodes G) G [] [] Hwf) as
      [G1' [nl [Hs [_ [Hdata [Hincl [Hnd Hmk]]]]]]].
  { apply incl_refl. }
  { constructor. }
  { now left. }
  rewrite Hscan in Hs. injection Hs as <- <-. simpl in Hincl.
  assert (Hnodes : nodes G1 = nodes G) by (unfold nodes; now rewrite Hdata).
  rewrite Hnodes, Z.eqb_eq, order_nodes.
  destruct (marked_bound (nodes G) nodelist Hnd Hincl Hmk) as [-> | Hlen].
  - simpl. split; [intro H; split; [lia | reflexivity] | intros [H _]; lia].
  - split; [intro H; lia |]. intros [H ->]. simpl. lia.
Qed.

(** The node count never increases in a pass. *)
Lemma collapse_pass_order (G G' : Graph) :
  graph_wf G -> collapse_pass G = Ok G' -> order G' <= order G.
Proof.
  intros Hwf H. destruct (collapse_pass_spec G Hwf) as [[_ Hr] | [_ Hok]].
  - congruence.
  - destruct Hok as [G'' [Hp [_ [Hle _]]]]. congruence.
Qed.

(* ================================================================= *)
(** ** The loop of [removeRedundantNodes] *)

Lemma order_zero_nodes (G : Graph) : order G = 0 -> nodes G = [].
Proof.
  rewrite order_nodes. now destruct (nodes G).
Qed.

Lemma no_nodes_no_redundant (G : Graph) : order G = 0 -> no_redundant_node G.
Proof.
  intros H n Hn. rewrite (order_zero_nodes G H) in Hn. destruct Hn.
Qed.

Lemma rrn_loop_S (fuel : nat) (mode : Z) (G : Graph) (ord new_order i : nat) :
  rrn_loop (S fuel) mode G ord new_order i
  = if (mode =? 1)%Z && (2 <? i) then Ok (G, i)
    else if (mode =? 0)%Z && (new_order =? ord) then Ok (G, i)
    else if (mode =? 2)%Z then Ok (G, i)
    else
      G' <- collapse_pass G ;;
      if new_order =? order G' then Ok (G', S i)
      else rrn_loop fuel mode G' new_order (order G') (S i).
Proof.
  reflexivity.
Qed.

(** From the second pass on, [new_order] is the node count of the
    current graph and the loop goes on only while passes remove nodes:
    fuel above the node count is never used up. *)
Lemma rrn_loop_total (fuel : nat) :
  forall (mode : Z) (G : Graph) (ord i : nat),
    graph_wf G -> order G <> 1 -> order G < fuel ->
    exists G' i',
      rrn_loop fuel mode G ord (order G) i = Ok (G', i')
      /\ graph_wf G' /\ order G' <= order G /\ order G' <> 1.
Proof.
  induction fuel as [| fuel IH]; intros mode G ord i Hwf H1 Hfuel; [lia |].
  assert (Hstay : exists G' i',
             Ok (G, i) = Ok (G', i')
             /\ graph_wf G' /\ order G' <= order G /\ order G' <> 1).
  { exists G, i. split; [reflexivity |]. split; [assumption |].
    split; [lia | assumption]. }
  rewrite rrn_loop_S.
  destruct ((mode =? 1)%Z && (2 <? i)); [exact Hstay |].
  destruct ((mode =? 0)%Z && (order G =? ord)); [exact Hstay |].
  destruct (mode =? 2)%Z; [exact Hstay |].
  destruct (collapse_pass_spec G Hwf) as [[H _] | [_ Hok]]; [contradiction |].
  destruct Hok as [G1 [Hp [Hwf1 [Hle [Hne _]]]]].
  rewrite Hp. cbn [bind].
  destruct (order G =? order G1) eqn:E.
  - exists G1, (S i). split; [reflexivity |]. split; [assumption |].
    split; assumption.
  - apply Nat.eqb_neq in E.
    destruct (IH mode G1 (order G) (S i) Hwf1 Hne) as [G' [i' [Hl [Hwf' [Hle' Hne']]]]].
    + lia.
    + exists G', i'. split; [assumption |]. split; [assumption |].
      split; [lia | assumption].
Qed.

(** The simplifier returns on every simple graph that does not consist
    of a single node. *)
Lemma rrn_run_total (G : Graph) (mode : Z) :
  graph_wf G -> order G <> 1 ->
  exists G' i, rrn_run G mode = Ok (G', i) /\ graph_wf G'
               /\ order G' <= order G.
Proof.
  intros Hwf H1. unfold rrn_run.
  assert (Hstay : exists G' i,
             Ok (G, 0) = Ok (G', i) /\ graph_wf G' /\ order G' <= order G).
  { exists G, 0. split; [reflexivity |]. split; [assumption | lia]. }
  rewrite rrn_loop_S.
  destruct ((mode =? 1)%Z && (2 <? 0)); [exact Hstay |].
  destruct ((mode =? 0)%Z && (0 =? order G)); [exact Hstay |].
  destruct (mode =? 2)%Z; [exact Hstay |].
  destruct (collapse_pass_spec G Hwf) as [[H _] | [_ Hok]]; [contradiction |].
  destruct Hok as [G1 [Hp [Hwf1 [Hle [Hne _]]]]].
  rewrite Hp. cbn [bind].
  destruct (0 =? order G1) eqn:E.
  - exists G1, 1. split; [reflexivity |]. split; assumption.
  - destruct (rrn_loop_total (S (order G)) mode G1 0 1 Hwf1 Hne)
      as [G' [i' [Hl [Hwf' [Hle' _]]]]]; [lia |].
    exists G', i'. split; [assumption |]. split; [assumption | lia].
Qed.

(** On a single node every mode that enters the loop body raises. *)
Lemma rrn_run_single_node (G : Graph) (mode : Z) :
  graph_wf G -> order G = 1 -> mode <> 2%Z ->
  rrn_run G mode = Raise KeyError.
Proof.
  intros Hwf H1 Hmode. unfold rrn_run. cbn [rrn_loop].
  rewrite H1. simpl (2 <? 0). simpl (0 =? 1). rewrite !andb_false_r.
  destruct (Z.eqb_spec mode 2) as [E | _]; [contradiction |].
  destruct (collapse_pass_spec G Hwf) as [[_ Hr] | [H _]]; [| contradiction].
  now rewrite Hr.
Qed.

(** In mode 0 the loop can only end on a graph without redundant
    nodes. *)
Lemma rrn_loop_all (fuel : nat) :
  forall (G : Graph) (ord i : nat) (G' : Graph) (i' : nat),
    graph_wf G -> ord <> order G ->
    rrn_loop fuel 0 G ord (order G) i = Ok (G', i') ->
    no_redundant_node G'.
Proof.
  induction fuel as [| fuel IH]; intros G ord i G' i' Hwf Hord H;
    [discriminate |].
  rewrite rrn_loop_S in H. simpl (0 =? 1)%Z in H. simpl (0 =? 0)%Z in H.
  simpl (0 =? 2)%Z in H. cbn [andb] in H.
  destruct (Nat.eqb_spec (order G) ord) as [E | _]; [now elim Hord |].
  apply bind_Ok in H as [G1 [Hp H]].
  destruct (collapse_pass_spec G Hwf) as [[_ Hr] | [_ Hok]]; [congruence |].
  destruct Hok as [G1' [Hp' [Hwf1 [_ [_ [_ Hfix]]]]]].
  assert (G1' = G1) by congruence. subst G1'.
  destruct (Nat.eqb_spec (order G) (order G1)) as [E | E].
  - injection H as <- <-. destruct (Hfix (eq_sym E)) as [-> Hno]. exact Hno.
  - now apply (IH G1 (order G) (S i) G' i' Hwf1 E).
Qed.

Lemma rrn_run_all (G G' : Graph) (i : nat) :
  graph_wf G -> rrn_run G 0 = Ok (G', i) -> no_redundant_node G'.
Proof.
  intros Hwf H. unfold rrn_run in H. rewrite rrn_loop_S in H.
  simpl (0 =? 1)%Z in H. simpl (0 =? 0)%Z in H. simpl (0 =? 2)%Z in H.
  cbn [andb] in H.
  destruct (Nat.eqb_spec 0 (order G)) as [E | _].
  - injection H as <- <-. now apply no_nodes_no_redundant.
  - apply bind_Ok in H as [G1 [Hp H]].
    destruct (collapse_pass_spec G Hwf) as [[_ Hr] | [_ Hok]]; [congruence |].
    destruct Hok as [G1' [Hp' [Hwf1 _]]].
    assert (G1' = G1) by congruence. subst G1'.
    destruct (Nat.eqb_spec 0 (order G1)) as [E | E].
    + injection H as <- <-. now apply no_nodes_no_redundant.
    + now apply (rrn_loop_all (S (order G)) G1 0 1 G' i Hwf1 E).
Qed.

(* ================================================================= *)
(** ** Deciding well-formedness *)

Lemma nodupb_sound (l : list nat) : nodupb l = true -> NoDup l.
Proof.
  induction l as [| x l IH]; simpl; intro H; [constructor |].
  apply andb_true_iff in H as [Hx Hl]. apply negb_true_iff in Hx.
  constructor; [now apply mem_not_In | now apply IH].
Qed.

Lemma simple_edgesb_sound (es : list Edge) :
  simple_edgesb es = true -> NoDup (map ends es).
Proof.
  induction es as [| e es IH]; simpl; intro H; [constructor |].
  apply andb_true_iff in H as [He Hes]. apply negb_true_iff in He.
  constructor; [| now apply IH].
  intro Hin. destruct e as [[a b] x].
  apply (existsb_joins_ends a b x) in Hin. simpl in He. congruence.
Qed.

Lemma graph_wfb_sound (G : Graph) : graph_wfb G = true -> graph_wf G.
Proof.
  unfold graph_wfb. rewrite !andb_true_iff. intros [[Hn He] Hs].
  split; [now apply nodupb_sound |]. split; [| now apply simple_edgesb_sound].
  apply Forall_forall. intros e Hin.
  rewrite forallb_forall in He. specialize (He e Hin).
  unfold edge_okb in He. rewrite !andb_true_iff in He.
  destruct He as [[[Ha Hb] Hab] Hx].
  apply mem_In in Ha, Hb. apply negb_true_iff, Nat.eqb_neq in Hab.
  split; [assumption |]. split; [assumption |]. split; assumption.
Qed.

(* ================================================================= *)
(** ** The half mode *)

(** A run of mode 1 that returns has carried out [i] passes with
    [i = 3], or fewer than three and then the last pass removed no
    node.  Three passes are carried out only when the first pass left
    a node and the second pass removed one. *)
Lemma half_mode_run (G G' : Graph) (i : nat) :
  graph_wf G ->
  rrn_run G 1 = Ok (G', i) ->
  iter_pass i G = Ok G'
  /\ (i = 3
      \/ (1 <= i < 3
          /\ exists Gp, iter_pass (i - 1) G = Ok Gp
                        /\ collapse_pass Gp = Ok G'
                        /\ order G' = order Gp))
  /\ (i = 3 ->
      exists G1 G2, collapse_pass G = Ok G1 /\ collapse_pass G1 = Ok G2
                    /\ collapse_pass G2 = Ok G'
                    /\ order G1 <> 0 /\ order G2 <> order G1).
Proof.
  intros Hwf H. unfold rrn_run in H. rewrite rrn_loop_S in H.
  simpl (2 <? 0) in H. simpl (1 =? 0)%Z in H. simpl (1 =? 2)%Z in H.
  rewrite andb_false_r in H. cbn [andb] in H.
  apply bind_Ok in H as [G1 [Hp1 H]].
  destruct (Nat.eqb_spec 0 (order G1)) as [E1 | E1].
  - (* the graph is empty: one pass *)
    injection H as <- <-.
    destruct (collapse_pass_spec G Hwf) as [[_ Hr] | [_ Hok]]; [congruence |].
    destruct Hok as [G1' [Hp1' [_ [_ [_ [Hzero _]]]]]].
    assert (G1' = G1) by congruence. subst G1'.
    split; [simpl; exact Hp1 |]. split; [| discriminate].
    right. split; [lia |]. exists G. simpl.
    split; [reflexivity |]. split; [assumption |].
    rewrite Hzero; auto.
  - rewrite rrn_loop_S in H.
    simpl (2 <? 1) in H. simpl (1 =? 0)%Z in H. simpl (1 =? 2)%Z in H.
    rewrite andb_false_r in H. cbn [andb] in H.
    apply bind_Ok in H as [G2 [Hp2 H]].
    destruct (Nat.eqb_spec (order G1) (order G2)) as [E2 | E2].
    + (* the second pass removed nothing: two passes *)
      injection H as <- <-.
      split; [simpl; rewrite Hp1; exact Hp2 |]. split; [| discriminate].
      right. split; [lia |]. exists G1. simpl. rewrite Hp1.
      split; [reflexivity |]. split; [assumption | now symmetry].
    + (* three passes *)
      assert (H3 : exists G3, collapse_pass G2 = Ok G3 /\ G' = G3 /\ i = 3).
      { destruct (order G) as [| fuel]; [discriminate |].
        rewrite rrn_loop_S in H.
        simpl (2 <? 2) in H. simpl (1 =? 0)%Z in H. simpl (1 =? 2)%Z in H.
        rewrite andb_false_r in H. cbn [andb] in H.
        apply bind_Ok in H as [G3 [Hp3 H]].
        exists G3. split; [assumption |].
        destruct (order G2 =? order G3).
        - now injection H as <- <-.
        - destruct fuel as [| fuel]; [discriminate |].
          rewrite rrn_loop_S in H. simpl in H. now injection H as <- <-. }
      destruct H3 as [G3 [Hp3 [-> ->]]].
      split; [simpl; rewrite Hp1; simpl; rewrite Hp2; exact Hp3 |].
      split; [now left |]. intros _. exists G1, G2.
      split; [assumption |]. split; [assumption |]. split; [assumption |].
      split; [lia | lia].
Qed.

(** The first pass on a single node marks nothing. *)
Lemma single_node_scan (G : Graph) :
  graph_wf G -> order G = 1 -> scan (nodes G) (G, []) = Ok (G, []).
Proof.
  intros Hwf H1.
  destruct (scan_wf (nodes G) G [] [] Hwf) as
      [G1 [nl [Hs [_ [_ [Hincl [Hnd Hmk]]]]]]].
  { apply incl_refl. }
  { constructor. }
  { now left. }
  simpl in Hincl.
  destruct (marked_bound (nodes G) nl Hnd Hincl Hmk) as [-> | Hlen].
  - pose proof Hs as Hs'. apply scan_nothing_marked in Hs' as [-> _].
    exact Hs.
  - rewrite <- order_nodes in Hlen. lia.
Qed.

(** C7. On a simple graph, mode 1 returns unless the graph has a
    single node, and a run that returns has carried out exactly 3
    collapse passes, or fewer and then its last pass removed no node.
    On a single node the run ends in its first pass, which marks no
    node. *)
Theorem half_mode_passes (G : Graph) :
  graph_wf G ->
  (order G <> 1 -> exists G' i, rrn_run G 1 = Ok (G', i))
  /\ (forall G' i,
        rrn_run G 1 = Ok (G', i) ->
        iter_pass i G = Ok G'
        /\ (i = 3
            \/ (1 <= i < 3
                /\ exists Gp, iter_pass (i - 1) G = Ok Gp
                              /\ collapse_pass Gp = Ok G'
                              /\ order G' = order Gp)))
  /\ (order G = 1 ->
      rrn_run G 1 = Raise KeyError
      /\ scan (nodes G) (G, []) = Ok (G, [])).
Proof.
  intro Hwf. split; [| split].
  - intro H1. destruct (rrn_run_total G 1 Hwf H1) as [G' [i [H _]]].
    now exists G', i.
  - intros G' i H.
    destruct (half_mode_run G G' i Hwf H) as [Hi [Hc _]]. now split.
  - intro H1. split.
    + apply (rrn_run_single_node G 1 Hwf H1). discriminate.
    + now apply single_node_scan.
Qed.

(* ================================================================= *)
(** ** The merge rule *)

Lemma Qplus_swap (p q : Q) : (p + q)%Q = (q + p)%Q.
Proof.
  unfold Qplus. f_equal; [apply Z.add_comm | apply Pos.mul_comm].
Qed.

Lemma guarded_length_swap (w1 w2 : Q) :
  guarded_length w1 w2 = guarded_length w2 w1.
Proof.
  unfold guarded_length. now rewrite (Qplus_swap w1 w2).
Qed.

Lemma merged_radius_swap (c1 w1 c2 w2 : Q) :
  merged_radius c1 w1 c2 w2 = merged_radius c2 w2 c1 w1.
Proof.
  unfold merged_radius.
  now rewrite (guarded_length_swap w1 w2), (Qplus_swap (c1 * w1) (c2 * w2)).
Qed.

Lemma edge_attr_get (G : Graph) (u v : nat) (w c : Q) :
  get_edge G u v = Some (attrs w c) ->
  edge_attr G u v weight = Ok w /\ edge_attr G u v conductivity = Ok c.
Proof.
  intro H. unfold edge_attr. rewrite H. now split.
Qed.

(** C1, as the code has it.  When the scan visits a node [v] whose
    neighbours are [n1] and [n2], the edge [n1]-[n2] receives the
    conductivity [(c1 w1 + c2 w2) / d], where [d] is [w1 + w2] when
    that sum is not zero and 1 when it is zero; its weight is [d]. *)
Theorem collapse_conductivity (G : Graph) (nodelist : list nat)
        (v n1 n2 : nat) (w1 c1 w2 c2 : Q) :
  graph_wf G ->
  neighbors G v = [n1; n2] ->
  get_edge G v n1 = Some (attrs w1 c1) ->
  get_edge G v n2 = Some (attrs w2 c2) ->
  exists G' nodelist',
    visit (G, nodelist) v = Ok (G', nodelist')
    /\ get_edge G' n1 n2
       = Some (attrs (if Qeq_bool (w1 + w2) 0 then 1 else w1 + w2)
                     ((c1 * w1 + c2 * w2)
                      / (if Qeq_bool (w1 + w2) 0 then 1 else w1 + w2)))
    /\ (Qeq_bool (w1 + w2) 0 = false ->
        get_edge G' n1 n2
        = Some (attrs (w1 + w2) ((c1 * w1 + c2 * w2) / (w1 + w2)))).
Proof.
  intros Hwf Hn H1 H2.
  destruct (visit_wf G nodelist v Hwf) as [G' [nl' [Hv _]]].
  exists G', nl'. split; [assumption |].
  apply visit_inv in Hv as [[_ [_ Hdeg]] | Hv].
  - unfold degree in Hdeg. rewrite Hn in Hdeg. now elim Hdeg.
  - destruct Hv as [m1 [m2 [x1 [x2 [y1 [y2 Hv]]]]]].
    destruct Hv as [Hn' [E1 [E2 [E3 [E4 [-> _]]]]]].
    rewrite Hn in Hn'. injection Hn' as <- <-.
    apply edge_attr_get in H1 as [F1 F3], H2 as [F2 F4].
    assert (x1 = w1) by congruence. assert (x2 = w2) by congruence.
    assert (y1 = c1) by congruence. assert (y2 = c2) by congruence.
    subst x1 x2 y1 y2. rewrite get_edge_add_edge.
    unfold merged_radius, guarded_length, attrs.
    split; [reflexivity |]. intro Hnz. now rewrite Hnz.
Qed.

(** C1 as the specification words it fails: with two incident edges of
    length 1/4 and conductivity 1 the merged edge gets conductivity 1,
    and [spec_radius] gives 1/2. *)
Lemma collapse_conductivity_not_spec :
  graph_wf quarter_path
  /\ neighbors quarter_path 1 = [0; 2]
  /\ get_edge quarter_path 1 0 = Some (attrs (1 # 4) 1)
  /\ get_edge quarter_path 1 2 = Some (attrs (1 # 4) 1)
  /\ exists G' nodelist' w c,
      visit (quarter_path, []) 1 = Ok (G', nodelist')
      /\ get_edge G' 0 2 = Some (attrs w c)
      /\ (c == 1)%Q
      /\ (spec_radius 1 (1 # 4) 1 (1 # 4) == 1 # 2)%Q
      /\ ~ (c == spec_radius 1 (1 # 4) 1 (1 # 4))%Q.
Proof.
  split; [now apply graph_wfb_sound |]. split; [reflexivity |].
  split; [reflexivity |]. split; [reflexivity |].
  eexists _, _, _, _. split; [reflexivity |]. split; [reflexivity |].
  split; [reflexivity |]. split; [reflexivity |].
  intro H. vm_compute in H. discriminate.
Qed.

(* ================================================================= *)
(** ** Collapsing the middle of a path *)

Lemma perm3_cases (a b c A B C : nat) :
  A <> B -> B <> C -> A <> C ->
  Permutation [a; b; c] [A; B; C] ->
  (a = A /\ b = B /\ c = C) \/ (a = A /\ b = C /\ c = B)
  \/ (a = B /\ b = A /\ c = C) \/ (a = B /\ b = C /\ c = A)
  \/ (a = C /\ b = A /\ c = B) \/ (a = C /\ b = B /\ c = A).
Proof.
  intros HAB HBC HAC H.
  assert (Ha : In a [A; B; C]) by (apply (Permutation_in _ H); simpl; auto).
  assert (Hb : In b [A; B; C]) by (apply (Permutation_in _ H); simpl; auto).
  assert (Hc : In c [A; B; C]) by (apply (Permutation_in _ H); simpl; auto).
  assert (Hnd : NoDup [a; b; c]).
  { apply (Permutation_NoDup (Permutation_sym H)).
    repeat constructor; simpl; intuition congruence. }
  inversion Hnd as [| ? ? Hab Hnd']; subst.
  inversion Hnd' as [| ? ? Hbc _]; subst.
  simpl in *. intuition congruence.
Qed.

Arguments guarded_length : simpl never.
Arguments merged_radius : simpl never.

Ltac path_eval E1 E2 E3 E4 E5 E6 :=
  unfold collapse_pass, nodes;
  repeat progress
    (cbn;
     unfold edge_attr, get_edge, add_edge, add_node, mem, nodes, order,
       dict_update, dict_get, remove_node, attrs;
     rewrite ?Nat.eqb_refl, ?E1, ?E2, ?E3, ?E4, ?E5, ?E6).

Lemma path_collapse_merged (G : Graph) (A B C : nat) (wab cab wbc cbc : Q) :
  simple_path G A B C (attrs wab cab) (attrs wbc cbc) ->
  exists G',
    collapse_pass G = Ok G'
    /\ Permutation (nodes G') [A; C]
    /\ length (edge_data G') = 1
    /\ get_edge G' A C
       = Some (attrs (guarded_length wab wbc) (merged_radius cab wab cbc wbc)).
Proof.
  intros [HAB [HBC [HAC [Hperm [e1 [e2 [Hed Hcases]]]]]]].
  destruct G as [nd ed]. unfold nodes in Hperm. simpl in Hperm, Hed. subst ed.
  pose proof (Permutation_length Hperm) as Hlen. rewrite length_map in Hlen.
  destruct nd as [| [a x] [| [b y] [| [c z] [| ? ?]]]];
    simpl in Hlen; try discriminate.
  simpl in Hperm. apply perm3_cases in Hperm; try assumption.
  assert (E1 : (A =? B) = false) by now apply Nat.eqb_neq.
  assert (E2 : (B =? A) = false) by (apply Nat.eqb_neq; congruence).
  assert (E3 : (B =? C) = false) by now apply Nat.eqb_neq.
  assert (E4 : (C =? B) = false) by (apply Nat.eqb_neq; congruence).
  assert (E5 : (A =? C) = false) by now apply Nat.eqb_neq.
  assert (E6 : (C =? A) = false) by (apply Nat.eqb_neq; congruence).
  unfold same_edge in Hcases.
  destruct Hperm as [[-> [-> ->]] | [[-> [-> ->]] | [[-> [-> ->]]
                    | [[-> [-> ->]] | [[-> [-> ->]] | [-> [-> ->]]]]]]];
    destruct Hcases as [[[-> | ->] [-> | ->]] | [[-> | ->] [-> | ->]]];
    (eexists; split; [path_eval E1 E2 E3 E4 E5 E6; reflexivity |];
     split; [cbn; first [apply Permutation_refl | apply perm_swap] |];
     split; [reflexivity |];
     unfold get_edge; cbn;
     rewrite ?Nat.eqb_refl, ?E1, ?E2, ?E3, ?E4, ?E5, ?E6; cbn;
     first [ reflexivity
           | rewrite (guarded_length_swap wbc wab),
                     (merged_radius_swap cbc wbc cab wab); reflexivity ]).
Qed.

(** C2, as the code has it.  A collapse pass on the path [A]-[B]-[C]
    leaves the nodes [A] and [C] and the single edge [A]-[C]; its
    weight is [w(A,B) + w(B,C)] when that sum is not zero (and 1 when
    it is zero), and its conductivity is
    [(c(A,B) w(A,B) + c(B,C) w(B,C))] divided by that weight: the
    length-weighted average whenever the sum is not zero. *)
Theorem path_collapse (G : Graph) (A B C : nat) (wab cab wbc cbc : Q) :
  simple_path G A B C (attrs wab cab) (attrs wbc cbc) ->
  exists G',
    collapse_pass G = Ok G'
    /\ Permutation (nodes G') [A; C]
    /\ length (edge_data G') = 1
    /\ get_edge G' A C
       = Some (attrs (if Qeq_bool (wab + wbc) 0 then 1 else wab + wbc)
                     ((cab * wab + cbc * wbc)
                      / (if Qeq_bool (wab + wbc) 0 then 1 else wab + wbc)))
    /\ (Qeq_bool (wab + wbc) 0 = false ->
        get_edge G' A C
        = Some (attrs (wab + wbc)
                      ((cab * wab + cbc * wbc) / (wab + wbc)))).
Proof.
  intro Hpath.
  destruct (path_collapse_merged G A B C wab cab wbc cbc Hpath)
    as [G' [Hp [Hn [Hl Hg]]]].
  exists G'. split; [assumption |]. split; [assumption |].
  split; [assumption |].
  unfold merged_radius, guarded_length in Hg.
  split; [exact Hg |]. intro Hnz. now rewrite Hnz in Hg.
Qed.

(** C2 as stated fails when both edges have length zero: the merged
    edge gets weight 1, not 0. *)
Lemma path_weight_not_sum :
  simple_path zero_path 0 1 2 (attrs 0 3) (attrs 0 5)
  /\ exists G' w c,
      collapse_pass zero_path = Ok G'
      /\ get_edge G' 0 2 = Some (attrs w c)
      /\ (w == 1)%Q
      /\ ~ (w == 0 + 0)%Q.
Proof.
  split.
  - repeat split; try discriminate.
    + apply Permutation_refl.
    + eexists _, _. split; [reflexivity |]. left. split; now left.
  - eexists _, _, _. split; [reflexivity |]. split; [reflexivity |].
    split; [reflexivity |]. intro H. vm_compute in H. discriminate.
Qed.

(* ================================================================= *)
(** ** Node counts and the fixed point of mode 0 *)

Lemma removeRedundantNodes_run (G G' : Graph) (mode : Z) :
  removeRedundantNodes G mode = Ok G' <-> exists i, rrn_run G mode = Ok (G', i).
Proof.
  unfold removeRedundantNodes. split.
  - intro H. apply omap_Ok in H as [[G1 i] [Hr ->]]. now exists i.
  - intros [i Hr]. now rewrite Hr.
Qed.

(** On a simple graph a collapse pass never increases the node count,
    and the graph that mode 0 returns has no node of degree 2 (a cycle
    is collapsed like any other graph).  Mode 0 returns on every
    simple graph that does not consist of a single node. *)
Lemma simplifier_monotone_fixed_point (G : Graph) :
  graph_wf G ->
  (forall G', collapse_pass G = Ok G' -> order G' <= order G)
  /\ (forall G', removeRedundantNodes G 0 = Ok G' ->
                 no_redundant_node G' /\ order G' <= order G)
  /\ (order G <> 1 -> exists G', removeRedundantNodes G 0 = Ok G').
Proof.
  intro Hwf. split; [| split].
  - intros G' H. now apply (collapse_pass_order G G' Hwf).
  - intros G' H. apply removeRedundantNodes_run in H as [i H]. split.
    + now apply (rrn_run_all G G' i Hwf).
    + destruct (Nat.eq_dec (order G) 1) as [E | E].
      * rewrite (rrn_run_single_node G 0 Hwf E) in H; [discriminate | lia].
      * destruct (rrn_run_total G 0 Hwf E) as [G1 [i1 [H1 [_ Hle]]]].
        assert (G1 = G') by congruence. now subst.
  - intro E. destruct (rrn_run_total G 0 Hwf E) as [G' [i [H _]]].
    exists G'. apply removeRedundantNodes_run. now exists i.
Qed.

(** C3 at the graph with the single node [0]: it has no node of
    degree 2, so it is the fixed point mode 0 should return, and the
    first pass raises instead. *)
Theorem mode_all_single_node :
  graph_wf single_node
  /\ no_redundant_node single_node
  /\ removeRedundantNodes single_node 0 = Raise KeyError.
Proof.
  split; [now apply graph_wfb_sound |]. split; [| reflexivity].
  intros n [<- | []]. discriminate.
Qed.

(* ================================================================= *)
(** ** The guard for the last nodes *)

Lemma single_node_well_formed : well_formed single_node.
Proof.
  split; [now apply graph_wfb_sound |].
  repeat constructor.
Qed.

(** C6 at the graph with the single node [0]: the scan marks nothing,
    [len(nodelist) == len(G.nodes()) - 1] holds and [nodelist[1]]
    raises [KeyError], in mode 0 and in mode 1; only mode 2, which
    skips the loop body, returns. *)
Theorem single_node_raises :
  well_formed single_node
  /\ scan (nodes single_node) (single_node, []) = Ok (single_node, [])
  /\ collapse_pass single_node = Raise KeyError
  /\ removeRedundantNodes single_node 0 = Raise KeyError
  /\ removeRedundantNodes single_node 1 = Raise KeyError
  /\ removeRedundantNodes single_node 2 = Ok single_node.
Proof.
  split; [exact single_node_well_formed |].
  repeat split; reflexivity.
Qed.

(** The same holds for every simple graph with exactly one node, and
    only for those. *)
Lemma removeRedundantNodes_raises_iff (G : Graph) (mode : Z) :
  graph_wf G -> mode <> 2%Z ->
  (removeRedundantNodes G mode = Raise KeyError <-> order G = 1).
Proof.
  intros Hwf Hmode. unfold removeRedundantNodes. split.
  - intro H. destruct (Nat.eq_dec (order G) 1) as [E | E]; [assumption |].
    destruct (rrn_run_total G mode Hwf E) as [G' [i [Hr _]]].
    rewrite Hr in H. discriminate.
  - intro E. now rewrite (rrn_run_single_node G mode Hwf E Hmode).
Qed.

(* ================================================================= *)
(** ** Sorting by decreasing size *)

Section SortedDesc.

Variable A : Type.
Variable key : A -> nat.

Lemma insert_desc_not_nil (x : A) (l : list A) : insert_desc key x l <> [].
Proof.
  destruct l as [| y l]; simpl; [discriminate |].
  destruct (key x <? key y); discriminate.
Qed.

Lemma sorted_desc_nil (l : list A) : sorted_desc key l = [] -> l = [].
Proof.
  destruct l as [| x l]; [reflexivity |].
  simpl. intro H. now apply insert_desc_not_nil in H.
Qed.

Lemma insert_desc_perm (x : A) (l : list A) :
  Permutation (insert_desc key x l) (x :: l).
Proof.
  induction l as [| y l IH]; simpl; [apply Permutation_refl |].
  destruct (key x <? key y); [| apply Permutation_refl].
  apply Permutation_trans with (y :: x :: l).
  - now apply perm_skip.
  - apply perm_swap.
Qed.

Lemma sorted_desc_perm (l : list A) : Permutation (sorted_desc key l) l.
Proof.
  induction l as [| x l IH]; simpl; [constructor |].
  apply Permutation_trans with (x :: sorted_desc key l).
  - apply insert_desc_perm.
  - now apply perm_skip.
Qed.


End SortedDesc.

(* ================================================================= *)
(** ** The breadth-first search returns *)

Section Components.

Variable G : Graph.
Hypothesis Hwf : graph_wf G.

Lemma neighbors_incl (v : nat) : incl (neighbors G v) (nodes G).
Proof.
  intros m Hm. now destruct (wf_neighbor G Hwf v m Hm) as [_ [H _]].
Qed.

Lemma bfs_fold_spec (level : list nat) :
  forall seen next : list nat,
    NoDup seen -> incl seen (nodes G) ->
    incl level (nodes G) -> incl next (nodes G) ->
    exists seen' next',
      fold_left (bfs_visit G) level (seen, next) = (seen', next')
      /\ NoDup seen' /\ incl seen' (nodes G) /\ incl next' (nodes G)
      /\ incl seen seen'
      /\ ((seen' = seen /\ next' = next) \/ length seen < length seen').
Proof.
  induction level as [| v level IH]; intros seen next Hnd Hs Hl Hn.
  - exists seen, next. simpl. split; [reflexivity |].
    split; [assumption |]. split; [assumption |]. split; [assumption |].
    split; [apply incl_refl | now left].
  - assert (Hv : In v (nodes G)) by (apply Hl; now left).
    assert (Hl' : incl level (nodes G)).
    { intros m Hm. apply Hl. now right. }
    simpl. destruct (mem v seen) eqn:M.
    + now apply IH.
    + apply mem_not_In in M.
      destruct (IH (seen ++ [v]) (next ++ neighbors G v))
        as [s' [n' [Hf [Hnd' [Hs' [Hn' [Hi Hg]]]]]]].
      * now apply NoDup_snoc.
      * apply incl_app; [assumption |]. intros m [<- | []]. assumption.
      * assumption.
      * apply incl_app; [assumption | apply neighbors_incl].
      * exists s', n'. split; [assumption |]. split; [assumption |].
        split; [assumption |]. split; [assumption |]. split.
        -- intros m Hm. apply Hi. apply in_or_app. now left.
        -- right. destruct Hg as [[-> _] | Hg].
           ++ rewrite length_app. simpl. lia.
           ++ rewrite length_app in Hg. simpl in Hg. lia.
Qed.

Lemma plain_bfs_total (fuel : nat) :
  forall seen level : list nat,
    NoDup seen -> incl seen (nodes G) -> incl level (nodes G) ->
    order G < fuel + length seen ->
    exists c, plain_bfs fuel G seen level = Ok c
              /\ NoDup c /\ incl c (nodes G) /\ incl seen c.
Proof.
  induction fuel as [| fuel IH]; intros seen level Hnd Hs Hl Hfuel.
  - pose proof (NoDup_incl_length Hnd Hs) as Hlen.
    rewrite <- order_nodes in Hlen. simpl in Hfuel. lia.
  - destruct level as [| v level].
    + exists seen. simpl. split; [reflexivity |]. split; [assumption |].
      split; [assumption | apply incl_refl].
    + destruct (bfs_fold_spec (v :: level) seen [] Hnd Hs Hl)
        as [s' [n' [Hf [Hnd' [Hs' [Hn' [Hi Hg]]]]]]].
      { intros m []. }
      cbn [plain_bfs]. rewrite Hf.
      destruct Hg as [[-> ->] | Hg].
      * exists seen. split; [now destruct fuel |]. split; [assumption |].
        split; [assumption | apply incl_refl].
      * destruct (IH s' n' Hnd' Hs' Hn') as [c [Hc [Hndc [Hsc Hic]]]];
          [lia |].
        exists c. split; [assumption |]. split; [assumption |].
        split; [assumption |]. intros m Hm. apply Hic, Hi, Hm.
Qed.

Lemma components_from_total (vs : list nat) :
  forall seen : list nat,
    incl vs (nodes G) ->
    exists cs, components_from G vs seen = Ok cs.
Proof.
  induction vs as [| v vs IH]; intros seen Hvs; [now exists [] |].
  assert (Hvs' : incl vs (nodes G)).
  { intros m Hm. apply Hvs. now right. }
  simpl. destruct (mem v seen).
  - now apply IH.
  - destruct (plain_bfs_total (S (order G)) [] [v]) as [c [Hc _]].
    + constructor.
    + intros m [].
    + intros m [<- | []]. apply Hvs. now left.
    + simpl. lia.
    + unfold component_of. rewrite Hc. cbn [bind].
      destruct (IH (seen ++ c) Hvs') as [cs Hcs]. rewrite Hcs.
      now exists (c :: cs).
Qed.

(** The components of a simple graph are always computed, and there is
    at least one when the graph has a node. *)
Lemma component_subgraphs_total :
  exists comps,
    connected_component_subgraphs G = Ok comps
    /\ (order G <> 0 -> comps <> []).
Proof.
  unfold connected_component_subgraphs, connected_components.
  destruct (components_from_total (nodes G) [] (incl_refl _)) as [cs Hcs].
  rewrite Hcs. cbn [bind]. exists (map (subgraph G) cs).
  split; [reflexivity |]. intro Hne.
  rewrite order_nodes in Hne.
  destruct (nodes G) as [| v vs]; [now elim Hne |].
  simpl in Hcs.
  apply bind_Ok in Hcs as [c [_ Hcs]].
  apply bind_Ok in Hcs as [cs' [_ Hcs]].
  injection Hcs as <-. discriminate.
Qed.

End Components.

(* ================================================================= *)
(** ** The breadth-first search finds the connected component *)

Section Search.

Variable G : Graph.
Variable source : nat.

Lemma bfs_fold_search (level : list nat) :
  forall seen next seen' next' : list nat,
    fold_left (bfs_visit G) level (seen, next) = (seen', next') ->
    search_sound G source seen (level ++ next) ->
    search_closed G seen (level ++ next) ->
    search_sound G source seen' next' /\ search_closed G seen' next'
    /\ incl seen seen' /\ incl level seen'.
Proof.
  induction level as [| v level IH]; intros seen next seen' next' Hf Hs Hc.
  - simpl in Hf. injection Hf as <- <-.
    split; [exact Hs |]. split; [exact Hc |].
    split; [apply incl_refl | intros u []].
  - simpl in Hf. destruct (mem v seen) eqn:M.
    + apply mem_In in M.
      destruct (IH seen next seen' next' Hf) as [Hs' [Hc' [Hi Hl]]].
      * intros u Hu. apply Hs. apply in_app_or in Hu as [Hu | Hu];
          apply in_or_app; [now left | right; now right].
      * intros u w Hu Hw. specialize (Hc u w Hu Hw).
        apply in_app_or in Hc as [Hc | [<- | Hc]]; apply in_or_app;
          [now left | now left | now right].
      * split; [assumption |]. split; [assumption |].
        split; [assumption |]. intros u [<- | Hu]; auto.
    + destruct (IH (seen ++ [v]) (next ++ neighbors G v) seen' next' Hf)
        as [Hs' [Hc' [Hi Hl]]].
      * intros u Hu.
        assert (Hv : connected G source v).
        { apply Hs. apply in_or_app. right. now left. }
        rewrite <- app_assoc in Hu. simpl in Hu.
        apply in_app_or in Hu as [Hu | [<- | Hu]].
        -- apply Hs. apply in_or_app. now left.
        -- exact Hv.
        -- rewrite app_assoc in Hu. apply in_app_or in Hu as [Hu | Hu].
           ++ apply Hs. apply in_or_app. right. now right.
           ++ now apply (connected_next G source v u).
      * intros u w Hu Hw. rewrite <- app_assoc. simpl.
        apply in_app_or in Hu as [Hu | [<- | []]].
        -- specialize (Hc u w Hu Hw).
           apply in_app_or in Hc as [Hc | [<- | Hc]]; apply in_or_app.
           ++ now left.
           ++ right. now left.
           ++ right. right. rewrite app_assoc. apply in_or_app. now left.
        -- apply in_or_app. right. right. rewrite app_assoc.
           apply in_or_app. now right.
      * split; [assumption |]. split; [assumption |]. split.
        -- intros u Hu. apply Hi. apply in_or_app. now left.
        -- intros u [<- | Hu]; [| now apply Hl].
           apply Hi. apply in_or_app. right. now left.
Qed.

Lemma plain_bfs_search (fuel : nat) :
  forall seen level c : list nat,
    plain_bfs fuel G seen level = Ok c ->
    search_sound G source seen level -> search_closed G seen level ->
    search_sound G source c [] /\ search_closed G c [] /\ incl (seen ++ level) c.
Proof.
  induction fuel as [| fuel IH]; intros seen level c H Hs Hc.
  - destruct level; [| discriminate]. injection H as <-.
    split; [exact Hs |]. split; [exact Hc |].
    rewrite app_nil_r. apply incl_refl.
  - destruct level as [| v level].
    + injection H as <-.
      split; [exact Hs |]. split; [exact Hc |].
    rewrite app_nil_r. apply incl_refl.
    + cbn [plain_bfs] in H.
      destruct (fold_left (bfs_visit G) (v :: level) (seen, []))
        as [seen' next'] eqn:Hf.
      destruct (bfs_fold_search (v :: level) seen [] seen' next' Hf)
        as [Hs' [Hc' [Hi Hl]]].
      * now rewrite app_nil_r.
      * now rewrite app_nil_r.
      * destruct (IH seen' next' c H Hs' Hc') as [Hsc [Hcc Hic]].
        split; [assumption |]. split; [assumption |].
        intros u Hu. apply Hic. apply in_or_app. left.
        apply in_app_or in Hu as [Hu | Hu]; auto.
Qed.

(** The component that the search returns for [source] is the set of
    nodes connected to it. *)
Lemma component_of_connected (c : list nat) :
  component_of G source = Ok c ->
  forall u, In u c <-> connected G source u.
Proof.
  intro H. unfold component_of in H.
  destruct (plain_bfs_search _ [] [source] c H) as [Hs [Hc Hi]].
  - intros u [<- | []]. constructor.
  - intros u w [].
  - intro u. split.
    + intro Hu. apply Hs. now rewrite app_nil_r.
    + intro Hu. induction Hu as [| u w _ IHu Hw].
      * apply Hi. now left.
      * specialize (Hc u w IHu Hw). now rewrite app_nil_r in Hc.
Qed.

End Search.

(** Every component in the list is the connectivity class of one of
    its nodes. *)
Lemma components_from_connected (G : Graph) (vs : list nat) :
  forall (seen : list nat) (cs : list (list nat)),
    components_from G vs seen = Ok cs ->
    forall c, In c cs ->
              exists v, In v vs /\ forall u, In u c <-> connected G v u.
Proof.
  induction vs as [| v vs IH]; intros seen cs H c Hc; simpl in H.
  - injection H as <-. destruct Hc.
  - destruct (mem v seen).
    + destruct (IH seen cs H c Hc) as [v' [Hv' Hconn]].
      exists v'. split; [now right | assumption].
    + apply bind_Ok in H as [c0 [Hc0 H]].
      apply bind_Ok in H as [cs' [Hcs' H]]. injection H as <-.
      destruct Hc as [<- | Hc].
      * exists v. split; [now left |].
        now apply component_of_connected.
      * destruct (IH (seen ++ c0) cs' Hcs' c Hc) as [v' [Hv' Hconn]].
        exists v'. split; [now right | assumption].
Qed.

(* ================================================================= *)
(** ** Persistence of the largest component *)

Lemma largest_component_sorted (G : Graph) (comps : list Graph) :
  connected_component_subgraphs G = Ok comps ->
  largest_component G
  = match sorted_desc order comps with
    | [] => Raise IndexError
    | g :: _ => Ok g
    end.
Proof.
  intro H. unfold largest_component. now rewrite H.
Qed.

Lemma components_of_empty (G : Graph) :
  order G = 0 -> connected_component_subgraphs G = Ok [].
Proof.
  intro H. unfold connected_component_subgraphs, connected_components.
  now rewrite (order_zero_nodes G H).
Qed.

Lemma largest_component_returns (G : Graph) :
  graph_wf G -> order G <> 0 -> exists g, largest_component G = Ok g.
Proof.
  intros Hwf Hne.
  destruct (component_subgraphs_total G Hwf) as [comps [Hc Hcomps]].
  rewrite (largest_component_sorted G comps Hc).
  destruct (sorted_desc order comps) as [| g rest] eqn:E.
  - apply sorted_desc_nil in E. now elim (Hcomps Hne).
  - now exists g.
Qed.


Lemma component_subgraph_connected (G : Graph) (comps : list Graph) (g : Graph) :
  connected_component_subgraphs G = Ok comps -> In g comps ->
  exists c v, g = subgraph G c /\ In v (nodes G)
              /\ forall u, In u c <-> connected G v u.
Proof.
  intros H Hg. unfold connected_component_subgraphs in H.
  apply bind_Ok in H as [cs [Hcs H]]. injection H as <-.
  apply in_map_iff in Hg as [c [<- Hc]].
  destruct (components_from_connected G (nodes G) [] cs Hcs c Hc)
    as [v [Hv Hconn]].
  now exists c, v.
Qed.

(** C10. On a graph without nodes the component list is empty and
    [Gcc[0]] raises [IndexError] before anything is drawn or written;
    on a simple graph with a node the selection returns.  The empty
    graph reaches [drawAndSave] in every redundancy mode. *)
Theorem drawAndSave_empty_graph (drawGraph : Graph -> outcome unit)
        (G : Graph) (plot : bool) (fmt : GraphFormat) :
  order G = 0 ->
  connected_component_subgraphs G = Ok []
  /\ largest_component G = Raise IndexError
  /\ drawAndSave drawGraph G plot fmt = ([], Raise IndexError)
  /\ (forall H : Graph,
        graph_wf H -> order H <> 0 -> exists g, largest_component H = Ok g)
  /\ snd (cleanAndSaveGraph drawGraph empty_graph 2 plot fmt) = Raise IndexError
  /\ snd (cleanAndSaveGraph drawGraph empty_graph 1 plot fmt) = Raise IndexError
  /\ snd (cleanAndSaveGraph drawGraph empty_graph 0 plot fmt) = Raise IndexError.
Proof.
  intro H0. pose proof (components_of_empty G H0) as Hc.
  pose proof (largest_component_sorted G [] Hc) as Hl. simpl in Hl.
  split; [assumption |]. split; [assumption |]. split.
  - unfold drawAndSave, tbind, lift. now rewrite Hl.
  - split; [exact largest_component_returns |].
    repeat split; reflexivity.
Qed.

(* ================================================================= *)
(** ** The per-slice driver *)

Section VectorizeFacts.

Variable ext : Collaborators.
Variable vect_params : VectParams.

(** C5. For a slice whose pixels sum to zero the loop body writes the
    empty graph and nothing else: no stage is invoked, and the loop
    goes on with the next slice. *)
Theorem empty_slice_short_circuit (sli : Slice) (rest : list Slice) :
  pixel_sum sli = 0%Z ->
  vectorize_slice ext vect_params sli = ([WriteGraph empty_graph], Ok tt)
  /\ order empty_graph = 0
  /\ edge_data empty_graph = []
  /\ (forall s, ~ In (Invoke s) (fst (vectorize_slice ext vect_params sli)))
  /\ vectorize_slices ext vect_params (sli :: rest)
     = (WriteGraph empty_graph :: fst (vectorize_slices ext vect_params rest), snd (vectorize_slices ext vect_params rest)).
Proof.
  intro Hsum.
  assert (Hs : vectorize_slice ext vect_params sli = ([WriteGraph empty_graph], Ok tt)).
  { unfold vectorize_slice, np_sum. now rewrite Hsum. }
  split; [exact Hs |]. split; [reflexivity |]. split; [reflexivity |]. split.
  - intros s Hin. rewrite Hs in Hin. simpl in Hin.
    destruct Hin as [Hin | []]. discriminate.
  - cbn [vectorize_slices]. unfold tbind. now rewrite Hs.
Qed.

(** C9. A slice that passes the empty-slice test but whose contours
    all have fewer than 4 points leaves no contour after thresholding;
    [longuest_index] is never assigned and [createContours] raises
    [UnboundLocalError], so the slice ends without a graph. *)
Theorem short_contours_no_graph (sli : Slice) :
  (0 < np_sum sli)%Z ->
  Forall (fun c => length c < 4) (getContours ext sli) ->
  thresholdContours (flattenContours (getContours ext sli)) 3 = []
  /\ snd (longest_search
            (thresholdContours (flattenContours (getContours ext sli)) 3)) = None
  /\ createContours (getContours ext) sli = Raise UnboundLocalError
  /\ (smoothing vect_params = false ->
      forall dm, distance_transform_edt ext sli = Ok dm ->
                 vectorize_slice ext vect_params sli
                 = ([Invoke DistanceTransform; Invoke ContourExtraction],
                    Raise UnboundLocalError)).
Proof.
  intros Hsum Hshort.
  pose proof (threshold_all_short _ Hshort) as Ht.
  pose proof (createContours_unbound _ (getContours ext) sli Hshort) as Hc.
  split; [assumption |]. split; [now rewrite Ht |]. split; [assumption |].
  intros Hsm dm Hdm. unfold vectorize_slice.
  destruct (Z.leb_spec (np_sum sli) 0) as [Hle | _]; [lia |].
  rewrite Hsm. unfold tbind, tret, invoke. cbn [fst snd app].
  rewrite Hdm. cbn [fst snd app]. now rewrite Hc.
Qed.

End VectorizeFacts.

(* ================================================================= *)
(** ** Instances *)

Lemma collapse_conductivity_witness :
  graph_wf quarter_path
  /\ neighbors quarter_path 1 = [0; 2]
  /\ get_edge quarter_path 1 0 = Some (attrs (1 # 4) 1)
  /\ get_edge quarter_path 1 2 = Some (attrs (1 # 4) 1)
  /\ exists G' nodelist',
      visit (quarter_path, []) 1 = Ok (G', nodelist')
      /\ get_edge G' 0 2
         = Some (attrs (if Qeq_bool ((1 # 4) + (1 # 4)) 0 then 1
                        else (1 # 4) + (1 # 4))
                       ((1 * (1 # 4) + 1 * (1 # 4))
                        / (if Qeq_bool ((1 # 4) + (1 # 4)) 0 then 1
                           else (1 # 4) + (1 # 4))))
      /\ (Qeq_bool ((1 # 4) + (1 # 4)) 0 = false ->
          get_edge G' 0 2
          = Some (attrs ((1 # 4) + (1 # 4))
                        ((1 * (1 # 4) + 1 * (1 # 4)) / ((1 # 4) + (1 # 4))))).
Proof.
  assert (Hwf : graph_wf quarter_path) by (apply graph_wfb_sound; reflexivity).
  split; [exact Hwf |]. split; [reflexivity |]. split; [reflexivity |].
  split; [reflexivity |].
  apply (collapse_conductivity quarter_path [] 1 0 2 (1 # 4) 1 (1 # 4) 1 Hwf);
    reflexivity.
Defined.

Lemma path_collapse_witness :
  simple_path quarter_path 0 1 2 (attrs (1 # 4) 1) (attrs (1 # 4) 1)
  /\ exists G',
      collapse_pass quarter_path = Ok G'
      /\ Permutation (nodes G') [0; 2]
      /\ length (edge_data G') = 1
      /\ get_edge G' 0 2
         = Some (attrs (if Qeq_bool ((1 # 4) + (1 # 4)) 0 then 1
                        else (1 # 4) + (1 # 4))
                       ((1 * (1 # 4) + 1 * (1 # 4))
                        / (if Qeq_bool ((1 # 4) + (1 # 4)) 0 then 1
                           else (1 # 4) + (1 # 4))))
      /\ (Qeq_bool ((1 # 4) + (1 # 4)) 0 = false ->
          get_edge G' 0 2
          = Some (attrs ((1 # 4) + (1 # 4))
                        ((1 * (1 # 4) + 1 * (1 # 4)) / ((1 # 4) + (1 # 4))))).
Proof.
  assert (Hpath : simple_path quarter_path 0 1 2
                              (attrs (1 # 4) 1) (attrs (1 # 4) 1)).
  { split; [discriminate |]. split; [discriminate |]. split; [discriminate |].
    split; [apply Permutation_refl |].
    exists (0, 1, attrs (1 # 4) 1), (1, 2, attrs (1 # 4) 1).
    split; [reflexivity |]. left. split; left; reflexivity. }
  split; [exact Hpath |].
  exact (path_collapse quarter_path 0 1 2 (1 # 4) 1 (1 # 4) 1 Hpath).
Defined.

Lemma half_mode_passes_witness :
  graph_wf (unit_path 8)
  /\ rrn_run (unit_path 8) 1
     = Ok ({| node_data := plain_nodes [0; 8];
              edge_data := [(0, 8, attrs 8 (2048 # 2048))] |}, 3)
  /\ (order (unit_path 8) <> 1 ->
      exists G' i, rrn_run (unit_path 8) 1 = Ok (G', i))
  /\ (forall G' i,
        rrn_run (unit_path 8) 1 = Ok (G', i) ->
        iter_pass i (unit_path 8) = Ok G'
        /\ (i = 3
            \/ (1 <= i < 3
                /\ exists Gp, iter_pass (i - 1) (unit_path 8) = Ok Gp
                              /\ collapse_pass Gp = Ok G'
                              /\ order G' = order Gp)))
  /\ (order (unit_path 8) = 1 ->
      rrn_run (unit_path 8) 1 = Raise KeyError
      /\ scan (nodes (unit_path 8)) (unit_path 8, []) = Ok (unit_path 8, [])).
Proof.
  assert (Hwf : graph_wf (unit_path 8)) by (apply graph_wfb_sound; reflexivity).
  split; [exact Hwf |]. split; [vm_compute; reflexivity |].
  exact (half_mode_passes (unit_path 8) Hwf).
Defined.

Lemma empty_slice_short_circuit_witness :
  pixel_sum [[0; 0]; [0; 0]]%Z = 0%Z
  /\ vectorize_slice (stub_collaborators []) default_params [[0; 0]; [0; 0]]%Z
     = ([WriteGraph empty_graph], Ok tt)
  /\ order empty_graph = 0
  /\ edge_data empty_graph = []
  /\ (forall s,
        ~ In (Invoke s)
             (fst (vectorize_slice (stub_collaborators []) default_params
                                   [[0; 0]; [0; 0]]%Z)))
  /\ vectorize_slices (stub_collaborators []) default_params
                      ([[0; 0]; [0; 0]]%Z :: [])
     = (WriteGraph empty_graph
          :: fst (vectorize_slices (stub_collaborators []) default_params []),
        snd (vectorize_slices (stub_collaborators []) default_params [])).
Proof.
  split; [reflexivity |].
  apply (empty_slice_short_circuit (stub_collaborators []) default_params
           [[0; 0]; [0; 0]]%Z []).
  reflexivity.
Defined.

Lemma short_contours_no_graph_witness :
  (0 < np_sum [[0; 255]; [0; 0]])%Z
  /\ Forall (fun c => length c < 4)
            (getContours (stub_collaborators [[(1, 0)]%Z]) [[0; 255]; [0; 0]]%Z)
  /\ thresholdContours
       (flattenContours
          (getContours (stub_collaborators [[(1, 0)]%Z]) [[0; 255]; [0; 0]]%Z))
       3 = []
  /\ snd (longest_search
            (thresholdContours
               (flattenContours
                  (getContours (stub_collaborators [[(1, 0)]%Z])
                               [[0; 255]; [0; 0]]%Z)) 3)) = None
  /\ createContours (getContours (stub_collaborators [[(1, 0)]%Z]))
                    [[0; 255]; [0; 0]]%Z
     = Raise UnboundLocalError
  /\ (smoothing default_params = false ->
      forall dm,
        distance_transform_edt (stub_collaborators [[(1, 0)]%Z])
                               [[0; 255]; [0; 0]]%Z = Ok dm ->
        vectorize_slice (stub_collaborators [[(1, 0)]%Z]) default_params
                        [[0; 255]; [0; 0]]%Z
        = ([Invoke DistanceTransform; Invoke ContourExtraction],
           Raise UnboundLocalError)).
Proof.
  assert (Hsum : (0 < np_sum [[0; 255]; [0; 0]])%Z) by reflexivity.
  assert (Hshort : Forall (fun c => length c < 4)
                          (getContours (stub_collaborators [[(1, 0)]%Z])
                                       [[0; 255]; [0; 0]]%Z)).
  { simpl. constructor; [simpl; lia | constructor]. }
  split; [exact Hsum |]. split; [exact Hshort |].
  exact (short_contours_no_graph (stub_collaborators [[(1, 0)]%Z])
           default_params [[0; 255]; [0; 0]]%Z Hsum Hshort).
Defined.

Lemma drawAndSave_empty_graph_witness :
  order empty_graph = 0
  /\ connected_component_subgraphs empty_graph = Ok []
  /\ largest_component empty_graph = Raise IndexError
  /\ drawAndSave (fun _ => Ok tt) empty_graph false gpickle
     = ([], Raise IndexError)
  /\ (forall H : Graph,
        graph_wf H -> order H <> 0 -> exists g, largest_component H = Ok g)
  /\ snd (cleanAndSaveGraph (fun _ => Ok tt) empty_graph 2 false gpickle)
     = Raise IndexError
  /\ snd (cleanAndSaveGraph (fun _ => Ok tt) empty_graph 1 false gpickle)
     = Raise IndexError
  /\ snd (cleanAndSaveGraph (fun _ => Ok tt) empty_graph 0 false gpickle)
     = Raise IndexError.
Proof.
  split; [reflexivity |].
  apply (drawAndSave_empty_graph (fun _ => Ok tt) empty_graph false gpickle).
  reflexivity.
Defined.

(* ================================================================= *)
(** ** Adjacency *)

Lemma neighbors_has_edge (G : Graph) (n m : nat) :
  In m (neighbors G n) <-> has_edge G n m = true.
Proof.
  unfold has_edge. rewrite in_neighbors, existsb_exists. split.
  - intros [e [Hin [Hi Ho]]]. exists e. split; [assumption |].
    subst m. now apply incident_joins.
  - intros [e [Hin Hj]]. exists e. split; [assumption |].
    destruct e as [[a b] x]. simpl in *.
    apply orb_true_iff in Hj.
    rewrite !andb_true_iff, !Nat.eqb_eq in Hj.
    destruct Hj as [[-> ->] | [-> ->]].
    + rewrite Nat.eqb_refl. auto.
    + rewrite Nat.eqb_refl, orb_true_r.
      destruct (m =? n) eqn:E; [apply Nat.eqb_eq in E |]; auto.
Qed.

Lemma has_edge_sym (G : Graph) (u v : nat) : has_edge G u v = has_edge G v u.
Proof.
  unfold has_edge. induction (edge_data G) as [| e es IH]; [reflexivity |].
  simpl. now rewrite IH, joins_sym.
Qed.

Lemma joins_same_ends (u v p q : nat) (e : Edge) :
  joins u v e = true -> joins p q e = joins p q (u, v, snd e).
Proof.
  destruct e as [[a b] x]. simpl.
  rewrite orb_true_iff, !andb_true_iff, !Nat.eqb_eq.
  intros [[-> ->] | [-> ->]]; [reflexivity |].
  apply eq_true_iff_eq.
  rewrite !orb_true_iff, !andb_true_iff, !Nat.eqb_eq. tauto.
Qed.

Lemma existsb_put_edge (u v p q : nat) (a : EdgeAttr) (es : list Edge) :
  existsb (joins p q) (put_edge u v a es)
  = existsb (joins p q) es || joins p q (u, v, a).
Proof.
  induction es as [| e es IH]; simpl put_edge.
  - simpl. now rewrite orb_false_r.
  - destruct (joins u v e) eqn:E.
    + change (existsb (joins p q) ((fst e, a) :: es))
        with (joins p q (fst e, a) || existsb (joins p q) es).
      change (existsb (joins p q) (e :: es))
        with (joins p q e || existsb (joins p q) es).
      rewrite joins_fst, (joins_same_ends u v p q e E).
      change (joins p q (u, v, snd e)) with (joins p q (u, v, a)).
      destruct (joins p q (u, v, a)); simpl; [reflexivity |].
      now rewrite orb_false_r.
    + change (existsb (joins p q) (e :: put_edge u v a es))
        with (joins p q e || existsb (joins p q) (put_edge u v a es)).
      rewrite IH. simpl existsb. now rewrite orb_assoc.
Qed.

Lemma has_edge_add_edge (G : Graph) (u v p q : nat) (w c : Q) :
  has_edge (add_edge G u v w c) p q
  = has_edge G p q || joins p q (u, v, attrs w c).
Proof.
  unfold has_edge, add_edge. simpl edge_data.
  rewrite existsb_put_edge. f_equal.
  unfold add_node.
  destruct (mem u (nodes G)); simpl;
    match goal with |- context [mem v ?l] => destruct (mem v l) end;
    reflexivity.
Qed.

(** Overwriting an edge leaves every neighbour list as it is. *)
Lemma put_edge_present (u v : nat) (a : EdgeAttr) (es : list Edge) :
  existsb (joins u v) es = true -> map fst (put_edge u v a es) = map fst es.
Proof.
  induction es as [| e es IH]; simpl; [discriminate |].
  destruct (joins u v e); simpl; [reflexivity |].
  intro H. now rewrite IH.
Qed.

Lemma neighbors_ends (es es' : list Edge) (n : nat) :
  map fst es = map fst es' ->
  map (other_end n) (filter (incident n) es)
  = map (other_end n) (filter (incident n) es').
Proof.
  revert es'. induction es as [| e es IH]; intros [| e' es'] H;
    try discriminate; [reflexivity |].
  simpl in H. injection H as He Hes.
  destruct e as [[a b] x], e' as [[a' b'] x']. simpl in He.
  injection He as -> ->. simpl.
  destruct ((a' =? n) || (b' =? n)); simpl; [f_equal |]; now apply IH.
Qed.

Lemma neighbors_add_edge_present (G : Graph) (u v n : nat) (w c : Q) :
  In u (nodes G) -> In v (nodes G) -> has_edge G u v = true ->
  neighbors (add_edge G u v w c) n = neighbors G n.
Proof.
  intros Hu Hv He. rewrite (add_edge_existing G u v w c Hu Hv).
  unfold neighbors. simpl edge_data. apply neighbors_ends.
  now apply put_edge_present.
Qed.

(** A new edge changes the neighbours of its two ends only. *)
Lemma put_edge_elsewhere (u v n : nat) (a : EdgeAttr) (es : list Edge) :
  n <> u -> n <> v ->
  map (other_end n) (filter (incident n) (put_edge u v a es))
  = map (other_end n) (filter (incident n) es).
Proof.
  intros Hu Hv. induction es as [| e es IH]; simpl put_edge.
  - simpl. destruct (u =? n) eqn:E1; [apply Nat.eqb_eq in E1; congruence |].
    destruct (v =? n) eqn:E2; [apply Nat.eqb_eq in E2; congruence |].
    reflexivity.
  - destruct (joins u v e) eqn:E.
    + destruct e as [[x y] z]. simpl.
      now destruct ((x =? n) || (y =? n)).
    + simpl. destruct (incident n e); simpl; now rewrite IH.
Qed.

Lemma neighbors_add_edge_elsewhere (G : Graph) (u v n : nat) (w c : Q) :
  In u (nodes G) -> In v (nodes G) -> n <> u -> n <> v ->
  neighbors (add_edge G u v w c) n = neighbors G n.
Proof.
  intros Hu Hv Hnu Hnv. rewrite (add_edge_existing G u v w c Hu Hv).
  unfold neighbors. simpl edge_data. now apply put_edge_elsewhere.
Qed.

Lemma joins_incident_ends (p q n : nat) (e : Edge) :
  joins p q e = true -> incident n e = (p =? n) || (q =? n).
Proof.
  destruct e as [[a b] x]. simpl.
  rewrite orb_true_iff, !andb_true_iff, !Nat.eqb_eq.
  intros [[-> ->] | [-> ->]]; [reflexivity | apply orb_comm].
Qed.

Lemma existsb_joins_removed (p q n : nat) (es : list Edge) :
  existsb (joins p q) (filter (fun e => negb (incident n e)) es)
  = existsb (joins p q) es && negb ((p =? n) || (q =? n)).
Proof.
  induction es as [| e es IH]; [reflexivity |].
  simpl. destruct (joins p q e) eqn:Ej.
  - rewrite (joins_incident_ends p q n e Ej).
    destruct ((p =? n) || (q =? n)); simpl.
    + rewrite IH. apply andb_false_r.
    + now rewrite Ej.
  - destruct (negb (incident n e)); simpl; [rewrite Ej |]; exact IH.
Qed.

Lemma has_edge_remove_node (G G' : Graph) (n p q : nat) :
  remove_node G n = Ok G' ->
  has_edge G' p q = has_edge G p q && negb ((p =? n) || (q =? n)).
Proof.
  unfold remove_node. destruct (mem n (nodes G)); [| discriminate].
  intro H. injection H as <-. apply existsb_joins_removed.
Qed.

Lemma has_edge_remove_nodes (l : list nat) :
  forall (G G' : Graph) (p q : nat),
    remove_nodes G l = Ok G' ->
    has_edge G' p q = has_edge G p q && negb (mem p l) && negb (mem q l).
Proof.
  induction l as [| n l IH]; intros G G' p q H; simpl in H.
  - injection H as <-. simpl. now rewrite !andb_true_r.
  - apply bind_Ok in H as [G1 [H1 H2]].
    rewrite (IH G1 G' p q H2), (has_edge_remove_node G G1 n p q H1).
    unfold mem. simpl existsb. fold (mem p l). fold (mem q l).
    destruct (has_edge G p q), (p =? n), (q =? n), (mem p l), (mem q l);
      reflexivity.
Qed.

(** Connectivity is transitive and, the graph being undirected,
    symmetric. *)
Lemma connected_trans (G : Graph) (u v w : nat) :
  connected G u v -> connected G v w -> connected G u w.
Proof.
  intros Huv Hvw. induction Hvw as [| p q Hvp IH Hq]; [assumption |].
  now apply (connected_next G u p q).
Qed.

Lemma connected_edge (G : Graph) (u v : nat) :
  has_edge G u v = true -> connected G u v.
Proof.
  intro H. apply (connected_next G u u v); [constructor |].
  now apply neighbors_has_edge.
Qed.

Lemma connected_sym (G : Graph) (u v : nat) :
  connected G u v -> connected G v u.
Proof.
  intro H. induction H as [| p q Hup IH Hq]; [constructor |].
  apply (connected_trans G q p u); [| assumption].
  apply connected_edge. rewrite has_edge_sym.
  now apply neighbors_has_edge.
Qed.

Lemma has_edge_irrefl (G : Graph) (u v : nat) :
  graph_wf G -> has_edge G u v = true -> u <> v /\ In u (nodes G) /\ In v (nodes G).
Proof.
  intros Hwf H.
  assert (Hv : In v (neighbors G u)) by now apply neighbors_has_edge.
  assert (Hu : In u (neighbors G v)).
  { apply neighbors_has_edge. now rewrite has_edge_sym. }
  destruct (wf_neighbor G Hwf u v Hv) as [Hne [Hvn _]].
  destruct (wf_neighbor G Hwf v u Hu) as [_ [Hun _]].
  split; [congruence |]. split; assumption.
Qed.

Lemma in_pair (a x y : nat) : In a [x; y] -> a = x \/ a = y.
Proof.
  intros [<- | [<- | []]]; auto.
Qed.

(* ================================================================= *)
(** ** What a collapse pass keeps *)

Section CollapseInvariant.

Variable G : Graph.
Hypothesis HwfG : graph_wf G.

Lemma collapse_inv_init : collapse_inv G G [].
Proof.
  constructor; try assumption; try reflexivity; auto.
  - intros p q [].
  - intros p [].
  - intros p q. apply connected_edge.
Qed.

(** A marked node next to [a] has a neighbour in common with [a]. *)
Lemma marked_common_neighbor (Gc : Graph) (nl : list nat) (a p : nat) :
  collapse_inv G Gc nl -> In p nl -> has_edge Gc a p = true ->
  exists o, has_edge Gc a o = true /\ has_edge Gc p o = true.
Proof.
  intros Hinv Hp Hap.
  destruct (ci_marked G Gc nl Hinv p Hp) as [x [y [Hn [Hxy _]]]].
  assert (Ha : In a (neighbors Gc p)).
  { apply neighbors_has_edge. now rewrite has_edge_sym. }
  assert (Hx : has_edge Gc p x = true).
  { apply neighbors_has_edge. rewrite Hn. now left. }
  assert (Hy : has_edge Gc p y = true).
  { apply neighbors_has_edge. rewrite Hn. right. now left. }
  rewrite Hn in Ha. apply in_pair in Ha as [-> | ->].
  - exists y. now split.
  - exists x. split; [now rewrite has_edge_sym | assumption].
Qed.

Lemma marked_pair_joined (Gc : Graph) (nl : list nat) (a n1 n2 p : nat) :
  collapse_inv G Gc nl -> neighbors Gc a = [n1; n2] -> In p nl ->
  p = n1 \/ p = n2 -> has_edge Gc n1 n2 = true.
Proof.
  intros Hinv Hn Hp Hcase.
  assert (Hap : has_edge Gc a p = true).
  { apply neighbors_has_edge. rewrite Hn.
    destruct Hcase as [-> | ->]; [now left | right; now left]. }
  destruct (marked_common_neighbor Gc nl a p Hinv Hp Hap) as [o [Hao Hpo]].
  apply neighbors_has_edge in Hao. rewrite Hn in Hao.
  destruct (has_edge_irrefl Gc p o (ci_wf G Gc nl Hinv) Hpo) as [Hne _].
  apply in_pair in Hao.
  destruct Hcase as [-> | ->], Hao as [-> | ->];
    try congruence. now rewrite has_edge_sym.
Qed.

Lemma visit_keeps_inv (Gc : Graph) (nl : list nat) (a : nat) :
  collapse_inv G Gc nl -> ~ In a nl ->
  exists Gc' nl',
    visit (Gc, nl) a = Ok (Gc', nl') /\ collapse_inv G Gc' nl'
    /\ (nl' = nl \/ nl' = nl ++ [a]).
Proof.
  intros Hinv Ha.
  pose proof (ci_wf G Gc nl Hinv) as Hwf.
  destruct (visit_wf Gc nl a Hwf) as [Gc' [nl' [Hv [Hwf' [Hnd _]]]]].
  exists Gc', nl'. split; [exact Hv |].
  destruct (visit_inv Gc nl a Gc' nl' Hv)
    as [[-> [-> _]] | [n1 [n2 [w1 [w2 [c1 [c2 H]]]]]]].
  { split; [assumption | now left]. }
  destruct H as [Hn [_ [_ [_ [_ [HG [_ Hnl]]]]]]].
  destruct (wf_two_neighbors Gc Hwf a n1 n2 Hn)
    as [H12 [H1a [H2a [Hin1 Hin2]]]].
  assert (Ha1 : has_edge Gc a n1 = true).
  { apply neighbors_has_edge. rewrite Hn. now left. }
  assert (Ha2 : has_edge Gc a n2 = true).
  { apply neighbors_has_edge. rewrite Hn. right. now left. }
  assert (Hedge : forall p q,
             has_edge Gc' p q
             = has_edge Gc p q
               || joins p q (n1, n2, attrs (guarded_length w1 w2)
                                            (merged_radius c1 w1 c2 w2))).
  { intros p q. rewrite HG. apply has_edge_add_edge. }
  assert (Hgrow : forall p q, has_edge Gc p q = true -> has_edge Gc' p q = true).
  { intros p q H. rewrite Hedge, H. reflexivity. }
  assert (Hjoin : forall p q x,
             joins p q (n1, n2, x) = true ->
             (p = n1 /\ q = n2) \/ (p = n2 /\ q = n1)).
  { intros p q x H. simpl in H.
    rewrite orb_true_iff, !andb_true_iff, !Nat.eqb_eq in H.
    destruct H as [[-> ->] | [-> ->]]; auto. }
  assert (Hnl' : (nl' = nl /\ (In n1 nl \/ In n2 nl))
                 \/ (nl' = nl ++ [a] /\ ~ In n1 nl /\ ~ In n2 nl)).
  { rewrite Hnl. unfold dict_update.
    destruct (mem n1 nl) eqn:E1; simpl.
    - left. split; [reflexivity |]. left. now apply mem_In.
    - destruct (mem n2 nl) eqn:E2; simpl.
      + left. split; [reflexivity |]. right. now apply mem_In.
      + right. apply mem_not_In in E1, E2.
        assert (Ea : mem a nl = false) by now apply mem_not_In.
        rewrite Ea. auto. }
  assert (Hsub : forall p, In p nl -> In p nl').
  { intros p Hp. destruct Hnl' as [[-> _] | [-> _]]; [assumption |].
    apply in_or_app. now left. }
  split; [| destruct Hnl' as [[-> _] | [-> _]]; auto].
  constructor.
  - exact Hwf'.
  - rewrite Hnd. apply (ci_nodes G Gc nl Hinv).
  - intros p q H. apply Hgrow. now apply (ci_grow G Gc nl Hinv).
  - intros p q H. rewrite Hedge in H. apply orb_true_iff in H as [H | H].
    + destruct (ci_new G Gc nl Hinv p q H) as [Hold | [v [Hvp [Hvq Hm]]]];
        [now left | right].
      exists v. split; [now apply Hgrow |]. split; [now apply Hgrow |].
      destruct Hm as [Hm | [Hm | Hm]]; auto.
    + right. exists a.
      assert (Hm : In a nl' \/ In n1 nl' \/ In n2 nl').
      { destruct Hnl' as [[-> [H1 | H2]] | [-> _]]; auto.
        left. apply in_or_app. right. now left. }
      destruct (Hjoin p q _ H) as [[-> ->] | [-> ->]].
      * split; [now apply Hgrow |]. split; [now apply Hgrow | exact Hm].
      * split; [now apply Hgrow |]. split; [now apply Hgrow |].
        destruct Hm as [Hm | [Hm | Hm]]; auto.
  - intros p q Hp Hq. rewrite Hedge.
    destruct Hnl' as [[-> Hsome] | [-> [Hn1 Hn2]]].
    + rewrite (ci_indep G Gc nl Hinv p q Hp Hq). cbn [orb].
      destruct (joins p q (n1, n2, attrs (guarded_length w1 w2)
                                         (merged_radius c1 w1 c2 w2))) eqn:Ej;
        [| reflexivity].
      exfalso.
      assert (H12' : has_edge Gc n1 n2 = true).
      { apply (marked_pair_joined Gc nl a n1 n2 p Hinv Hn Hp).
        destruct (Hjoin p q _ Ej) as [[-> _] | [-> _]]; auto. }
      destruct (Hjoin p q _ Ej) as [[-> ->] | [-> ->]].
      * rewrite (ci_indep G Gc nl Hinv n1 n2 Hp Hq) in H12'. discriminate.
      * rewrite has_edge_sym in H12'.
        rewrite (ci_indep G Gc nl Hinv n2 n1 Hp Hq) in H12'. discriminate.
    + assert (Hnoj : joins p q (n1, n2, attrs (guarded_length w1 w2)
                                             (merged_radius c1 w1 c2 w2))
                     = false).
      { destruct (joins p q _) eqn:Ej; [| reflexivity]. exfalso.
        apply in_app_or in Hp as [Hp | [Hp | []]];
          destruct (Hjoin p q _ Ej) as [[E1 E2] | [E1 E2]];
          subst; try contradiction; congruence. }
      rewrite Hnoj, orb_false_r.
      assert (Hnear : forall z, In z (nl ++ [a]) -> has_edge Gc a z = false).
      { intros z Hz. destruct (has_edge Gc a z) eqn:E; [| reflexivity].
        exfalso. apply neighbors_has_edge in E. rewrite Hn in E.
        apply in_pair in E.
        apply in_app_or in Hz as [Hz | [<- | []]];
          destruct E as [-> | ->]; try contradiction; congruence. }
      apply in_app_or in Hp as [Hp | [<- | []]].
      * apply in_app_or in Hq as [Hq | [<- | []]].
        -- now apply (ci_indep G Gc nl Hinv).
        -- rewrite has_edge_sym. apply Hnear. apply in_or_app. now left.
      * now apply Hnear.
  - intros p Hp.
    assert (Hcases : In p nl \/ (p = a /\ ~ In n1 nl /\ ~ In n2 nl)).
    { destruct Hnl' as [[-> _] | [-> [Hn1 Hn2]]]; [now left |].
      apply in_app_or in Hp as [Hp | [<- | []]]; auto. }
    destruct Hcases as [Hold | [-> [Hn1 Hn2]]].
    + destruct (ci_marked G Gc nl Hinv p Hold) as [x [y [Hpn [Hxy [Hpx Hpy]]]]].
      exists x, y. split; [| split; [now apply Hgrow | now split]].
      rewrite <- Hpn, HG.
      destruct (Nat.eq_dec p n1) as [E1 | E1];
        [| destruct (Nat.eq_dec p n2) as [E2 | E2]].
      * apply neighbors_add_edge_present; try assumption.
        apply (marked_pair_joined Gc nl a n1 n2 p Hinv Hn Hold). now left.
      * apply neighbors_add_edge_present; try assumption.
        apply (marked_pair_joined Gc nl a n1 n2 p Hinv Hn Hold). now right.
      * now apply neighbors_add_edge_elsewhere.
    + exists n1, n2.
      assert (Horig : forall z, has_edge Gc a z = true -> has_edge G a z = true).
      { intros z Hz.
        destruct (ci_new G Gc nl Hinv a z Hz) as [Hold | [v [Hva [_ Hm]]]];
          [assumption | exfalso].
        assert (Hz' : In z (neighbors Gc a)) by now apply neighbors_has_edge.
        assert (Hv' : In v (neighbors Gc a)).
        { apply neighbors_has_edge. now rewrite has_edge_sym. }
        rewrite Hn in Hz', Hv'. apply in_pair in Hz', Hv'.
        destruct Hm as [Hm | [Hm | Hm]]; [| contradiction |].
        - destruct Hv' as [-> | ->]; contradiction.
        - destruct Hz' as [-> | ->]; contradiction. }
      split.
      { rewrite <- Hn, HG. apply neighbors_add_edge_elsewhere; auto. }
      split; [| split; now apply Horig].
      rewrite Hedge. rewrite joins_refl. apply orb_true_r.
  - intros p q H. rewrite Hedge in H. apply orb_true_iff in H as [H | H].
    + now apply (ci_conn G Gc nl Hinv).
    + assert (C1 : connected G a n1) by now apply (ci_conn G Gc nl Hinv).
      assert (C2 : connected G a n2) by now apply (ci_conn G Gc nl Hinv).
      destruct (Hjoin p q _ H) as [[-> ->] | [-> ->]].
      * apply (connected_trans G n1 a n2); [now apply connected_sym | assumption].
      * apply (connected_trans G n2 a n1); [now apply connected_sym | assumption].
Qed.

End CollapseInvariant.

Lemma scan_keeps_inv (G : Graph) (ns : list nat) :
  forall (Gc : Graph) (nl : list nat),
    collapse_inv G Gc nl -> NoDup nl -> NoDup ns ->
    (forall n, In n ns -> ~ In n nl) ->
    exists Gc' nl',
      scan ns (Gc, nl) = Ok (Gc', nl') /\ collapse_inv G Gc' nl'
      /\ NoDup nl' /\ incl nl' (nl ++ ns).
Proof.
  induction ns as [| a ns IH]; intros Gc nl Hinv Hnl Hns Hfresh.
  - exists Gc, nl. split; [reflexivity |]. split; [assumption |].
    split; [assumption |]. intros x Hx. apply in_or_app. now left.
  - apply NoDup_cons_iff in Hns as [Ha Hns].
    destruct (visit_keeps_inv G Gc nl a Hinv (Hfresh a (or_introl eq_refl)))
      as [Gc1 [nl1 [Hv [Hinv1 Hnl1]]]].
    assert (Hnd1 : NoDup nl1).
    { destruct Hnl1 as [-> | ->]; [assumption |].
      apply NoDup_snoc; [assumption |]. apply Hfresh. now left. }
    assert (Hfresh1 : forall n, In n ns -> ~ In n nl1).
    { intros n Hn Hin.
      assert (Hn' : ~ In n nl) by (apply Hfresh; now right).
      destruct Hnl1 as [-> | ->]; [contradiction |].
      apply in_app_or in Hin as [Hin | [<- | []]]; contradiction. }
    destruct (IH Gc1 nl1 Hinv1 Hnd1 Hns Hfresh1)
      as [Gc' [nl' [Hs [Hinv' [Hnd' Hincl]]]]].
    exists Gc', nl'. cbn [scan]. rewrite Hv. cbn [bind].
    split; [exact Hs |]. split; [assumption |]. split; [assumption |].
    intros x Hx. apply Hincl in Hx. apply in_or_app.
    apply in_app_or in Hx as [Hx | Hx]; [| right; now right].
    destruct Hnl1 as [-> | ->]; [now left |].
    apply in_app_or in Hx as [Hx | [<- | []]]; [now left | right; now left].
Qed.

Lemma remove_nodes_node_data (l : list nat) :
  forall G G' : Graph,
    remove_nodes G l = Ok G' -> incl (node_data G') (node_data G).
Proof.
  induction l as [| n l IH]; intros G G' H; simpl in H.
  - injection H as <-. intros x Hx. exact Hx.
  - apply bind_Ok in H as [G1 [H1 H2]].
    intros x Hx. apply (IH G1 G' H2) in Hx.
    unfold remove_node in H1. destruct (mem n (nodes G)); [| discriminate].
    injection H1 as <-. simpl in Hx. now apply filter_In in Hx as [Hx _].
Qed.

(** The anatomy of a pass that returns: the scan ends in a graph [G1]
    and a set of marked nodes, and the result is [G1] without them. *)
Lemma collapse_pass_anatomy (G G' : Graph) :
  graph_wf G -> collapse_pass G = Ok G' ->
  exists G1 nl,
    collapse_inv G G1 nl /\ graph_wf G'
    /\ (forall m, In m (nodes G') <-> In m (nodes G) /\ ~ In m nl)
    /\ (forall p q, has_edge G' p q
                    = has_edge G1 p q && negb (mem p nl) && negb (mem q nl))
    /\ incl (node_data G') (node_data G).
Proof.
  intros Hwf Hpass.
  assert (HnodesG : NoDup (nodes G)) by apply Hwf.
  destruct (scan_keeps_inv G (nodes G) G [] (collapse_inv_init G Hwf)
                           (NoDup_nil nat) HnodesG (fun n _ H => H))
    as [G1 [nl [Hscan [Hinv [Hnd Hincl]]]]].
  exists G1, nl.
  assert (Hnodes : nodes G1 = nodes G).
  { unfold nodes. now rewrite (ci_nodes G G1 nl Hinv). }
  unfold collapse_pass in Hpass. rewrite Hscan in Hpass. cbn [bind] in Hpass.
  destruct (Z.of_nat (length nl) =? Z.of_nat (length (nodes G1)) - 1)%Z eqn:Eg.
  - apply (guard_entered_iff G G1 nl Hwf Hscan) in Eg as [_ ->].
    discriminate Hpass.
  - destruct (remove_nodes_spec nl G1 (ci_wf G G1 nl Hinv) Hnd)
      as [G2 [Hrem [Hwf2 [_ Hmem]]]].
    { rewrite Hnodes. exact Hincl. }
    assert (G2 = G') by congruence. subst G2.
    split; [assumption |]. split; [assumption |]. split; [| split].
    + intro m. rewrite Hmem, Hnodes. reflexivity.
    + intros p q. now apply has_edge_remove_nodes.
    + rewrite <- (ci_nodes G G1 nl Hinv). now apply (remove_nodes_node_data nl).
Qed.

Lemma kept_edge (G' G1 : Graph) (nl : list nat) (p q : nat) :
  (forall p q, has_edge G' p q
               = has_edge G1 p q && negb (mem p nl) && negb (mem q nl)) ->
  has_edge G1 p q = true -> ~ In p nl -> ~ In q nl ->
  In q (neighbors G' p).
Proof.
  intros Hedge H Hp Hq. apply neighbors_has_edge. rewrite Hedge, H.
  apply mem_not_In in Hp, Hq. now rewrite Hp, Hq.
Qed.

Lemma marked_neighbors_kept (G G1 : Graph) (nl : list nat) (v z : nat) :
  collapse_inv G G1 nl -> In v nl -> has_edge G1 v z = true -> ~ In z nl.
Proof.
  intros Hinv Hv Hvz Hz.
  rewrite (ci_indep G G1 nl Hinv v z Hv Hz) in Hvz. discriminate.
Qed.

(** A node that a pass takes out has exactly two neighbours in the
    graph the pass started from; both stay and are joined afterwards. *)
Lemma pass_removed (G G' : Graph) (v : nat) :
  graph_wf G -> collapse_pass G = Ok G' ->
  In v (nodes G) -> ~ In v (nodes G') ->
  degree G v = 2
  /\ exists x y, x <> y /\ In x (neighbors G v) /\ In y (neighbors G v)
                 /\ In x (nodes G') /\ In y (nodes G')
                 /\ has_edge G' x y = true.
Proof.
  intros Hwf Hpass Hv Hgone.
  destruct (collapse_pass_anatomy G G' Hwf Hpass)
    as [G1 [nl [Hinv [Hwf' [Hmem [Hedge _]]]]]].
  assert (Hvnl : In v nl).
  { destruct (in_dec Nat.eq_dec v nl) as [H | H]; [assumption |].
    exfalso. apply Hgone. apply Hmem. now split. }
  destruct (ci_marked G G1 nl Hinv v Hvnl) as [x [y [Hn [Hxy [Hvx Hvy]]]]].
  destruct (wf_two_neighbors G1 (ci_wf G G1 nl Hinv) v x y Hn)
    as [Hne _].
  assert (Hxk : ~ In x nl).
  { apply (marked_neighbors_kept G G1 nl v x Hinv Hvnl).
    now apply (ci_grow G G1 nl Hinv). }
  assert (Hyk : ~ In y nl).
  { apply (marked_neighbors_kept G G1 nl v y Hinv Hvnl).
    now apply (ci_grow G G1 nl Hinv). }
  assert (Hxn : In x (neighbors G v)) by now apply neighbors_has_edge.
  assert (Hyn : In y (neighbors G v)) by now apply neighbors_has_edge.
  split.
  - unfold degree.
    assert (Hle : length (neighbors G v) <= length [x; y]).
    { apply NoDup_incl_length; [now apply wf_neighbors_NoDup |].
      intros z Hz. rewrite <- Hn. apply neighbors_has_edge.
      apply (ci_grow G G1 nl Hinv). now apply neighbors_has_edge. }
    assert (Hge : length [x; y] <= length (neighbors G v)).
    { apply NoDup_incl_length.
      - constructor; [intros [E | []]; congruence |].
        constructor; [intros [] | constructor].
      - intros z Hz. apply in_pair in Hz as [-> | ->]; assumption. }
    simpl in Hle, Hge. lia.
  - exists x, y. split; [assumption |]. split; [assumption |].
    split; [assumption |].
    destruct (has_edge_irrefl G v x Hwf Hvx) as [_ [_ Hxin]].
    destruct (has_edge_irrefl G v y Hwf Hvy) as [_ [_ Hyin]].
    split; [apply Hmem; now split |]. split; [apply Hmem; now split |].
    rewrite Hedge, Hxy. apply mem_not_In in Hxk, Hyk. now rewrite Hxk, Hyk.
Qed.

Lemma pass_keeps (G G' : Graph) :
  graph_wf G -> collapse_pass G = Ok G' ->
  graph_wf G' /\ keeps_connectivity G G'.
Proof.
  intros Hwf Hpass.
  destruct (collapse_pass_anatomy G G' Hwf Hpass)
    as [G1 [nl [Hinv [Hwf' [Hmem [Hedge _]]]]]].
  split; [assumption |].
  assert (Hback : forall u w, connected G' u w -> connected G u w).
  { intros u w H. induction H as [| p w Hup IH Hw]; [constructor |].
    apply (connected_trans G u p w IH).
    apply (ci_conn G G1 nl Hinv).
    apply neighbors_has_edge in Hw. rewrite Hedge in Hw.
    now apply andb_true_iff in Hw as [Hw _]; apply andb_true_iff in Hw as [Hw _]. }
  assert (Hforth : forall u w, ~ In u nl -> connected G u w ->
             (~ In w nl -> connected G' u w)
             /\ (In w nl -> forall z, has_edge G w z = true -> connected G' u z)).
  { intros u w Hu H. induction H as [| p w Hup [IHk IHr] Hw].
    { split; [constructor | contradiction]. }
    apply neighbors_has_edge in Hw.
    assert (Hw1 : has_edge G1 p w = true) by now apply (ci_grow G G1 nl Hinv).
    destruct (in_dec Nat.eq_dec p nl) as [Hp | Hp];
      destruct (in_dec Nat.eq_dec w nl) as [Hwn | Hwn].
    - rewrite (ci_indep G G1 nl Hinv p w Hp Hwn) in Hw1. discriminate.
    - split; [| contradiction]. intros _. now apply IHr.
    - split; [contradiction |]. intros _ z Hwz.
      destruct (ci_marked G G1 nl Hinv w Hwn) as [x [y [Hn [Hxy _]]]].
      assert (Hz1 : has_edge G1 w z = true) by now apply (ci_grow G G1 nl Hinv).
      assert (Hzk : ~ In z nl)
        by now apply (marked_neighbors_kept G G1 nl w z Hinv Hwn).
      assert (Hpin : In p [x; y]).
      { rewrite <- Hn. apply neighbors_has_edge. now rewrite has_edge_sym. }
      assert (Hzin : In z [x; y]).
      { rewrite <- Hn. now apply neighbors_has_edge. }
      apply in_pair in Hpin, Hzin.
      assert (Hyx : has_edge G1 y x = true) by now rewrite has_edge_sym.
      destruct Hpin as [-> | ->], Hzin as [-> | ->].
      + now apply IHk.
      + apply (connected_next G' u x y); [now apply IHk |].
        now apply (kept_edge G' G1 nl).
      + apply (connected_next G' u y x); [now apply IHk |].
        now apply (kept_edge G' G1 nl).
      + now apply IHk.
    - split; [| contradiction]. intros _.
      apply (connected_next G' u p w); [now apply IHk |].
      now apply (kept_edge G' G1 nl). }
  split; [| split].
  - intros m Hm. now apply Hmem in Hm.
  - intros u w Hu Hw. apply Hmem in Hu as [_ Hu]. apply Hmem in Hw as [_ Hw].
    split; [apply Hback |]. intro H.
    destruct (Hforth u w Hu H) as [Hkept _]. now apply Hkept.
  - intros v Hv. destruct (in_dec Nat.eq_dec v (nodes G')) as [Hk | Hgone].
    + exists v. split; [assumption | constructor].
    + destruct (pass_removed G G' v Hwf Hpass Hv Hgone)
        as [_ [x [_ [_ [Hx [_ [Hxk _]]]]]]].
      exists x. split; [assumption |].
      apply connected_edge. now apply neighbors_has_edge.
Qed.

Lemma keeps_connectivity_refl (G : Graph) : keeps_connectivity G G.
Proof.
  split; [intros x Hx; exact Hx |]. split; [tauto |].
  intros v Hv. exists v. split; [assumption | constructor].
Qed.

Lemma keeps_connectivity_trans (G1 G2 G3 : Graph) :
  keeps_connectivity G1 G2 -> keeps_connectivity G2 G3 ->
  keeps_connectivity G1 G3.
Proof.
  intros [Hin12 [Hc12 Hr12]] [Hin23 [Hc23 Hr23]].
  split; [intros x Hx; apply Hin12, Hin23, Hx |]. split.
  - intros u w Hu Hw. rewrite (Hc23 u w Hu Hw).
    apply Hc12; apply Hin23; assumption.
  - intros v Hv. destruct (Hr12 v Hv) as [x [Hx Hvx]].
    destruct (Hr23 x Hx) as [y [Hy Hxy]].
    exists y. split; [assumption |].
    apply (connected_trans G1 v x y Hvx).
    apply (Hc12 x y Hx (Hin23 y Hy)). exact Hxy.
Qed.

Lemma rrn_loop_keeps (fuel : nat) :
  forall (mode : Z) (G : Graph) (ord new_order i : nat) (G' : Graph) (i' : nat),
    graph_wf G -> rrn_loop fuel mode G ord new_order i = Ok (G', i') ->
    graph_wf G' /\ keeps_connectivity G G'.
Proof.
  induction fuel as [| fuel IH]; intros mode G ord new_order i G' i' Hwf H;
    [discriminate |].
  rewrite rrn_loop_S in H.
  assert (Hstop : Ok (G, i) = Ok (G', i') ->
                  graph_wf G' /\ keeps_connectivity G G').
  { intro E. injection E as <- _. split; [assumption |].
    apply keeps_connectivity_refl. }
  destruct ((mode =? 1)%Z && (2 <? i)); [now apply Hstop |].
  destruct ((mode =? 0)%Z && (new_order =? ord)); [now apply Hstop |].
  destruct (mode =? 2)%Z; [now apply Hstop |].
  apply bind_Ok in H as [G1 [Hpass H]].
  destruct (pass_keeps G G1 Hwf Hpass) as [Hwf1 Hk1].
  destruct (new_order =? order G1).
  - injection H as <- _. now split.
  - destruct (IH mode G1 new_order (order G1) (S i) G' i' Hwf1 H) as [Hwf' Hk'].
    split; [assumption |]. now apply (keeps_connectivity_trans G G1 G').
Qed.

(** ** The simplifier as a whole *)

(** X1.  [removeRedundantNodes] keeps the graph simple and keeps what is
    connected.  On a simple graph with other than one node it returns,
    in every mode; the nodes of the result are nodes of the input, two
    nodes of the result are connected in the result exactly when they
    are connected in the input, and every node of the input is
    connected to a node that is kept, so that no connected component is
    lost, split or merged. *)
Theorem removeRedundantNodes_keeps_connectivity (G : Graph) (mode : Z) :
  graph_wf G -> order G <> 1 ->
  exists G', removeRedundantNodes G mode = Ok G'
             /\ graph_wf G'
             /\ incl (nodes G') (nodes G)
             /\ (forall u w, In u (nodes G') -> In w (nodes G') ->
                             (connected G' u w <-> connected G u w))
             /\ (forall v, In v (nodes G) ->
                           exists x, In x (nodes G') /\ connected G v x).
Proof.
  intros Hwf Hord.
  destruct (rrn_run_total G mode Hwf Hord) as [G' [i [Hrun _]]].
  exists G'. split.
  - apply removeRedundantNodes_run. now exists i.
  - destruct (rrn_loop_keeps _ mode G (order G) 0 0 G' i Hwf Hrun)
      as [Hwf' [Hincl [Hconn Hreach]]].
    split; [assumption |]. split; [assumption |]. now split.
Qed.

(** X2.  What a collapse pass removes.  On a simple graph with other
    than one node a pass of the [while] body returns; every node it
    removes has exactly two neighbours in the graph the pass started
    from, both neighbours are kept, and they are joined by an edge in
    the result.  Nodes of any other degree (end points, junctions,
    isolated nodes) are never removed, and no two adjacent nodes are
    removed in the same pass. *)
Theorem collapse_pass_removes_chain_nodes (G : Graph) :
  graph_wf G -> order G <> 1 ->
  exists G', collapse_pass G = Ok G'
    /\ incl (nodes G') (nodes G)
    /\ (forall v, In v (nodes G) -> degree G v <> 2 -> In v (nodes G'))
    /\ (forall v, In v (nodes G) -> ~ In v (nodes G') ->
          degree G v = 2
          /\ exists x y, x <> y /\ In x (neighbors G v) /\ In y (neighbors G v)
                         /\ In x (nodes G') /\ In y (nodes G')
                         /\ has_edge G' x y = true).
Proof.
  intros Hwf Hord.
  destruct (collapse_pass_spec G Hwf) as [[H1 _] | [_ [G' [Hpass _]]]];
    [contradiction |].
  exists G'. split; [assumption |].
  destruct (pass_keeps G G' Hwf Hpass) as [_ [Hincl _]].
  split; [assumption |]. split.
  - intros v Hv Hdeg.
    destruct (in_dec Nat.eq_dec v (nodes G')) as [Hk | Hgone]; [assumption |].
    destruct (pass_removed G G' v Hwf Hpass Hv Hgone) as [Hd _]. contradiction.
  - intros v Hv Hgone. now apply pass_removed.
Qed.

Lemma rrn_loop_floor (fuel : nat) :
  forall (mode : Z) (G : Graph) (ord new_order i : nat) (G' : Graph) (i' : nat),
    graph_wf G -> 2 <= order G ->
    rrn_loop fuel mode G ord new_order i = Ok (G', i') -> 2 <= order G'.
Proof.
  induction fuel as [| fuel IH]; intros mode G ord new_order i G' i' Hwf H2 H;
    [discriminate |].
  rewrite rrn_loop_S in H.
  assert (Hstop : Ok (G, i) = Ok (G', i') -> 2 <= order G').
  { intro E. now injection E as <- _. }
  destruct ((mode =? 1)%Z && (2 <? i)); [now apply Hstop |].
  destruct ((mode =? 0)%Z && (new_order =? ord)); [now apply Hstop |].
  destruct (mode =? 2)%Z; [now apply Hstop |].
  apply bind_Ok in H as [G1 [Hpass H]].
  assert (H21 : 2 <= order G1 /\ graph_wf G1).
  { destruct (collapse_pass_spec G Hwf) as [[H1 _] | [_ [G1' [Hp Hrest]]]];
      [lia |].
    assert (G1' = G1) by congruence. subst G1'.
    destruct Hrest as [Hwf1 [_ [Hne [Hzero _]]]]. split; [lia | assumption]. }
  destruct H21 as [H21 Hwf1].
  destruct (new_order =? order G1).
  - now injection H as <- _.
  - now apply (IH mode G1 new_order (order G1) (S i) G' i' Hwf1 H21).
Qed.

(** X3.  Error behaviour of the simplifier.  For a simple graph and a
    mode other than 2, [removeRedundantNodes] raises [KeyError] exactly
    when the graph has a single node; in every other case it returns a
    graph with no more nodes than the input, and a graph with at least
    two nodes keeps at least two. *)
Theorem removeRedundantNodes_error_behaviour (G : Graph) (mode : Z) :
  graph_wf G -> mode <> 2%Z ->
  (removeRedundantNodes G mode = Raise KeyError <-> order G = 1)
  /\ (order G <> 1 ->
      exists G', removeRedundantNodes G mode = Ok G'
                 /\ order G' <= order G
                 /\ (2 <= order G -> 2 <= order G')).
Proof.
  intros Hwf Hmode.
  assert (Hret : order G <> 1 ->
                 exists G', removeRedundantNodes G mode = Ok G'
                            /\ order G' <= order G
                            /\ (2 <= order G -> 2 <= order G')).
  { intro H1. destruct (rrn_run_total G mode Hwf H1) as [G' [i [Hrun [_ Hle]]]].
    exists G'. split; [| split; [assumption |]].
    - unfold removeRedundantNodes, omap. now rewrite Hrun.
    - intro H2.
      now apply (rrn_loop_floor (S (S (order G))) mode G (order G) 0 0 G' i). }
  split; [split |]; [| | exact Hret].
  - intro Hraise. destruct (Nat.eq_dec (order G) 1) as [E | E]; [assumption |].
    destruct (Hret E) as [G' [Hok _]]. congruence.
  - intro H1. unfold removeRedundantNodes, omap.
    now rewrite (rrn_run_single_node G mode Hwf H1 Hmode).
Qed.

(** A mode that is none of 0, 1, 2 runs the loop of mode 0. *)
Lemma rrn_loop_other_mode (mode : Z) (fuel : nat) :
  mode <> 0%Z -> mode <> 1%Z -> mode <> 2%Z ->
  forall (G : Graph) (ord new_order i j : nat),
    new_order <> ord ->
    omap fst (rrn_loop fuel mode G ord new_order i)
    = omap fst (rrn_loop fuel 0 G ord new_order j).
Proof.
  intros H0 H1 H2.
  induction fuel as [| fuel IH]; intros G ord new_order i j Hne;
    [reflexivity |].
  rewrite !rrn_loop_S.
  destruct (Z.eqb_spec mode 1) as [E | _]; [contradiction |].
  destruct (Z.eqb_spec mode 0) as [E | _]; [contradiction |].
  destruct (Z.eqb_spec mode 2) as [E | _]; [contradiction |].
  apply Nat.eqb_neq in Hne. rewrite Hne. cbn [Z.eqb andb].
  destruct (collapse_pass G) as [G1 | e |]; try reflexivity.
  cbn [bind]. destruct (new_order =? order G1) eqn:E; [reflexivity |].
  apply IH. apply Nat.eqb_neq in E. congruence.
Qed.

(** X4.  A mode outside 0, 1, 2.  The loop tests the mode against 1, 0
    and 2 only; with any other value [removeRedundantNodes] does what
    mode 0 does, on every graph: it collapses until the node count is
    stable. *)
Theorem removeRedundantNodes_unknown_mode (G : Graph) (mode : Z) :
  mode <> 0%Z -> mode <> 1%Z -> mode <> 2%Z ->
  removeRedundantNodes G mode = removeRedundantNodes G 0.
Proof.
  intros H0 H1 H2. unfold removeRedundantNodes, rrn_run.
  destruct (Nat.eq_dec (order G) 0) as [E | E].
  - rewrite !rrn_loop_S.
    destruct (Z.eqb_spec mode 1) as [E1 | _]; [contradiction |].
    destruct (Z.eqb_spec mode 0) as [E0 | _]; [contradiction |].
    destruct (Z.eqb_spec mode 2) as [E2 | _]; [contradiction |].
    rewrite E. cbn [Z.eqb andb Nat.eqb Nat.ltb Nat.leb].
    unfold collapse_pass. rewrite (order_zero_nodes G E). cbn [scan bind].
    rewrite (order_zero_nodes G E). cbn [length Z.of_nat Z.sub Z.eqb Z.opp Z.add].
    cbn [remove_nodes bind]. rewrite E. reflexivity.
  - apply rrn_loop_other_mode; auto.
Qed.

(* ================================================================= *)
(** ** The copy of an induced subgraph *)

Lemma put_edge_In (u v : nat) (a : EdgeAttr) (es : list Edge) (e' : Edge) :
  In e' (put_edge u v a es) ->
  In e' es \/ (joins u v e' = true /\ snd e' = a).
Proof.
  induction es as [| e es IH]; simpl.
  - intros [<- | []]. right. split; [apply joins_refl | reflexivity].
  - destruct (joins u v e) eqn:E.
    + intros [<- | H]; [right | left; now right].
      split; [now rewrite joins_fst | reflexivity].
    + intros [<- | H]; [left; now left |].
      destruct (IH H) as [H' | H']; [left; now right | now right].
Qed.

Lemma existsb_add_edges (p q : nat) (new_edges : list Edge) :
  forall es,
    existsb (joins p q) (add_edges_from es new_edges)
    = existsb (joins p q) es || existsb (joins p q) new_edges.
Proof.
  unfold add_edges_from.
  induction new_edges as [| [[u v] a] l IH]; intro es; simpl.
  - now rewrite orb_false_r.
  - rewrite IH, existsb_put_edge. now rewrite orb_assoc.
Qed.

Lemma add_edges_NoDup (new_edges : list Edge) :
  forall es, NoDup (map ends es) ->
             NoDup (map ends (add_edges_from es new_edges)).
Proof.
  unfold add_edges_from.
  induction new_edges as [| e l IH]; intros es H; simpl; [assumption |].
  apply IH. now apply put_edge_NoDup.
Qed.

Lemma add_edges_Forall (P : Edge -> Prop) (new_edges : list Edge) :
  (forall e e', P e -> P e' -> P (fst e, snd e')) ->
  Forall P new_edges ->
  forall es, Forall P es -> Forall P (add_edges_from es new_edges).
Proof.
  intros Hupd Hnew. unfold add_edges_from.
  induction Hnew as [| [[u v] a] l He Hl IH]; intros es Hes; simpl;
    [assumption |].
  apply IH. apply put_edge_Forall; [assumption | assumption |].
  intros e Pe. exact (Hupd e (u, v, a) Pe He).
Qed.

(** Every edge between [p] and [q] carries the attributes [a0] once
    this holds of the edges there were and of the edges added. *)
Lemma add_edges_attr (p q : nat) (a0 : EdgeAttr) (new_edges : list Edge) :
  (forall e, In e new_edges -> joins p q e = true -> snd e = a0) ->
  forall es,
    (forall e, In e es -> joins p q e = true -> snd e = a0) ->
    forall e, In e (add_edges_from es new_edges) -> joins p q e = true ->
              snd e = a0.
Proof.
  unfold add_edges_from.
  induction new_edges as [| [[u v] a] l IH]; intros Hnew es Hes; simpl;
    [exact Hes |].
  apply IH.
  - intros e He. apply Hnew. now right.
  - intros e He Hj. apply put_edge_In in He as [He | [Huv Ha]];
      [now apply Hes |].
    rewrite Ha. apply (Hnew (u, v, a)); [now left |].
    rewrite (joins_same_ends u v p q e Huv) in Hj.
    simpl in Hj |- *. exact Hj.
Qed.

Lemma unique_edge (es : list Edge) (p q : nat) (e1 e2 : Edge) :
  NoDup (map ends es) -> In e1 es -> In e2 es ->
  joins p q e1 = true -> joins p q e2 = true -> e1 = e2.
Proof.
  intros Hnd H1 H2 J1 J2.
  apply joins_ends in J1, J2.
  assert (Hends : ends e1 = ends e2) by congruence. clear J1 J2.
  induction es as [| e es IH]; [destruct H1 |].
  simpl in Hnd. apply NoDup_cons_iff in Hnd as [Hfresh Hnd].
  destruct H1 as [-> | H1], H2 as [-> | H2].
  - reflexivity.
  - elim Hfresh. rewrite Hends. now apply in_map.
  - elim Hfresh. rewrite <- Hends. now apply in_map.
  - now apply IH.
Qed.

Lemma find_absent {A : Type} (f : A -> bool) (l : list A) :
  existsb f l = false -> find f l = None.
Proof.
  induction l as [| a l IH]; [reflexivity |].
  simpl. destruct (f a); [discriminate | exact IH].
Qed.

Lemma in_view (G : Graph) (c ns : list nat) (e' : Edge) :
  In e' (flat_map (view_edges G c) ns) <->
  exists u e, In u ns /\ In e (edge_data G) /\ incident u e = true
              /\ In (other_end u e) c /\ e' = (u, other_end u e, snd e).
Proof.
  rewrite in_flat_map. unfold view_edges. split.
  - intros [u [Hu He']]. apply in_map_iff in He' as [e [<- He]].
    apply filter_In in He as [He Hf]. apply andb_true_iff in Hf as [Hi Hc].
    exists u, e. apply mem_In in Hc. repeat split; assumption.
  - intros [u [e [Hu [He [Hi [Hc ->]]]]]]. exists u. split; [assumption |].
    apply in_map_iff. exists e. split; [reflexivity |].
    apply filter_In. split; [assumption |].
    apply mem_In in Hc. now rewrite Hi, Hc.
Qed.

Lemma nodes_of_view (G : Graph) (c : list nat) (u : nat) :
  In u (map fst (filter (fun p => mem (fst p) c) (node_data G)))
  <-> In u (nodes G) /\ In u c.
Proof.
  unfold nodes. rewrite !in_map_iff. split.
  - intros [p [<- Hp]]. apply filter_In in Hp as [Hp Hc].
    split; [now exists p | now apply mem_In].
  - intros [[p [<- Hp]] Hc]. exists p. split; [reflexivity |].
    apply filter_In. split; [assumption | now apply mem_In].
Qed.

Lemma nodes_subgraph (G : Graph) (c : list nat) (u : nat) :
  In u (nodes (subgraph G c)) <-> In u (nodes G) /\ In u c.
Proof.
  apply nodes_of_view.
Qed.

Section SubgraphFacts.

Variable G : Graph.
Hypothesis Hwf : graph_wf G.
Variable c : list nat.

(** An edge the view shows is an edge of [G] between two nodes of
    [c], and every such edge is shown. *)
Lemma view_edge_origin (p q : nat) (e' : Edge) :
  In e' (flat_map (view_edges G c)
           (map fst (filter (fun p => mem (fst p) c) (node_data G)))) ->
  joins p q e' = true ->
  In p c /\ In q c
  /\ exists e, In e (edge_data G) /\ joins p q e = true /\ snd e' = snd e
               /\ edge_ok G e.
Proof.
  intros Hin Hj. apply in_view in Hin as [u [e [Hu [He [Hi [Hc ->]]]]]].
  apply nodes_of_view in Hu as [_ Huc].
  pose proof (incident_joins u e Hi) as Hue.
  assert (Hpq : joins p q e = true).
  { rewrite (joins_same_ends u (other_end u e) p q e Hue). exact Hj. }
  simpl in Hj. rewrite orb_true_iff, !andb_true_iff, !Nat.eqb_eq in Hj.
  assert (Hok : edge_ok G e) by now apply (wf_edge_ok G Hwf).
  destruct Hj as [[<- <-] | [<- <-]].
  - split; [assumption |]. split; [assumption |]. now exists e.
  - split; [assumption |]. split; [assumption |]. now exists e.
Qed.

Lemma view_edge_shown (p q : nat) (e : Edge) :
  In e (edge_data G) -> joins p q e = true -> In p c -> In q c ->
  In (p, q, snd e)
     (flat_map (view_edges G c)
        (map fst (filter (fun p => mem (fst p) c) (node_data G)))).
Proof.
  intros He Hj Hp Hq.
  destruct (wf_edge_ok G Hwf e He) as [Ha [Hb [Hab _]]].
  destruct (joins_incident p q e Hab Hj) as [Hi [Ho _]].
  apply in_view. exists p, e. rewrite Ho.
  split; [| repeat split; assumption].
  apply nodes_of_view. split; [| assumption].
  destruct e as [[a b] x]. simpl in *.
  rewrite orb_true_iff, !Nat.eqb_eq in Hi. destruct Hi as [<- | <-]; assumption.
Qed.

Lemma has_edge_subgraph (u w : nat) :
  has_edge (subgraph G c) u w = has_edge G u w && (mem u c && mem w c).
Proof.
  unfold has_edge at 1. unfold subgraph. cbn [edge_data].
  rewrite existsb_add_edges. cbn [existsb orb].
  apply eq_true_iff_eq. rewrite !andb_true_iff, existsb_exists. split.
  - intros [e' [Hin Hj]].
    destruct (view_edge_origin u w e' Hin Hj) as [Hu [Hw [e [He [Hje _]]]]].
    split; [| split; now apply mem_In].
    apply existsb_exists. now exists e.
  - intros [Hg [Hu Hw]]. apply mem_In in Hu, Hw.
    apply existsb_exists in Hg as [e [He Hj]].
    exists (u, w, snd e). split; [now apply view_edge_shown | apply joins_refl].
Qed.

Lemma get_edge_subgraph (u w : nat) :
  In u c -> In w c -> get_edge (subgraph G c) u w = get_edge G u w.
Proof.
  intros Hu Hw. unfold get_edge.
  destruct (has_edge G u w) eqn:Eg.
  - assert (Es : has_edge (subgraph G c) u w = true).
    { rewrite has_edge_subgraph, Eg. apply mem_In in Hu, Hw.
      now rewrite Hu, Hw. }
    unfold has_edge in Eg, Es.
    apply existsb_exists in Eg as [e0 [He0 Hj0]].
    apply existsb_exists in Es as [e1 [He1 Hj1]].
    destruct (find_exists _ _ e0 He0 Hj0) as [f0 Hf0].
    destruct (find_exists _ _ e1 He1 Hj1) as [f1 Hf1].
    rewrite Hf0, Hf1. simpl. f_equal.
    apply find_some in Hf0 as [Hin0 Hjf0]. apply find_some in Hf1 as [Hin1 Hjf1].
    apply (add_edges_attr u w (snd f0)
             (flat_map (view_edges G c)
                (map fst (filter (fun p => mem (fst p) c) (node_data G)))))
      with (es := []) (e := f1); try assumption.
    + intros e' He' Hj'.
      destruct (view_edge_origin u w e' He' Hj') as [_ [_ [e [He [Hje [-> _]]]]]].
      destruct Hwf as [_ [_ Hsimple]].
      now rewrite (unique_edge (edge_data G) u w e f0 Hsimple He Hin0 Hje Hjf0).
    + intros e' [].
  - assert (Es : has_edge (subgraph G c) u w = false).
    { now rewrite has_edge_subgraph, Eg. }
    unfold has_edge in Eg, Es.
    now rewrite (find_absent _ _ Eg), (find_absent _ _ Es).
Qed.

Lemma subgraph_wf : graph_wf (subgraph G c).
Proof.
  pose proof Hwf as [Hnd [Hok Hsimple]].
  assert (Hnodes : nodes (subgraph G c) = filter (fun n => mem n c) (nodes G)).
  { unfold nodes, subgraph. cbn [node_data].
    induction (node_data G) as [| p l IH]; [reflexivity |].
    simpl. destruct (mem (fst p) c); simpl; now rewrite IH. }
  split; [rewrite Hnodes; now apply NoDup_filter |]. split.
  - unfold subgraph at 2. cbn [edge_data].
    apply add_edges_Forall; [| | constructor].
    + intros e e' [Ha [Hb [Hab _]]] [_ [_ [_ Hattr]]].
      unfold edge_ok. cbn [fst snd]. repeat split; assumption.
    + apply Forall_forall. intros e' He'.
      apply in_view in He' as [u [e [Hu [He [Hi [Hc ->]]]]]].
      destruct (wf_edge_ok G Hwf e He) as [Ha [Hb [Hab Hattr]]].
      apply nodes_of_view in Hu as [HuG Huc].
      unfold edge_ok. cbn [fst snd].
      assert (Ho : In (other_end u e) (nodes G) /\ u <> other_end u e).
      { destruct e as [[a b] x]. simpl in *.
        destruct (Nat.eqb_spec a u) as [-> | Hne]; [now split |].
        rewrite orb_false_l in Hi. apply Nat.eqb_eq in Hi. subst b.
        split; [assumption | congruence]. }
      destruct Ho as [HoG Hne].
      split; [apply nodes_subgraph; now split |].
      split; [apply nodes_subgraph; now split |]. now split.
  - unfold subgraph. cbn [edge_data]. apply add_edges_NoDup. constructor.
Qed.

End SubgraphFacts.

(* ================================================================= *)
(** ** The persistence stage on graphs that have nodes *)

Lemma pass_node_data (G G' : Graph) :
  graph_wf G -> collapse_pass G = Ok G' ->
  incl (node_data G') (node_data G).
Proof.
  intros Hwf Hpass.
  destruct (collapse_pass_anatomy G G' Hwf Hpass)
    as [G1 [nl [_ [_ [_ [_ H]]]]]].
  exact H.
Qed.

Lemma rrn_loop_node_data (fuel : nat) :
  forall (mode : Z) (G : Graph) (ord new_order i : nat) (G' : Graph) (i' : nat),
    graph_wf G -> rrn_loop fuel mode G ord new_order i = Ok (G', i') ->
    incl (node_data G') (node_data G).
Proof.
  induction fuel as [| fuel IH]; intros mode G ord new_order i G' i' Hwf H;
    [discriminate |].
  rewrite rrn_loop_S in H.
  assert (Hstop : Ok (G, i) = Ok (G', i') -> incl (node_data G') (node_data G)).
  { intro E. injection E as <- _. intros x Hx. exact Hx. }
  destruct ((mode =? 1)%Z && (2 <? i)); [now apply Hstop |].
  destruct ((mode =? 0)%Z && (new_order =? ord)); [now apply Hstop |].
  destruct (mode =? 2)%Z; [now apply Hstop |].
  apply bind_Ok in H as [G1 [Hpass H]].
  pose proof (pass_node_data G G1 Hwf Hpass) as H1.
  destruct (pass_keeps G G1 Hwf Hpass) as [Hwf1 _].
  destruct (new_order =? order G1).
  - now injection H as <- _.
  - intros x Hx. apply H1.
    now apply (IH mode G1 new_order (order G1) (S i) G' i' Hwf1 H).
Qed.

Lemma subgraph_attributed (G : Graph) (c : list nat) :
  nodes_attributed G -> nodes_attributed (subgraph G c).
Proof.
  unfold nodes_attributed. rewrite !Forall_forall. intros H p Hp.
  simpl in Hp. apply filter_In in Hp as [Hp _]. now apply H.
Qed.

Lemma largest_component_subgraph (G g : Graph) :
  largest_component G = Ok g -> exists c, g = subgraph G c.
Proof.
  unfold largest_component, connected_component_subgraphs. intro H.
  apply bind_Ok in H as [Gcc [Hs Hhead]].
  apply omap_Ok in Hs as [comps [Hc ->]].
  apply bind_Ok in Hc as [cs [_ Hc]]. injection Hc as <-.
  destruct (sorted_desc order (map (subgraph G) cs)) as [| g' rest] eqn:E;
    [discriminate |].
  injection Hhead as ->.
  assert (Hin : In g (map (subgraph G) cs)).
  { apply (Permutation_in g (sorted_desc_perm Graph order (map (subgraph G) cs))).
    rewrite E. now left. }
  apply in_map_iff in Hin as [c [<- _]]. now exists c.
Qed.

Lemma convertNumbers_well_formed (g : Graph) :
  well_formed g -> convertNumbers g = Ok g.
Proof.
  intros [[_ [Hok _]] Hnodes]. unfold convertNumbers.
  assert (H1 : forallb (fun p => node_attributed (snd p)) (node_data g) = true).
  { apply forallb_forall. unfold nodes_attributed in Hnodes.
    rewrite Forall_forall in Hnodes. exact Hnodes. }
  assert (H2 : forallb (fun e : Edge => edge_attributed (snd e)) (edge_data g)
               = true).
  { apply forallb_forall. rewrite Forall_forall in Hok.
    intros e He. now destruct (Hok e He) as [_ [_ [_ H]]]. }
  now rewrite H1, H2.
Qed.

Lemma drawAndSave_outcome (drawGraph : Graph -> outcome unit) (G : Graph)
      (plot : bool) (fmt : GraphFormat) :
  well_formed G -> order G <> 0 -> fmt <> other_format ->
  exists g,
    largest_component G = Ok g
    /\ well_formed g /\ incl (nodes g) (nodes G)
    /\ (plot = false \/ drawGraph g = Ok tt ->
        snd (drawAndSave drawGraph G plot fmt) = Ok tt
        /\ writes (fst (drawAndSave drawGraph G plot fmt)) = [g])
    /\ (forall e, plot = true -> drawGraph g = Raise e ->
          snd (drawAndSave drawGraph G plot fmt) = Raise e
          /\ writes (fst (drawAndSave drawGraph G plot fmt)) = []).
Proof.
  intros [Hwf Hattr] Hord Hfmt.
  destruct (largest_component_returns G Hwf Hord) as [g Hg].
  exists g. split; [assumption |].
  destruct (largest_component_subgraph G g Hg) as [c ->].
  assert (Hwfg : well_formed (subgraph G c)).
  { split; [now apply subgraph_wf | now apply subgraph_attributed]. }
  assert (Hsub : incl (nodes (subgraph G c)) (nodes G)).
  { intros n Hn. now apply nodes_subgraph in Hn as [Hn _]. }
  split; [assumption |]. split; [assumption |].
  unfold drawAndSave, tbind, lift, invoke, tret, emit.
  rewrite Hg. cbn [fst snd].
  rewrite (convertNumbers_well_formed _ Hwfg).
  split.
  - intros [-> | Hdraw].
    + destruct fmt; try contradiction; cbn; auto.
    + destruct plot; cbn [fst snd app]; [rewrite Hdraw |];
        destruct fmt; try contradiction; cbn; auto.
  - intros e -> Hdraw. cbn [fst snd app]. rewrite Hdraw. cbn. auto.
Qed.

Lemma writes_app (t1 t2 : list Event) : writes (t1 ++ t2) = writes t1 ++ writes t2.
Proof.
  unfold writes. apply flat_map_app.
Qed.

Lemma simplifier_well_formed (G : Graph) (mode : Z) :
  well_formed G -> 2 <= order G ->
  exists G1, removeRedundantNodes G mode = Ok G1
             /\ well_formed G1 /\ 2 <= order G1
             /\ incl (nodes G1) (nodes G).
Proof.
  intros [Hwf Hattr] H2.
  destruct (rrn_run_total G mode Hwf) as [G1 [i [Hrun _]]]; [lia |].
  exists G1. split.
  { unfold removeRedundantNodes, omap. now rewrite Hrun. }
  unfold rrn_run in Hrun.
  destruct (rrn_loop_keeps _ mode G (order G) 0 0 G1 i Hwf Hrun)
    as [Hwf1 [Hincl _]].
  pose proof (rrn_loop_node_data _ mode G (order G) 0 0 G1 i Hwf Hrun) as Hnd.
  pose proof (rrn_loop_floor _ mode G (order G) 0 0 G1 i Hwf H2 Hrun) as Hfl.
  split; [| now split].
  split; [assumption |].
  unfold nodes_attributed in *. rewrite Forall_forall in *.
  intros p Hp. apply Hattr. now apply Hnd.
Qed.

(** With a redundancy of 0, 1 or 2, [cleanAndSaveGraph] ends as the
    call of [drawAndSave] on the graph [G1] it passes ends, and writes
    what that call writes. *)
Lemma cleanAndSaveGraph_as_drawAndSave (drawGraph : Graph -> outcome unit)
      (G G1 : Graph) (redundancy : Z) (plot : bool) (fmt : GraphFormat) :
  (0 <= redundancy <= 2)%Z ->
  (if (redundancy =? 2)%Z then G1 = G
   else removeRedundantNodes G redundancy = Ok G1) ->
  snd (cleanAndSaveGraph drawGraph G redundancy plot fmt)
  = snd (drawAndSave drawGraph G1 plot fmt)
  /\ writes (fst (cleanAndSaveGraph drawGraph G redundancy plot fmt))
     = writes (fst (drawAndSave drawGraph G1 plot fmt)).
Proof.
  intros Hr HG1.
  assert (Hcases : redundancy = 0%Z \/ redundancy = 1%Z \/ redundancy = 2%Z)
    by lia.
  destruct Hcases as [-> | [-> | ->]]; cbn [Z.eqb Pos.eqb] in HG1;
    unfold cleanAndSaveGraph; cbn [Z.eqb Pos.eqb]; unfold tbind, tret, invoke;
    cbn [fst snd app]; rewrite ?HG1; cbn [fst snd app]; try subst G1;
    destruct (drawAndSave drawGraph _ plot fmt) as [t [[] | e |]];
    cbn [fst snd app]; rewrite ?app_nil_r; split; reflexivity.
Qed.

Lemma cleanAndSaveGraph_selects (drawGraph : Graph -> outcome unit)
      (G : Graph) (redundancy : Z) (plot : bool) (fmt : GraphFormat) :
  well_formed G -> 2 <= order G -> fmt <> other_format ->
  (0 <= redundancy <= 2)%Z ->
  exists G1 g,
    (if (redundancy =? 2)%Z then G1 = G
     else removeRedundantNodes G redundancy = Ok G1)
    /\ largest_component G1 = Ok g
    /\ well_formed g /\ incl (nodes g) (nodes G)
    /\ (plot = false \/ drawGraph g = Ok tt ->
        snd (cleanAndSaveGraph drawGraph G redundancy plot fmt) = Ok tt
        /\ writes (fst (cleanAndSaveGraph drawGraph G redundancy plot fmt))
           = [g])
    /\ (forall e, plot = true -> drawGraph g = Raise e ->
          snd (cleanAndSaveGraph drawGraph G redundancy plot fmt) = Raise e
          /\ writes (fst (cleanAndSaveGraph drawGraph G redundancy plot fmt))
             = []).
Proof.
  intros HG H2 Hfmt Hr.
  assert (HG1 : exists G1,
             (if (redundancy =? 2)%Z then G1 = G
              else removeRedundantNodes G redundancy = Ok G1)
             /\ well_formed G1 /\ 2 <= order G1
             /\ incl (nodes G1) (nodes G)).
  { destruct (Z.eqb_spec redundancy 2) as [E | E].
    - exists G. split; [reflexivity |]. split; [assumption |].
      split; [assumption | apply incl_refl].
    - apply simplifier_well_formed; assumption. }
  destruct HG1 as [G1 [Hsel [Hwf1 [H21 Hin1]]]].
  destruct (cleanAndSaveGraph_as_drawAndSave drawGraph G G1 redundancy plot fmt
              Hr Hsel) as [Hsnd Hw].
  destruct (drawAndSave_outcome drawGraph G1 plot fmt Hwf1) as
    [g [Hg [Hwfg [Hing [Hok Hraise]]]]]; [lia | assumption |].
  exists G1, g. split; [assumption |]. split; [assumption |].
  split; [assumption |]. split; [intros n Hn; now apply Hin1, Hing |].
  rewrite Hsnd, Hw. now split.
Qed.

Lemma cleanAndSaveGraph_unknown_redundancy (drawGraph : Graph -> outcome unit)
        (G : Graph) (redundancy : Z) (plot : bool) (fmt : GraphFormat) :
  redundancy <> 0%Z -> redundancy <> 1%Z -> redundancy <> 2%Z ->
  cleanAndSaveGraph drawGraph G redundancy plot fmt = ([], Ok tt).
Proof.
  intros H0 H1 H2. unfold cleanAndSaveGraph.
  destruct (Z.eqb_spec redundancy 2) as [E | _]; [contradiction |].
  destruct (Z.eqb_spec redundancy 1) as [E | _]; [contradiction |].
  destruct (Z.eqb_spec redundancy 0) as [E | _]; [contradiction |].
  reflexivity.
Qed.

(** X5.  The persistence stage on a graph with at least two nodes.
    For a simple, fully attributed graph with at least two nodes and
    a known graph format, with a redundancy of 0, 1 or 2,
    [cleanAndSaveGraph] selects the largest connected component [g] of
    the graph itself (redundancy 2) or of the graph
    [removeRedundantNodes] returns (redundancy 0 or 1); [g] is again
    simple and fully attributed and its nodes are nodes of the input.
    Without plot, or when the drawing of [g] returns, it returns and
    writes exactly one graph, [g].  With plot, when the drawing of [g]
    raises, it ends with that exception and writes nothing: the
    figure comes before the graph file.  With any other redundancy no
    branch is taken: nothing is simplified, drawn or written, and
    nothing is raised. *)
Theorem cleanAndSaveGraph_writes_one (drawGraph : Graph -> outcome unit)
        (G : Graph) (redundancy : Z) (plot : bool) (fmt : GraphFormat) :
  well_formed G -> 2 <= order G -> fmt <> other_format ->
  ((0 <= redundancy <= 2)%Z ->
   exists G1 g,
     (if (redundancy =? 2)%Z then G1 = G
      else removeRedundantNodes G redundancy = Ok G1)
     /\ largest_component G1 = Ok g
     /\ well_formed g /\ incl (nodes g) (nodes G)
     /\ (plot = false \/ drawGraph g = Ok tt ->
         snd (cleanAndSaveGraph drawGraph G redundancy plot fmt) = Ok tt
         /\ writes (fst (cleanAndSaveGraph drawGraph G redundancy plot fmt))
            = [g])
     /\ (forall e, plot = true -> drawGraph g = Raise e ->
           snd (cleanAndSaveGraph drawGraph G redundancy plot fmt) = Raise e
           /\ writes (fst (cleanAndSaveGraph drawGraph G redundancy plot fmt))
              = []))
  /\ (~ (0 <= redundancy <= 2)%Z ->
      cleanAndSaveGraph drawGraph G redundancy plot fmt = ([], Ok tt)).
Proof.
  intros HG H2 Hfmt. split.
  - intro Hr.
    destruct (cleanAndSaveGraph_selects drawGraph G redundancy plot fmt
                                        HG H2 Hfmt Hr)
      as [G1 [g H]].
    now exists G1, g.
  - intro Hr. apply cleanAndSaveGraph_unknown_redundancy; lia.
Qed.

(* ================================================================= *)
(** ** What [drawAndSave] selects *)

(** A connectivity class is connected in its own induced subgraph. *)
Lemma class_connected (G : Graph) (c : list nat) (v : nat) :
  graph_wf G ->
  (forall u, In u c <-> connected G v u) ->
  forall u, connected G v u -> connected (subgraph G c) v u.
Proof.
  intros Hwf Hc u H. induction H as [| p w Hvp IH Hw]; [constructor |].
  apply (connected_next _ v p w IH). apply neighbors_has_edge.
  rewrite (has_edge_subgraph G Hwf c). apply neighbors_has_edge in Hw as Hpw.
  assert (Hp : In p c) by now apply Hc.
  assert (Hwc : In w c).
  { apply Hc. now apply (connected_next G v p w). }
  apply mem_In in Hp, Hwc. now rewrite Hpw, Hp, Hwc.
Qed.

Lemma filter_keeps_all {A : Type} (keep : A -> bool) (l : list A) :
  (forall x, In x l -> keep x = true) -> filter keep l = l.
Proof.
  intro H. induction l as [| a l IH]; [reflexivity |].
  simpl. rewrite (H a (or_introl eq_refl)). f_equal.
  apply IH. intros x Hx. apply H. now right.
Qed.


(** An edge of [G] at a node of a class stays inside the class. *)
Lemma class_edges (G : Graph) (c : list nat) (v u w : nat) :
  graph_wf G ->
  (forall u, In u c <-> connected G v u) -> In u c ->
  has_edge (subgraph G c) u w = has_edge G u w
  /\ get_edge (subgraph G c) u w = get_edge G u w.
Proof.
  intros Hwf Hc Hu.
  destruct (has_edge G u w) eqn:Euw.
  - assert (Hw : In w c).
    { apply Hc. apply (connected_next G v u w); [now apply Hc |].
      now apply neighbors_has_edge. }
    split; [| now apply get_edge_subgraph].
    rewrite (has_edge_subgraph G Hwf c), Euw.
    apply mem_In in Hu, Hw. now rewrite Hu, Hw.
  - assert (Es : has_edge (subgraph G c) u w = false).
    { now rewrite (has_edge_subgraph G Hwf c), Euw. }
    split; [assumption |]. unfold get_edge. unfold has_edge in Euw, Es.
    now rewrite (find_absent _ _ Euw), (find_absent _ _ Es).
Qed.




(** X6.  What [drawAndSave] writes is a whole connected component.
    For a simple graph with at least one node the selection returns a
    graph [g] and, without plot and in the gpickle format, [g] is what
    is written.  [g] is simple, any two of its nodes are connected
    inside [g], its nodes carry the attributes they have in [G], and
    every edge of [G] at a node of [g] is an edge of [g] with the same
    attributes.  When [G] is connected nothing is lost: [g] has the
    nodes of [G] with their attributes, each once, and, between any
    two nodes, the edge of [G] with its attributes.  Nothing is said
    of the order in which nodes and edges are stored. *)
Theorem drawAndSave_whole_component (drawGraph : Graph -> outcome unit)
        (G : Graph) :
  graph_wf G -> order G <> 0 ->
  exists g,
    largest_component G = Ok g
    /\ drawAndSave drawGraph G false gpickle = ([WriteGraph g], Ok tt)
    /\ graph_wf g
    /\ (forall u w, In u (nodes g) -> In w (nodes g) -> connected g u w)
    /\ (forall n a, In (n, a) (node_data g) -> In (n, a) (node_data G))
    /\ (forall u w, In u (nodes g) ->
                    has_edge g u w = has_edge G u w
                    /\ get_edge g u w = get_edge G u w)
    /\ ((forall u w, In u (nodes G) -> In w (nodes G) -> connected G u w) ->
        Permutation (node_data g) (node_data G)
        /\ forall u w, get_edge g u w = get_edge G u w).
Proof.
  intros Hwf Hord.
  destruct (largest_component_returns G Hwf Hord) as [g Hg].
  exists g. split; [assumption |]. split.
  { unfold drawAndSave, tbind, lift, tret, emit. now rewrite Hg. }
  destruct (component_subgraphs_total G Hwf) as [comps [Hc _]].
  pose proof (largest_component_sorted G comps Hc) as Hs.
  rewrite Hg in Hs.
  destruct (sorted_desc order comps) as [| g' rest] eqn:E; [discriminate |].
  injection Hs as <-.
  assert (Hin : In g comps).
  { apply (Permutation_in g (sorted_desc_perm Graph order comps)).
    rewrite E. now left. }
  destruct (component_subgraph_connected G comps g Hc Hin)
    as [c [v [-> [Hv Hclass]]]].
  split; [now apply subgraph_wf |]. split; [| split; [| split]].
  - intros u w Hu Hw.
    apply nodes_subgraph in Hu as [_ Hu]. apply nodes_subgraph in Hw as [_ Hw].
    apply Hclass in Hu, Hw.
    apply (connected_trans _ u v w).
    + apply connected_sym. now apply (class_connected G c v Hwf Hclass).
    + now apply (class_connected G c v Hwf Hclass).
  - intros n a Hna. unfold subgraph in Hna. cbn [node_data] in Hna.
    now apply filter_In in Hna as [Hna _].
  - intros u w Hu. apply nodes_subgraph in Hu as [_ Hu].
    now apply (class_edges G c v u w Hwf Hclass).
  - intro Hall.
    assert (Hevery : forall n, In n (nodes G) -> In n c).
    { intros n Hn. apply Hclass. now apply Hall. }
    split.
    + unfold subgraph. cbn [node_data]. rewrite filter_keeps_all.
      * apply Permutation_refl.
      * intros p Hp. apply mem_In, Hevery. unfold nodes. now apply in_map.
    + intros u w. destruct (in_dec Nat.eq_dec u (nodes G)) as [Hu | Hu].
      * now apply (class_edges G c v u w Hwf Hclass), Hevery.
      * assert (Eg : has_edge G u w = false).
        { destruct (has_edge G u w) eqn:Eg; [| reflexivity].
          destruct (has_edge_irrefl G u w Hwf Eg) as [_ [Hu' _]].
          contradiction. }
        assert (Es : has_edge (subgraph G c) u w = false).
        { now rewrite (has_edge_subgraph G Hwf c), Eg. }
        unfold get_edge. unfold has_edge in Eg, Es.
        now rewrite (find_absent _ _ Eg), (find_absent _ _ Es).
Qed.

(* ================================================================= *)
(** ** The loop over the slices *)

Section VectorizeLoop.

Variable ext : Collaborators.
Variable vect_params : VectParams.

(** X7.  The loop over the slices has no handler.  When the slices
    [done] are processed without error and the next slice raises, the
    run ends with that exception: its trace is the trace of the slices
    up to and including the failing one, and the slices after it are
    not looked at.  When every slice returns, so does the run. *)
Theorem vectorize_stops_at_first_error (done : list Slice) (sli : Slice)
        (rest : list Slice) (e : exn) :
  Forall (fun s => snd (vectorize_slice ext vect_params s) = Ok tt) done ->
  snd (vectorize_slice ext vect_params sli) = Raise e ->
  vectorize_slices ext vect_params (done ++ sli :: rest)
  = (flat_map (fun s => fst (vectorize_slice ext vect_params s)) (done ++ [sli]),
     Raise e)
  /\ vectorize_slices ext vect_params done
     = (flat_map (fun s => fst (vectorize_slice ext vect_params s)) done, Ok tt).
Proof.
  intros Hdone Hsli. induction Hdone as [| s done Hs Hdone [IH1 IH2]].
  - split; [| reflexivity].
    cbn [app vectorize_slices flat_map]. unfold tbind.
    rewrite Hsli, app_nil_r. reflexivity.
  - cbn [app vectorize_slices flat_map]. unfold tbind.
    rewrite Hs, IH1, IH2. split; reflexivity.
Qed.

End VectorizeLoop.

(* ================================================================= *)
(** ** The longest contour *)

Lemma longest_step_upto (fc : list Contour) (s : nat) (st : nat * option nat) :
  longest_upto fc s st -> longest_upto fc (S s) (longest_step fc st s).
Proof.
  destruct st as [len idx]. unfold longest_upto, longest_step.
  destruct (len <? length (nth s fc [])) eqn:E; cbn [fst snd].
  - apply Nat.ltb_lt in E. intro H.
    split; [lia |]. split; [reflexivity |]. split; [lia |].
    destruct idx as [i |].
    + destruct H as [Hi [Hlen [Hpos [Hmax Hfirst]]]]. split.
      * intros j Hj. destruct (Nat.eq_dec j s) as [-> | Hne]; [lia |].
        specialize (Hmax j). lia.
      * intros j Hj. specialize (Hmax j). lia.
    + destruct H as [Hlen Hzero]. split.
      * intros j Hj. destruct (Nat.eq_dec j s) as [-> | Hne]; [lia |].
        specialize (Hzero j). lia.
      * intros j Hj. specialize (Hzero j). lia.
  - apply Nat.ltb_ge in E. destruct idx as [i |].
    + intros [Hi [Hlen [Hpos [Hmax Hfirst]]]].
      split; [lia |]. split; [assumption |]. split; [assumption |].
      split; [| assumption].
      intros j Hj. destruct (Nat.eq_dec j s) as [-> | Hne]; [lia |].
      apply Hmax. lia.
    + intros [Hlen Hzero]. split; [assumption |].
      intros j Hj. destruct (Nat.eq_dec j s) as [-> | Hne]; [lia |].
      apply Hzero. lia.
Qed.

Lemma longest_fold_upto (fc : list Contour) (n : nat) :
  forall (s : nat) (st : nat * option nat),
    longest_upto fc s st ->
    longest_upto fc (s + n) (fold_left (longest_step fc) (seq s n) st).
Proof.
  induction n as [| n IH]; intros s st H; simpl.
  - now rewrite Nat.add_0_r.
  - rewrite <- Nat.add_succ_comm. apply IH. now apply longest_step_upto.
Qed.

(** X8.  The index [createContours] returns.  When some contour found
    in the image has at least four points, [createContours] returns
    the contours with more than three points, converted to floats and
    in their original order, together with an index into that list:
    the index of the first contour of maximal length.  Every contour
    returned has at least four points. *)
Theorem createContours_first_longest (Image : Type)
        (getContours : Image -> list RawContour) (image : Image) :
  Exists (fun c => 4 <= length c) (getContours image) ->
  exists i fc,
    createContours getContours image = Ok (i, fc)
    /\ fc = filter (longer_than 3) (flattenContours (getContours image))
    /\ i < length fc
    /\ (forall c, In c fc -> 4 <= length c <= length (nth i fc []))
    /\ (forall j, j < i -> length (nth j fc []) < length (nth i fc [])).
Proof.
  intro Hex. unfold createContours.
  rewrite thresholdContours_filter.
  set (fc := filter (longer_than 3) (flattenContours (getContours image))).
  assert (Hfour : forall c, In c fc -> 4 <= length c).
  { intros c Hc. apply filter_In in Hc as [_ Hc].
    unfold longer_than in Hc. apply Z.ltb_lt in Hc. lia. }
  assert (Hsome : exists c, In c fc).
  { apply Exists_exists in Hex as [r [Hr Hlen]].
    exists (map (fun point : RawPoint =>
                   (inject_Z (fst point), inject_Z (snd point))) r).
    apply filter_In. split.
    - unfold flattenContours. now apply in_map with (f := fun contour => map _ contour).
    - unfold longer_than. rewrite length_map. apply Z.ltb_lt. lia. }
  pose proof (longest_fold_upto fc (length fc) 0 (0, None)) as Hinv.
  fold (longest_search fc) in Hinv.
  assert (Hstart : longest_upto fc 0 (0, None)).
  { split; [reflexivity |]. intros j Hj. lia. }
  specialize (Hinv Hstart). simpl in Hinv.
  unfold longest_upto in Hinv.
  destruct (snd (longest_search fc)) as [i |].
  - destruct Hinv as [Hi [Hlen [Hpos [Hmax Hfirst]]]].
    exists i, fc. split; [reflexivity |]. split; [reflexivity |].
    split; [assumption |]. split.
    + intros c Hc. split; [now apply Hfour |].
      destruct (In_nth fc c [] Hc) as [j [Hj <-]].
      rewrite <- Hlen. now apply Hmax.
    + intros j Hj. rewrite <- Hlen. now apply Hfirst.
  - exfalso. destruct Hinv as [_ Hzero]. destruct Hsome as [c Hc].
    pose proof (Hfour c Hc) as H4.
    destruct (In_nth fc c [] Hc) as [j [Hj Hnth]].
    specialize (Hzero j Hj). rewrite Hnth in Hzero. lia.
Qed.

(* ================================================================= *)
(** ** Ranges and rings of facets *)

Lemma range_shift (s : Z) (n m : nat) :
  forall a : nat,
    map (fun k => (s + Z.of_nat k)%Z) (seq (a + n) m)
    = map (fun k => (s + Z.of_nat n + Z.of_nat k)%Z) (seq a m).
Proof.
  induction m as [| m IH]; intro a; [reflexivity |].
  simpl. f_equal; [lia |]. apply (IH (S a)).
Qed.

Lemma range_app (a b c : Z) :
  (a <= b <= c)%Z -> range a b ++ range b c = range a c.
Proof.
  intro H. unfold range.
  replace (Z.to_nat (c - a)) with (Z.to_nat (b - a) + Z.to_nat (c - b)) by lia.
  rewrite seq_app, map_app. f_equal.
  rewrite (range_shift a (Z.to_nat (b - a)) (Z.to_nat (c - b)) 0).
  apply map_ext. intro k. lia.
Qed.

Lemma range_empty (a : Z) : range a a = [].
Proof.
  unfold range. now rewrite Z.sub_diag.
Qed.

Lemma range_single (a : Z) : range a (a + 1) = [a].
Proof.
  unfold range. replace (a + 1 - a)%Z with 1%Z by lia. simpl. f_equal. lia.
Qed.

Lemma range_succ (a b : Z) :
  map (fun i => (i + 1)%Z) (range a b) = range (a + 1) (b + 1).
Proof.
  unfold range. rewrite map_map.
  replace (b + 1 - (a + 1))%Z with (b - a)%Z by lia.
  apply map_ext. intro k. lia.
Qed.

Lemma range_length (a b : Z) : length (range a b) = Z.to_nat (b - a).
Proof.
  unfold range. now rewrite length_map, length_seq.
Qed.

Lemma roundTripConnect_fst (s e : Z) :
  (s <= e)%Z -> map fst (roundTripConnect s e) = range s (e + 1).
Proof.
  intro H. unfold roundTripConnect. rewrite map_app, map_map. simpl.
  rewrite map_id. rewrite <- (range_app s e (e + 1)) by lia.
  now rewrite range_single.
Qed.

Lemma roundTripConnect_snd (s e : Z) :
  (s <= e)%Z ->
  Permutation (map snd (roundTripConnect s e)) (range s (e + 1)).
Proof.
  intro H. unfold roundTripConnect. rewrite map_app, map_map. simpl.
  rewrite (range_succ s e).
  rewrite <- (range_app s (s + 1) (e + 1)) by lia.
  rewrite range_single. apply Permutation_sym.
  apply (Permutation_cons_append (range (s + 1) (e + 1)) s).
Qed.

Lemma ringed_nil : ringed [] [].
Proof.
  split; simpl; rewrite range_empty; constructor.
Qed.

Lemma ringed_extend (pts : list Point) (facets : list (Z * Z)) (c : Contour) :
  ringed pts facets -> c <> [] ->
  ringed (pts ++ c)
         (facets ++ roundTripConnect (Z.of_nat (length pts))
                                     (Z.of_nat (length (pts ++ c)) - 1)).
Proof.
  intros [Hfst Hsnd] Hc.
  assert (Hlen : (Z.of_nat (length pts) <= Z.of_nat (length (pts ++ c)) - 1)%Z).
  { rewrite length_app. destruct c; [congruence | simpl; lia]. }
  split; rewrite map_app.
  - rewrite Hfst, roundTripConnect_fst by exact Hlen.
    replace (Z.of_nat (length (pts ++ c)) - 1 + 1)%Z
      with (Z.of_nat (length (pts ++ c))) by lia.
    apply range_app. lia.
  - rewrite <- (range_app 0 (Z.of_nat (length pts))
                          (Z.of_nat (length (pts ++ c)))) by lia.
    apply Permutation_app; [exact Hsnd |].
    replace (Z.of_nat (length (pts ++ c)))
      with (Z.of_nat (length (pts ++ c)) - 1 + 1)%Z at 2 by lia.
    now apply roundTripConnect_snd.
Qed.

Lemma ringed_length (pts : list Point) (facets : list (Z * Z)) :
  ringed pts facets -> length facets = length pts.
Proof.
  intros [Hfst _].
  rewrite <- (length_map fst facets), Hfst, range_length. lia.
Qed.

(* ================================================================= *)
(** ** The mesh *)

Section MeshFacts.

Variable rand : nat -> Q.
Variable getInteriorPoint : Contour -> checked Point.

Lemma jitter_contour_length (c : Contour) :
  forall k, length (Vectorisation.jitter_contour rand k c) = length c.
Proof.
  induction c as [| p c IH]; intro k; simpl; [reflexivity |].
  now rewrite IH.
Qed.

Lemma jitter_contours_lengths (cs : list Contour) :
  forall k,
    map (@length Point) (Vectorisation.jitter_contours rand k cs)
    = map (@length Point) cs.
Proof.
  induction cs as [| c cs IH]; intro k; simpl; [reflexivity |].
  now rewrite jitter_contour_length, IH.
Qed.

Lemma jitter_contours_length (cs : list Contour) (k : nat) :
  length (Vectorisation.jitter_contours rand k cs) = length cs.
Proof.
  rewrite <- (length_map (@length Point)), jitter_contours_lengths.
  apply length_map.
Qed.

Lemma jitter_contours_nonempty (cs : list Contour) (k : nat) :
  Forall (fun c => c <> []) cs ->
  Forall (fun c => c <> []) (Vectorisation.jitter_contours rand k cs).
Proof.
  intro H. revert k. induction H as [| c cs Hc H IH]; intro k; simpl;
    constructor; [| apply IH].
  destruct c; [congruence | discriminate].
Qed.

(** The contours the loop does not skip, in order. *)
Lemma others_filter (li : nat) (J : list Contour) :
  forall s,
    map snd (filter (fun ic : nat * Contour => negb (fst ic =? li))
                    (combine (seq s (length J)) J))
    = if li <? s then J else firstn (li - s) J ++ skipn (S (li - s)) J.
Proof.
  induction J as [| c J IH]; intro s.
  - simpl. destruct (li <? s); [reflexivity |]. now destruct (li - s).
  - simpl. destruct (Nat.eqb_spec s li) as [-> | Hne]; simpl.
    + rewrite IH. rewrite Nat.ltb_irrefl, Nat.sub_diag.
      assert (E : (li <? S li) = true) by (apply Nat.ltb_lt; lia).
      now rewrite E.
    + rewrite IH. destruct (li <? s) eqn:E.
      * apply Nat.ltb_lt in E.
        assert (E' : (li <? S s) = true) by (apply Nat.ltb_lt; lia).
        now rewrite E'.
      * apply Nat.ltb_ge in E.
        assert (E' : (li <? S s) = false) by (apply Nat.ltb_ge; lia).
        rewrite E'. replace (li - s) with (S (li - S s)) by lia.
        reflexivity.
Qed.

Lemma mesh_loop_lists (is_array : bool) (li : nat) (ics : list (nat * Contour)) :
  (is_array = true ->
   filter (fun ic : nat * Contour => negb (fst ic =? li)) ics = []) ->
  (forall c,
     In c (map snd (filter (fun ic : nat * Contour => negb (fst ic =? li)) ics)) ->
     exists p, getInteriorPoint c = Returns p) ->
  forall (pts : list Point) (facets : list (Z * Z)) (holes : list Point),
    exists found,
      Vectorisation.mesh_loop getInteriorPoint is_array li ics
                              (pts, facets, holes)
      = Returns (pts ++ concat (map snd
                    (filter (fun ic : nat * Contour => negb (fst ic =? li)) ics)),
                 facets ++ rings (Z.of_nat (length pts))
                   (map snd
                      (filter (fun ic : nat * Contour => negb (fst ic =? li)) ics)),
                 holes ++ found)
      /\ Forall2 (fun c p => getInteriorPoint c = Returns p)
           (map snd (filter (fun ic : nat * Contour => negb (fst ic =? li)) ics))
           found.
Proof.
  induction ics as [| [i c] ics IH]; intros Harr Hfound pts facets holes.
  - exists []. simpl. rewrite !app_nil_r. split; [reflexivity | constructor].
  - cbn [Vectorisation.mesh_loop Vectorisation.mesh_step filter fst].
    destruct (i =? li) eqn:E; cbn [negb].
    + apply IH.
      * intro Ha. specialize (Harr Ha). simpl in Harr. now rewrite E in Harr.
      * intros c' Hc'. apply Hfound. simpl. now rewrite E.
    + destruct is_array.
      { specialize (Harr eq_refl). simpl in Harr. rewrite E in Harr.
        discriminate. }
      destruct (Hfound c) as [p Hp].
      { simpl. rewrite E. now left. }
      rewrite Hp.
      destruct (IH (fun H => False_ind _ (Bool.diff_false_true H))
                   (fun c' Hc' => Hfound c'
                      ltac:(simpl; rewrite E; now right))
                   (pts ++ c)
                   (facets ++ roundTripConnect (Z.of_nat (length pts))
                                 (Z.of_nat (length (pts ++ c)) - 1))
                   (holes ++ [p]))
        as [found [Hloop Hall]].
      exists (p :: found). cbn [map snd concat rings].
      rewrite Hloop. split; [| now constructor].
      rewrite <- !app_assoc. cbn [app].
      rewrite length_app, Nat2Z.inj_add. reflexivity.
Qed.

Lemma split_at (J : list Contour) (li : nat) (x : Contour) :
  nth_error J li = Some x ->
  Permutation (x ++ concat (firstn li J ++ skipn (S li) J)) (concat J).
Proof.
  intro H. apply nth_error_split in H as [l1 [l2 [-> <-]]].
  assert (H2 : skipn (S (length l1)) (l1 ++ x :: l2) = l2).
  { induction l1 as [| a l1 IH]; [reflexivity |].
    change (skipn (S (length l1)) (l1 ++ x :: l2) = l2). exact IH. }
  assert (H1 : firstn (length l1) (l1 ++ x :: l2) = l1).
  { induction l1 as [| a l1 IH]; simpl; [reflexivity |].
    f_equal. apply IH.
    change (skipn (S (length l1)) (l1 ++ x :: l2) = l2) in H2. exact H2. }
  rewrite H1, H2, !concat_app. simpl.
  apply Permutation_app_swap_app.
Qed.

End MeshFacts.

Lemma mesh_loop_array (getInteriorPoint : Contour -> checked Point) (li : nat)
      (ics : list (nat * Contour)) :
  (forall c, exists p, getInteriorPoint c = Returns p) ->
  (exists ic, In ic ics /\ fst ic <> li) ->
  forall st, Vectorisation.mesh_loop getInteriorPoint true li ics st
             = Fails AttributeError.
Proof.
  intros Hfound Hex. induction ics as [| [i c] ics IH]; intros [[pts facets] holes].
  - destruct Hex as [ic [[] _]].
  - cbn [Vectorisation.mesh_loop Vectorisation.mesh_step].
    destruct (Nat.eqb_spec i li) as [-> | Hne].
    + apply IH. destruct Hex as [ic [[<- | Hin] Hic]]; [now elim Hic |].
      now exists ic.
    + destruct (Hfound c) as [p Hp]. now rewrite Hp.
Qed.

Lemma in_range (s e i : Z) : In i (range s e) <-> (s <= i < e)%Z.
Proof.
  unfold range. rewrite in_map_iff. split.
  - intros [k [<- Hk]]. apply in_seq in Hk. lia.
  - intro H. exists (Z.to_nat (i - s)). split; [lia |].
    apply in_seq. lia.
Qed.

Lemma in_roundTripConnect (s e i j : Z) :
  In (i, j) (roundTripConnect s e)
  <-> ((s <= i < e)%Z /\ j = (i + 1)%Z) \/ (i = e /\ j = s).
Proof.
  unfold roundTripConnect. rewrite in_app_iff, in_map_iff. split.
  - intros [[k [E Hk]] | [E | []]].
    + injection E as <- <-. left. split; [now apply in_range | reflexivity].
    + injection E as <- <-. now right.
  - intros [[Hi ->] | [-> ->]].
    + left. exists i. split; [reflexivity | now apply in_range].
    + right. now left.
Qed.

Lemma rings_sources (K : list Contour) :
  Forall (fun c => c <> []) K ->
  forall s i j, In (i, j) (rings s K) ->
                (s <= i < s + Z.of_nat (length (concat K)))%Z.
Proof.
  intro H. induction H as [| c K Hc HK IH]; intros s i j Hin; [destruct Hin |].
  cbn [rings concat] in *. rewrite length_app, Nat2Z.inj_add.
  assert (Hlen : (0 < Z.of_nat (length c))%Z).
  { destruct c; [congruence | simpl; lia]. }
  apply in_app_or in Hin as [Hin | Hin].
  - apply in_roundTripConnect in Hin. lia.
  - apply IH in Hin. lia.
Qed.

(** The facets that leave the points of one contour form its ring. *)
Lemma rings_facet (pre : list Contour) (c : Contour) (post : list Contour) :
  Forall (fun c => c <> []) (pre ++ c :: post) ->
  forall s i j,
    (s + Z.of_nat (length (concat pre)) <= i
     < s + Z.of_nat (length (concat pre)) + Z.of_nat (length c))%Z ->
    (In (i, j) (rings s (pre ++ c :: post))
     <-> j = next_in_ring (s + Z.of_nat (length (concat pre))) (length c) i).
Proof.
  induction pre as [| c0 pre IH]; intros Hne s i j Hi.
  - cbn [app concat length] in *. cbn [rings]. rewrite in_app_iff.
    apply Forall_inv_tail in Hne as Hpost.
    change (Z.of_nat 0) with 0%Z in *. rewrite Z.add_0_r in *.
    unfold next_in_ring. rewrite in_roundTripConnect.
    destruct (Z.eqb_spec i (s + Z.of_nat (length c) - 1)) as [E | E]; split.
    + intros [[[H ->] | [_ ->]] | H]; [lia | reflexivity |].
      apply (rings_sources post Hpost) in H. lia.
    + intros ->. left. right. now split.
    + intros [[[H ->] | [-> ->]] | H]; [reflexivity | lia |].
      apply (rings_sources post Hpost) in H. lia.
    + intros ->. left. left. split; [lia | reflexivity].
  - cbn [app concat] in *. rewrite length_app, Nat2Z.inj_add in Hi |- *.
    cbn [rings]. rewrite in_app_iff.
    apply Forall_inv_tail in Hne as Hrest.
    specialize (IH Hrest (s + Z.of_nat (length c0))%Z i j).
    replace (s + Z.of_nat (length c0) + Z.of_nat (length (concat pre)))%Z
      with (s + (Z.of_nat (length c0) + Z.of_nat (length (concat pre))))%Z
      in IH by lia.
    rewrite <- IH by lia. split.
    + intros [H | H]; [| assumption].
      apply in_roundTripConnect in H. lia.
    + intro H. now right.
Qed.

Lemma rings_ringed (K : list Contour) :
  Forall (fun c => c <> []) K ->
  forall (pts : list Point) (facets : list (Z * Z)),
    ringed pts facets ->
    ringed (pts ++ concat K) (facets ++ rings (Z.of_nat (length pts)) K).
Proof.
  intro H. induction H as [| c K Hc HK IH]; intros pts facets Hring.
  - simpl. now rewrite !app_nil_r.
  - cbn [concat rings]. rewrite !app_assoc.
    replace (Z.of_nat (length pts) + Z.of_nat (length c))%Z
      with (Z.of_nat (length (pts ++ c))) by (rewrite length_app; lia).
    apply IH. now apply ringed_extend.
Qed.

(** X9.  The mesh [createMesh] builds from lists of contours.  When
    the contours do not all have the same length, or there is a single
    one, every contour is not empty and an interior point is found for
    each contour but the longest, [createMesh] returns.  The mesh
    points are the jittered points of the longest contour followed by
    those of the other contours in order.  The facets are one closed
    ring per contour and nothing else: the facet that leaves a point
    of a contour enters the next point of the same contour, and from
    its last point its first.  The hole points are the interior
    points found for the other contours, in order. *)
Theorem createMesh_closed_rings (rand : nat -> Q)
        (getInteriorPoint : Contour -> checked Point)
        (longuest_index : nat) (flattened_contours : list Contour) :
  longuest_index < length flattened_contours ->
  Forall (fun c => c <> []) flattened_contours ->
  (forall c,
     In c (other_contours longuest_index
             (Vectorisation.jitter_contours rand 0 flattened_contours)) ->
     exists p, getInteriorPoint c = Returns p) ->
  rectangular flattened_contours = false \/ length flattened_contours = 1 ->
  exists longest mesh_points mesh_facets hole_points,
    Vectorisation.createMesh rand getInteriorPoint longuest_index
                             flattened_contours
    = Returns (mesh_points, mesh_facets, hole_points)
    /\ nth_error (Vectorisation.jitter_contours rand 0 flattened_contours)
                 longuest_index = Some longest
    /\ mesh_points
       = concat (longest
                   :: other_contours longuest_index
                        (Vectorisation.jitter_contours rand 0 flattened_contours))
    /\ mesh_facets
       = rings 0 (longest
                    :: other_contours longuest_index
                         (Vectorisation.jitter_contours rand 0
                                                        flattened_contours))
    /\ (forall pre c post i j,
          longest :: other_contours longuest_index
                       (Vectorisation.jitter_contours rand 0 flattened_contours)
          = pre ++ c :: post ->
          (Z.of_nat (length (concat pre)) <= i
           < Z.of_nat (length (concat pre)) + Z.of_nat (length c))%Z ->
          (In (i, j) mesh_facets
           <-> j = next_in_ring (Z.of_nat (length (concat pre))) (length c) i))
    /\ Forall2 (fun c p => getInteriorPoint c = Returns p)
         (other_contours longuest_index
            (Vectorisation.jitter_contours rand 0 flattened_contours))
         hole_points
    /\ S (length hole_points) = length flattened_contours
    /\ Permutation mesh_points
         (concat (Vectorisation.jitter_contours rand 0 flattened_contours))
    /\ length mesh_points = length (concat flattened_contours)
    /\ ringed mesh_points mesh_facets
    /\ length mesh_facets = length mesh_points.
Proof.
  intros Hli Hne Hfound Hshape. unfold Vectorisation.createMesh.
  set (J := Vectorisation.jitter_contours rand 0 flattened_contours) in *.
  assert (HlenJ : length J = length flattened_contours)
    by apply jitter_contours_length.
  assert (HneJ : Forall (fun c => c <> []) J)
    by now apply jitter_contours_nonempty.
  destruct (nth_error J longuest_index) as [x |] eqn:Ex;
    [| apply nth_error_None in Ex; lia].
  assert (Hkeep : map snd
                    (filter (fun ic : nat * Contour =>
                               negb (fst ic =? longuest_index))
                            (combine (seq 0 (length J)) J))
                  = other_contours longuest_index J).
  { rewrite (others_filter longuest_index J 0), Nat.sub_0_r. reflexivity. }
  assert (Hall : Forall (fun c => c <> [])
                        (x :: other_contours longuest_index J)).
  { rewrite Forall_forall in HneJ. apply Forall_forall.
    intros c [<- | Hc].
    - apply HneJ. now apply (nth_error_In J longuest_index).
    - apply HneJ. unfold other_contours in Hc.
      apply in_app_or in Hc as [Hc | Hc].
      + rewrite <- (firstn_skipn longuest_index J). apply in_or_app. now left.
      + rewrite <- (firstn_skipn (S longuest_index) J). apply in_or_app.
        now right. }
  assert (Harr : rectangular flattened_contours = true ->
                 filter (fun ic : nat * Contour => negb (fst ic =? longuest_index))
                        (combine (seq 0 (length J)) J) = []).
  { intro Hrect. destruct Hshape as [Hs | Hs]; [congruence |].
    rewrite Hs in Hli, HlenJ.
    destruct J as [| j [| j' J']]; try discriminate.
    assert (longuest_index = 0) by lia. subst longuest_index. reflexivity. }
  destruct (mesh_loop_lists getInteriorPoint
              (rectangular flattened_contours) longuest_index
              (combine (seq 0 (length J)) J) Harr
              ltac:(rewrite Hkeep; exact Hfound)
              x (roundTripConnect 0 (Z.of_nat (length x) - 1)) [])
    as [found [Hloop Hholes]].
  rewrite Hkeep in Hloop, Hholes.
  assert (Hfacets : roundTripConnect 0 (Z.of_nat (length x) - 1)
                      ++ rings (Z.of_nat (length x))
                           (other_contours longuest_index J)
                    = rings 0 (x :: other_contours longuest_index J)).
  { reflexivity. }
  rewrite Hfacets in Hloop.
  assert (Hperm : Permutation (concat (x :: other_contours longuest_index J))
                              (concat J)).
  { now apply split_at. }
  assert (Hringed : ringed (concat (x :: other_contours longuest_index J))
                           (rings 0 (x :: other_contours longuest_index J))).
  { exact (rings_ringed _ Hall [] [] ringed_nil). }
  exists x, (concat (x :: other_contours longuest_index J)),
         (rings 0 (x :: other_contours longuest_index J)), found.
  split; [exact Hloop |]. split; [reflexivity |]. split; [reflexivity |].
  split; [reflexivity |]. split.
  { intros pre c post i j Hsplit Hi.
    rewrite Hsplit in Hall |- *.
    apply (rings_facet pre c post Hall 0%Z i j). lia. }
  split; [exact Hholes |]. split.
  { rewrite <- (Forall2_length Hholes). unfold other_contours.
    rewrite length_app, length_firstn, length_skipn. lia. }
  split; [exact Hperm |]. split.
  { rewrite (Permutation_length Hperm), !length_concat.
    unfold J. now rewrite jitter_contours_lengths. }
  split; [exact Hringed | now apply ringed_length].
Qed.

(** X10.  Contours of equal length.  When there are at least two
    contours and all have the same number of points, [np.asarray]
    turns them into one array, the longest contour is an array and not
    a list, and [createMesh] ends in an [AttributeError] at
    [mesh_points.extend], once an interior point has been found for
    the first contour that is not the longest. *)
Theorem createMesh_equal_lengths (rand : nat -> Q)
        (getInteriorPoint : Contour -> checked Point)
        (longuest_index : nat) (flattened_contours : list Contour) :
  rectangular flattened_contours = true ->
  2 <= length flattened_contours ->
  longuest_index < length flattened_contours ->
  (forall c, exists p, getInteriorPoint c = Returns p) ->
  Vectorisation.createMesh rand getInteriorPoint longuest_index
                           flattened_contours
  = Fails AttributeError.
Proof.
  intros Hrect H2 Hli Hfound. unfold Vectorisation.createMesh.
  set (J := Vectorisation.jitter_contours rand 0 flattened_contours).
  assert (HlenJ : length J = length flattened_contours)
    by apply jitter_contours_length.
  destruct (nth_error J longuest_index) as [x |] eqn:Ex;
    [| apply nth_error_None in Ex; lia].
  rewrite Hrect. apply mesh_loop_array; [assumption |].
  destruct J as [| j0 [| j1 J']]; simpl in HlenJ; try lia.
  destruct longuest_index as [| k].
  - exists (1, j1). split; [right; now left | discriminate].
  - exists (0, j0). split; [now left | discriminate].
Qed.

(* ================================================================= *)
(** ** The graph [createGraph] builds *)

Lemma edge_values_map (f : nat -> nat -> outcome Q) (g : Edge -> Q)
      (es : list Edge) :
  (forall e, In e es -> f (fst (fst e)) (snd (fst e)) = Ok (g e)) ->
  edge_values f es = Ok (map g es).
Proof.
  induction es as [| e es IH]; intro H; [reflexivity |].
  simpl. rewrite (H e (or_introl eq_refl)). cbn [bind].
  rewrite IH; [reflexivity |]. intros e' He'. apply H. now right.
Qed.

Lemma set_edge_attributes_map (G : Graph) (set : EdgeAttr -> Q -> EdgeAttr)
      (g : Edge -> Q) :
  edge_data (set_edge_attributes G set (map g (edge_data G)))
  = map (fun e : Edge => (fst e, set (snd e) (g e))) (edge_data G).
Proof.
  unfold set_edge_attributes. simpl.
  induction (edge_data G) as [| e es IH]; [reflexivity |].
  simpl. now rewrite IH.
Qed.

Lemma set_node_attributes_nodes (G : Graph) (set : NodeAttr -> Q -> NodeAttr)
      (values : list Q) :
  nodes (set_node_attributes G set values) = nodes G.
Proof.
  unfold nodes, set_node_attributes. simpl. rewrite map_map.
  apply map_ext. intro p. now destruct (nth_error values (fst p)).
Qed.

(** After the three node attributes are set, a node with a triangle
    carries the attributes of its triangle. *)
Lemma triangle_nodes (G : Graph) (ts : list TriangleData) :
  (forall n, In n (nodes G) -> n < length ts) ->
  forall p,
    In p (node_data
            (set_node_attributes
               (set_node_attributes
                  (set_node_attributes G set_x (map center_x ts))
                  set_y (map center_y ts))
               set_conductivity (map radius ts))) ->
    exists t, nth_error ts (fst p) = Some t /\ snd p = triangle_attr t.
Proof.
  intros Hcover p Hp. unfold set_node_attributes in Hp. simpl in Hp.
  rewrite !map_map in Hp. apply in_map_iff in Hp as [p0 [<- Hp0]].
  assert (Hn : fst p0 < length ts).
  { apply Hcover. unfold nodes. now apply in_map. }
  destruct (nth_error ts (fst p0)) as [t |] eqn:Et;
    [| apply nth_error_None in Et; lia].
  exists t.
  rewrite (map_nth_error center_x _ _ Et). cbn [fst snd].
  rewrite (map_nth_error center_y _ _ Et). cbn [fst snd].
  rewrite (map_nth_error radius _ _ Et). cbn [fst snd].
  split; [exact Et | reflexivity].
Qed.

Lemma node_attr_triangle (G : Graph) (ts : list TriangleData) (n : nat)
      (t : TriangleData) (key : NodeAttr -> option Q) :
  (forall p, In p (node_data G) ->
             exists t, nth_error ts (fst p) = Some t /\ snd p = triangle_attr t) ->
  In n (nodes G) -> nth_error ts n = Some t ->
  node_attr G n key = match key (triangle_attr t) with
                      | Some q => Ok q
                      | None => Raise KeyError
                      end.
Proof.
  intros Hattr Hn Ht. unfold node_attr.
  unfold nodes in Hn. apply in_map_iff in Hn as [p0 [Hfst Hp0]].
  destruct (find_exists (fun p => fst p =? n) (node_data G) p0 Hp0)
    as [p Hfind].
  { apply Nat.eqb_eq. exact Hfst. }
  rewrite Hfind. apply find_some in Hfind as [Hp Hpn].
  apply Nat.eqb_eq in Hpn. destruct (Hattr p Hp) as [t' [Ht' ->]].
  rewrite Hpn in Ht'. assert (t' = t) by congruence. now subst t'.
Qed.

Lemma ends_of_fst (es es' : list Edge) :
  map fst es = map fst es' -> map ends es = map ends es'.
Proof.
  revert es'. induction es as [| e es IH]; intros [| e' es'] H;
    try discriminate; [reflexivity |].
  simpl in H. injection H as He Hes. simpl. f_equal; [| now apply IH].
  destruct e as [[a b] x], e' as [[a' b'] x']. simpl in He.
  now injection He as -> ->.
Qed.

Section CreateGraphFacts.

Variable sqrt : Q -> Q.
Variable G0 : Graph.
Variable ts : list TriangleData.
Hypothesis Hadj : adjacency_ok G0.
Hypothesis Hcover : forall n, In n (nodes G0) -> n < length ts.

Lemma triangles_nodes : nodes (with_triangles G0 ts) = nodes G0.
Proof.
  unfold with_triangles. now rewrite !set_node_attributes_nodes.
Qed.

Lemma triangles_attr (p : nat * NodeAttr) :
  In p (node_data (with_triangles G0 ts)) ->
  exists t, nth_error ts (fst p) = Some t /\ snd p = triangle_attr t.
Proof.
  apply (triangle_nodes G0 ts Hcover).
Qed.

Lemma edge_triangles (e : Edge) :
  In e (edge_data G0) ->
  exists tu tv, nth_error ts (fst (fst e)) = Some tu
                /\ nth_error ts (snd (fst e)) = Some tv
                /\ In (fst (fst e)) (nodes G0) /\ In (snd (fst e)) (nodes G0).
Proof.
  intro He. destruct Hadj as [_ [Hok _]]. rewrite Forall_forall in Hok.
  destruct (Hok e He) as [Hu [Hv _]].
  destruct (nth_error ts (fst (fst e))) as [tu |] eqn:Eu;
    [| apply nth_error_None in Eu; specialize (Hcover _ Hu); lia].
  destruct (nth_error ts (snd (fst e))) as [tv |] eqn:Ev;
    [| apply nth_error_None in Ev; specialize (Hcover _ Hv); lia].
  now exists tu, tv.
Qed.

Lemma mean_conductivity_ok (G : Graph) (e : Edge) :
  node_data G = node_data (with_triangles G0 ts) -> In e (edge_data G0) ->
  net_utilities.mean_conductivity G (fst (fst e)) (snd (fst e))
  = Ok (edge_mean ts e).
Proof.
  intros Hnd He. destruct (edge_triangles e He) as [tu [tv [Hu [Hv [Hin1 Hin2]]]]].
  assert (Hattr : forall p, In p (node_data G) ->
            exists t, nth_error ts (fst p) = Some t /\ snd p = triangle_attr t).
  { rewrite Hnd. exact triangles_attr. }
  assert (Hnodes : nodes G = nodes G0).
  { unfold nodes at 1. rewrite Hnd. exact triangles_nodes. }
  unfold net_utilities.mean_conductivity, edge_mean.
  rewrite (node_attr_triangle G ts _ tu _ Hattr) by (rewrite ?Hnodes; assumption).
  rewrite (node_attr_triangle G ts _ tv _ Hattr) by (rewrite ?Hnodes; assumption).
  rewrite Hu, Hv. reflexivity.
Qed.

Lemma euclidean_length_ok (G : Graph) (e : Edge) :
  node_data G = node_data (with_triangles G0 ts) -> In e (edge_data G0) ->
  net_utilities.euclidean_length sqrt G (fst (fst e)) (snd (fst e))
  = Ok (edge_length sqrt ts e).
Proof.
  intros Hnd He. destruct (edge_triangles e He) as [tu [tv [Hu [Hv [Hin1 Hin2]]]]].
  assert (Hattr : forall p, In p (node_data G) ->
            exists t, nth_error ts (fst p) = Some t /\ snd p = triangle_attr t).
  { rewrite Hnd. exact triangles_attr. }
  assert (Hnodes : nodes G = nodes G0).
  { unfold nodes at 1. rewrite Hnd. exact triangles_nodes. }
  unfold net_utilities.euclidean_length, edge_length.
  rewrite (node_attr_triangle G ts _ tu node_x Hattr)
    by (rewrite ?Hnodes; assumption).
  rewrite (node_attr_triangle G ts _ tv node_x Hattr)
    by (rewrite ?Hnodes; assumption).
  rewrite (node_attr_triangle G ts _ tu node_y Hattr)
    by (rewrite ?Hnodes; assumption).
  rewrite (node_attr_triangle G ts _ tv node_y Hattr)
    by (rewrite ?Hnodes; assumption).
  rewrite Hu, Hv. reflexivity.
Qed.

(** The graph [createGraph] returns, in closed form. *)
Lemma createGraph_value :
  net_utilities.createGraph sqrt G0 ts
  = Ok {| node_data := node_data (with_triangles G0 ts);
          edge_data :=
            map (fun e : Edge =>
                   (fst e, attrs (edge_length sqrt ts e) (edge_mean ts e)))
                (edge_data G0) |}.
Proof.
  unfold net_utilities.createGraph. fold (with_triangles G0 ts).
  rewrite (edge_values_map (net_utilities.mean_conductivity (with_triangles G0 ts))
                           (edge_mean ts) (edge_data (with_triangles G0 ts)))
    by (intros e He; now apply mean_conductivity_ok).
  cbn [bind].
  set (G4 := set_edge_attributes (with_triangles G0 ts) set_edge_conductivity
                                 (map (edge_mean ts) (edge_data (with_triangles G0 ts)))).
  assert (E4 : edge_data G4
               = map (fun e : Edge =>
                        (fst e, set_edge_conductivity (snd e) (edge_mean ts e)))
                     (edge_data G0)).
  { unfold G4. now rewrite set_edge_attributes_map. }
  rewrite (edge_values_map (net_utilities.euclidean_length sqrt G4)
                           (edge_length sqrt ts) (edge_data G4)).
  2:{ intros e He. rewrite E4 in He. apply in_map_iff in He as [e0 [<- He0]].
      apply (euclidean_length_ok G4 e0 eq_refl He0). }
  cbn [bind]. f_equal.
  unfold set_node_attributes at 1. f_equal.
  - change (node_data (set_edge_attributes G4 set_weight
                         (map (edge_length sqrt ts) (edge_data G4))))
      with (node_data (with_triangles G0 ts)).
    rewrite <- (map_id (node_data (with_triangles G0 ts))) at 2.
    apply map_ext_in. intros p Hp.
    destruct (triangles_attr p Hp) as [t [Ht Ha]].
    rewrite (map_nth_error center_y _ _ Ht).
    destruct p as [n a]. simpl in *. now subst a.
  - rewrite set_edge_attributes_map, E4, map_map.
    apply map_ext. intro e. reflexivity.
Qed.

End CreateGraphFacts.

(** X11.  The graph [createGraph] returns.  When the graph of the
    adjacency matrix is simple and every node has a triangle,
    [createGraph] returns a graph with the same nodes and the same
    edges in which every node carries the centre and the radius of
    its triangle, and every edge carries as conductivity the mean of
    the radii of its two ends and as weight the Euclidean distance of
    their centres.  The result is a simple, fully attributed graph:
    what the simplifier and the persistence stage are given. *)
Theorem createGraph_well_formed (sqrt : Q -> Q) (adjacency_graph : Graph)
        (all_triangles : list TriangleData) :
  adjacency_ok adjacency_graph ->
  (forall n, In n (nodes adjacency_graph) -> n < length all_triangles) ->
  exists G,
    net_utilities.createGraph sqrt adjacency_graph all_triangles = Ok G
    /\ well_formed G
    /\ nodes G = nodes adjacency_graph
    /\ map fst (edge_data G) = map fst (edge_data adjacency_graph)
    /\ (forall n a, In (n, a) (node_data G) ->
          exists t, nth_error all_triangles n = Some t /\ a = triangle_attr t)
    /\ (forall u v a, In (u, v, a) (edge_data G) ->
          exists tu tv,
            nth_error all_triangles u = Some tu
            /\ nth_error all_triangles v = Some tv
            /\ a = attrs
                     (sqrt ((center_x tu - center_x tv) * (center_x tu - center_x tv)
                            + (center_y tu - center_y tv)
                              * (center_y tu - center_y tv))%Q)
                     ((radius tu + radius tv) / 2)%Q).
Proof.
  intros Hadj Hcover.
  rewrite (createGraph_value sqrt adjacency_graph all_triangles Hadj Hcover).
  eexists. split; [reflexivity |].
  pose proof (triangles_nodes adjacency_graph all_triangles) as Hnodes.
  pose proof (triangles_attr adjacency_graph all_triangles Hcover) as Hattr.
  assert (Hfst : map fst (map (fun e : Edge =>
                                 (fst e, attrs (edge_length sqrt all_triangles e)
                                               (edge_mean all_triangles e)))
                              (edge_data adjacency_graph))
                 = map fst (edge_data adjacency_graph)).
  { rewrite map_map. apply map_ext. reflexivity. }
  destruct Hadj as [Hnd [Hok Hsimple]].
  split; [| split; [exact Hnodes |]; split; [exact Hfst |]; split].
  - split; [split; [| split] |].
    + unfold nodes at 1. cbn [node_data]. fold (nodes adjacency_graph) in Hnodes.
      unfold nodes in Hnodes at 1. now rewrite Hnodes.
    + cbn [edge_data]. apply Forall_forall. intros e He.
      apply in_map_iff in He as [e0 [<- He0]].
      rewrite Forall_forall in Hok. destruct (Hok e0 He0) as [Hu [Hv Huv]].
      unfold edge_ok, nodes. cbn [node_data fst snd].
      unfold nodes in Hnodes. rewrite Hnodes.
      split; [exact Hu |]. split; [exact Hv |]. split; [exact Huv | reflexivity].
    + cbn [edge_data]. now rewrite (ends_of_fst _ _ Hfst).
    + unfold nodes_attributed. cbn [node_data]. apply Forall_forall.
      intros p Hp. destruct (Hattr p Hp) as [t [_ ->]]. reflexivity.
  - intros n a Hin. cbn [node_data] in Hin.
    destruct (Hattr (n, a) Hin) as [t [Ht Ha]]. now exists t.
  - intros u v a Hin. cbn [edge_data] in Hin.
    apply in_map_iff in Hin as [e0 [He He0]].
    destruct (edge_triangles adjacency_graph all_triangles
                             (conj Hnd (conj Hok Hsimple)) Hcover e0 He0)
      as [tu [tv [Hu [Hv _]]]].
    destruct e0 as [[u0 v0] a0]. cbn [fst snd] in *.
    injection He as -> -> Ha.
    exists tu, tv. split; [exact Hu |]. split; [exact Hv |].
    rewrite <- Ha. unfold edge_length, edge_mean. cbn [fst snd].
    now rewrite Hu, Hv.
Qed.

Lemma node_attr_outcome (G : Graph) (n : nat) (key : NodeAttr -> option Q) :
  (exists q, node_attr G n key = Ok q) \/ node_attr G n key = Raise KeyError.
Proof.
  unfold node_attr. destruct (find _ _) as [p |]; [| now right].
  destruct (key (snd p)) as [q |]; [left; now exists q | now right].
Qed.

Lemma edge_values_raises (f : nat -> nat -> outcome Q) (es : list Edge) :
  (forall u v, (exists q, f u v = Ok q) \/ f u v = Raise KeyError) ->
  (exists e, In e es /\ f (fst (fst e)) (snd (fst e)) = Raise KeyError) ->
  edge_values f es = Raise KeyError.
Proof.
  intros Hf. induction es as [| e es IH]; intros [e' [Hin He']]; [destruct Hin |].
  simpl. destruct (Hf (fst (fst e)) (snd (fst e))) as [[q Hq] | Hq];
    rewrite Hq; [| reflexivity].
  cbn [bind]. destruct Hin as [-> | Hin]; [congruence |].
  rewrite IH; [reflexivity |]. now exists e'.
Qed.

(** A node without a triangle keeps the attributes it had. *)
Lemma node_without_triangle (G : Graph) (ts : list TriangleData) (n : nat) :
  Forall (fun p => snd p = no_attr) (node_data G) -> length ts <= n ->
  node_attr
    (set_node_attributes
       (set_node_attributes (set_node_attributes G set_x (map center_x ts))
                            set_y (map center_y ts))
       set_conductivity (map radius ts))
    n node_conductivity
  = Raise KeyError.
Proof.
  intros Hno Hn. unfold node_attr.
  destruct (find _ _) as [p |] eqn:Ef; [| reflexivity].
  apply find_some in Ef as [Hp Hpn]. apply Nat.eqb_eq in Hpn.
  unfold set_node_attributes in Hp. simpl in Hp. rewrite !map_map in Hp.
  apply in_map_iff in Hp as [p0 [Hp Hp0]].
  rewrite Forall_forall in Hno. specialize (Hno p0 Hp0).
  assert (Hnone : forall proj : TriangleData -> Q,
             nth_error (map proj ts) (fst p0) = None).
  { intro proj. apply nth_error_None. rewrite length_map.
    destruct (nth_error (map center_x ts) (fst p0)) eqn:E1 in Hp;
      cbn [fst snd] in Hp;
      destruct (nth_error (map center_y ts) (fst p0)) eqn:E2 in Hp;
      cbn [fst snd] in Hp;
      destruct (nth_error (map radius ts) (fst p0)) eqn:E3 in Hp;
      cbn [fst snd] in Hp; subst p; cbn [fst] in Hpn; lia. }
  rewrite !Hnone in Hp. subst p. now rewrite Hno.
Qed.

(** X12.  Fewer triangles than nodes.  The node attributes are set
    from the list of triangles by position, and a node without a
    triangle is silently left without attributes; as soon as such a
    node has an edge, reading its [conductivity] for the edge raises
    [KeyError] and no graph is returned. *)
Theorem createGraph_missing_triangle (sqrt : Q -> Q) (adjacency_graph : Graph)
        (all_triangles : list TriangleData) (u v : nat) (a : EdgeAttr) :
  Forall (fun p => snd p = no_attr) (node_data adjacency_graph) ->
  In (u, v, a) (edge_data adjacency_graph) ->
  length all_triangles <= u \/ length all_triangles <= v ->
  net_utilities.createGraph sqrt adjacency_graph all_triangles = Raise KeyError.
Proof.
  intros Hno Hin Hmiss. unfold net_utilities.createGraph.
  rewrite edge_values_raises; [reflexivity | |].
  - intros x y. unfold net_utilities.mean_conductivity.
    destruct (node_attr_outcome
                (set_node_attributes
                   (set_node_attributes
                      (set_node_attributes adjacency_graph set_x
                                           (map center_x all_triangles))
                      set_y (map center_y all_triangles))
                   set_conductivity (map radius all_triangles))
                x node_conductivity) as [[q Hq] | Hq];
      rewrite Hq; [| now right].
    cbn [bind].
    destruct (node_attr_outcome
                (set_node_attributes
                   (set_node_attributes
                      (set_node_attributes adjacency_graph set_x
                                           (map center_x all_triangles))
                      set_y (map center_y all_triangles))
                   set_conductivity (map radius all_triangles))
                y node_conductivity) as [[q' Hq'] | Hq'];
      rewrite Hq'; [left; eexists; reflexivity | now right].
  - exists (u, v, a). split; [exact Hin |]. cbn [fst snd].
    unfold net_utilities.mean_conductivity.
    destruct Hmiss as [Hu | Hv].
    + now rewrite (node_without_triangle adjacency_graph all_triangles u Hno Hu).
    + rewrite (node_without_triangle adjacency_graph all_triangles v Hno Hv).
      destruct (node_attr_outcome
                  (set_node_attributes
                     (set_node_attributes
                        (set_node_attributes adjacency_graph set_x
                                             (map center_x all_triangles))
                        set_y (map center_y all_triangles))
                     set_conductivity (map radius all_triangles))
                  u node_conductivity) as [[q Hq] | Hq];
        now rewrite Hq.
Qed.

(* ================================================================= *)
(** ** A slice on which every stage returns *)

Section HappyPath.

Variable ext : Collaborators.
Variable vect_params : VectParams.

(** X13.  A slice on which the stages before the drawing return.  For
    a slice that is not empty, on which the image, contour, mesh and
    triangle stages return and [createGraph] gives a simple, fully
    attributed graph with at least two nodes, the loop body invokes
    the stages once each in the order of the source and ends as
    [cleanAndSaveGraph] ends.  With a redundancy of 0, 1 or 2 and a
    known format: without plot, or when the drawing of the selected
    component [g] returns, the body returns and exactly one graph,
    [g], is written for the slice; with plot, when the drawing of [g]
    raises, the body ends with that exception and no graph is written
    for the slice. *)
Theorem vectorize_slice_returns (sli sli' : Slice) (dm : DistanceMap ext)
        (mesh : Mesh ext) (tri : Triangulated ext)
        (tris tris' : list (Triangle ext)) (adj : AdjacencyMatrix ext)
        (G : Graph) :
  (0 < np_sum sli)%Z ->
  (if smoothing vect_params then binary_smoothing ext sli = Ok sli'
   else sli' = sli) ->
  distance_transform_edt ext sli' = Ok dm ->
  Exists (fun c => 4 <= length c) (getContours ext sli') ->
  (forall i fc, createContours (getContours ext) sli' = Ok (i, fc) ->
                createMesh ext i fc = Ok mesh) ->
  createTriangulation ext mesh = Ok tri ->
  triangleClassification ext tri = Ok tris ->
  graphPruning ext tris dm (pruning vect_params) = Ok tris' ->
  createTriangleAdjacencyMatrix ext tris' = Ok adj ->
  createGraph ext adj tris' = Ok G ->
  well_formed G -> 2 <= order G ->
  graph_format vect_params <> other_format ->
  (0 <= redundancy vect_params <= 2)%Z ->
  vectorize_slice ext vect_params sli
  = ((if smoothing vect_params then [Invoke Smoothing] else [])
       ++ [Invoke DistanceTransform; Invoke ContourExtraction; Invoke Meshing;
           Invoke Triangulation; Invoke Classification; Invoke Pruning;
           Invoke GraphBuilding; Invoke GraphBuilding]
       ++ fst (cleanAndSaveGraph (drawGraph ext) G (redundancy vect_params)
                                 (plot vect_params)
                                 (graph_format vect_params)),
     snd (cleanAndSaveGraph (drawGraph ext) G (redundancy vect_params)
                            (plot vect_params) (graph_format vect_params)))
  /\ exists G1 g,
      (if (redundancy vect_params =? 2)%Z then G1 = G
       else removeRedundantNodes G (redundancy vect_params) = Ok G1)
      /\ largest_component G1 = Ok g
      /\ well_formed g /\ incl (nodes g) (nodes G)
      /\ (plot vect_params = false \/ drawGraph ext g = Ok tt ->
          snd (vectorize_slice ext vect_params sli) = Ok tt
          /\ writes (fst (vectorize_slice ext vect_params sli)) = [g])
      /\ (forall e, plot vect_params = true -> drawGraph ext g = Raise e ->
            snd (vectorize_slice ext vect_params sli) = Raise e
            /\ writes (fst (vectorize_slice ext vect_params sli)) = []).
Proof.
  intros Hsum Hsmooth Hdm Hcont Hmesh Htri Hclass Hprune Hadj HG
         Hwf H2 Hfmt Hr.
  destruct (cleanAndSaveGraph_selects (drawGraph ext) G (redundancy vect_params)
              (plot vect_params) (graph_format vect_params) Hwf H2 Hfmt Hr)
    as [G1 [g [HG1 [Hg [Hwfg [Hin [Hok Hraise]]]]]]].
  destruct (createContours_returns Slice (getContours ext) sli' Hcont)
    as [i [fc Hcc]].
  specialize (Hmesh i fc Hcc).
  assert (Hrun : vectorize_slice ext vect_params sli
    = ((if smoothing vect_params then [Invoke Smoothing] else [])
         ++ [Invoke DistanceTransform; Invoke ContourExtraction; Invoke Meshing;
             Invoke Triangulation; Invoke Classification; Invoke Pruning;
             Invoke GraphBuilding; Invoke GraphBuilding]
         ++ fst (cleanAndSaveGraph (drawGraph ext) G (redundancy vect_params)
                                   (plot vect_params)
                                   (graph_format vect_params)),
       snd (cleanAndSaveGraph (drawGraph ext) G (redundancy vect_params)
                              (plot vect_params) (graph_format vect_params)))).
  { unfold vectorize_slice.
    destruct (Z.leb_spec (np_sum sli) 0) as [Hle | _]; [lia |].
    unfold tbind, invoke, tret.
    destruct (smoothing vect_params); [rewrite Hsmooth | subst sli'];
      cbn [fst snd app]; rewrite Hdm; cbn [fst snd app]; rewrite Hcc;
      cbn [fst snd app]; rewrite Hmesh; cbn [fst snd app]; rewrite Htri;
      cbn [fst snd app]; rewrite Hclass; cbn [fst snd app]; rewrite Hprune;
      cbn [fst snd app]; rewrite Hadj; cbn [fst snd app]; rewrite HG;
      cbn [fst snd app]; reflexivity. }
  split; [exact Hrun |]. exists G1, g.
  split; [assumption |]. split; [assumption |]. split; [assumption |].
  split; [assumption |].
  assert (Hw : writes (fst (vectorize_slice ext vect_params sli))
               = writes (fst (cleanAndSaveGraph (drawGraph ext) G
                                (redundancy vect_params) (plot vect_params)
                                (graph_format vect_params)))).
  { rewrite Hrun. cbn [fst]. rewrite !writes_app.
    now destruct (smoothing vect_params). }
  rewrite Hw, Hrun. cbn [snd]. now split.
Qed.

End HappyPath.

(* ================================================================= *)
(** ** Graphs without redundant nodes are fixed points *)

Lemma visit_not_redundant (G : Graph) (nl : list nat) (n : nat) :
  degree G n <> 2 -> visit (G, nl) n = Ok (G, nl).
Proof.
  unfold degree, visit. intro H.
  destruct (neighbors G n) as [| n1 [| n2 [| n3 l]]]; try reflexivity.
  now elim H.
Qed.

Lemma scan_not_redundant (G : Graph) (nl ns : list nat) :
  (forall n, In n ns -> degree G n <> 2) -> scan ns (G, nl) = Ok (G, nl).
Proof.
  induction ns as [| n ns IH]; intro H; [reflexivity |].
  cbn [scan]. rewrite visit_not_redundant by (apply H; now left).
  cbn [bind]. apply IH. intros m Hm. apply H. now right.
Qed.

Lemma pass_not_redundant (G : Graph) :
  order G <> 1 -> no_redundant_node G -> collapse_pass G = Ok G.
Proof.
  intros H1 Hno. unfold collapse_pass.
  rewrite (scan_not_redundant G [] (nodes G) Hno). cbn [bind].
  rewrite <- order_nodes.
  destruct (Z.eqb_spec (Z.of_nat (length (@nil nat))) (Z.of_nat (order G) - 1))
    as [E | _]; [simpl in E; lia | reflexivity].
Qed.

Lemma rrn_loop_fixed (fuel : nat) (mode : Z) (G : Graph) :
  collapse_pass G = Ok G ->
  forall (ord new_order i : nat) (G' : Graph) (i' : nat),
    rrn_loop fuel mode G ord new_order i = Ok (G', i') -> G' = G.
Proof.
  intro Hpass. induction fuel as [| fuel IH]; intros ord new_order i G' i' H;
    [discriminate |].
  rewrite rrn_loop_S in H. rewrite Hpass in H. cbn [bind] in H.
  assert (Hstop : forall j, Ok (G, j) = Ok (G', i') -> G' = G).
  { intros j E. now injection E as <- _. }
  destruct ((mode =? 1)%Z && (2 <? i)); [now apply (Hstop i) |].
  destruct ((mode =? 0)%Z && (new_order =? ord)); [now apply (Hstop i) |].
  destruct (mode =? 2)%Z; [now apply (Hstop i) |].
  destruct (new_order =? order G); [now apply (Hstop (S i)) |].
  now apply (IH new_order (order G) (S i) G' i').
Qed.

(** X14.  Fixed points of the simplifier.  A simple graph without a
    node of degree 2 (and with other than one node) is returned as it
    is, in every mode.  Hence mode 0 is idempotent: what it returns is
    returned unchanged by a second run. *)
Theorem removeRedundantNodes_fixed_point (G : Graph) :
  graph_wf G -> order G <> 1 ->
  (no_redundant_node G -> forall mode, removeRedundantNodes G mode = Ok G)
  /\ exists G', removeRedundantNodes G 0 = Ok G'
                /\ forall mode, removeRedundantNodes G' mode = Ok G'.
Proof.
  intros Hwf H1.
  assert (Hfix : forall H : Graph,
             graph_wf H -> order H <> 1 -> no_redundant_node H ->
             forall mode, removeRedundantNodes H mode = Ok H).
  { intros H HwfH HordH Hno mode.
    destruct (rrn_run_total H mode HwfH HordH) as [H' [i [Hrun _]]].
    unfold removeRedundantNodes, omap. rewrite Hrun. cbn [bind fst].
    f_equal.
    apply (rrn_loop_fixed _ mode H (pass_not_redundant H HordH Hno)
                          (order H) 0 0 H' i Hrun). }
  split; [now apply Hfix |].
  destruct (rrn_run_total G 0 Hwf H1) as [G' [i [Hrun [Hwf' Hle]]]].
  exists G'. split.
  { unfold removeRedundantNodes, omap. now rewrite Hrun. }
  apply Hfix; [assumption | | now apply (rrn_run_all G G' i)].
  destruct (Nat.eq_dec (order G) 0) as [E0 | E0].
  - lia.
  - assert (H2 : 2 <= order G) by lia.
    pose proof (rrn_loop_floor _ 0 G (order G) 0 0 G' i Hwf H2 Hrun). lia.
Qed.

(* ================================================================= *)
(** ** When the drawing raises *)

Lemma drawGraph_reads (G : Graph) :
  well_formed G ->
  _drawGraph G
  = match filter lighter (edge_data G) with
    | [] => Fails ValueError
    | _ :: _ =>
        if forallb (fun n => negb (degree G n =? 0)) (nodes G)
        then Returns tt
        else Fails (Builtin KeyError)
    end.
Proof.
  intros [[_ [Hok _]] Hnodes]. unfold _drawGraph.
  rewrite Forall_forall in Hok. unfold nodes_attributed in Hnodes.
  rewrite Forall_forall in Hnodes.
  assert (H1 : forallb (fun p => has_position (snd p)) (node_data G) = true).
  { apply forallb_forall. intros p Hp. specialize (Hnodes p Hp).
    unfold node_attributed in Hnodes. unfold has_position.
    destruct (node_x (snd p)); [| discriminate].
    destruct (node_y (snd p)); [reflexivity | discriminate]. }
  assert (Hattr : forall e, In e (edge_data G) ->
                            has_weight (snd e) = true
                            /\ has_conductivity (snd e) = true).
  { intros e He. destruct (Hok e He) as [_ [_ [_ Ha]]].
    unfold edge_attributed in Ha. unfold has_weight, has_conductivity.
    destruct (weight (snd e)); [| discriminate].
    destruct (conductivity (snd e)); [now split | discriminate]. }
  assert (H2 : forallb (fun e : Edge => has_weight (snd e)) (edge_data G) = true).
  { apply forallb_forall. intros e He. now apply Hattr. }
  assert (H3 : forallb (fun e : Edge => has_conductivity (snd e))
                       (filter lighter (edge_data G)) = true).
  { apply forallb_forall. intros e He. apply filter_In in He as [He _].
    now apply Hattr. }
  now rewrite H1, H2, H3.
Qed.

(** X15.  When the drawing raises.  On a simple, fully attributed
    graph [_drawGraph] raises [ValueError] exactly when no edge has a
    weight below 1000, in particular when the graph has no edge: the
    list of widths is then empty and [np.amax] has nothing to take
    the maximum of.  When some edge is lighter, it raises [KeyError]
    exactly when some node has no neighbour, whose degree 0 is not a
    key of the colour table, and returns otherwise. *)
Theorem drawGraph_outcome (G : Graph) :
  well_formed G ->
  (_drawGraph G = Fails ValueError
   <-> forall e w, In e (edge_data G) -> weight (snd e) = Some w ->
                   (1000 <= w)%Q)
  /\ (_drawGraph G = Fails (Builtin KeyError)
      <-> (exists e, In e (edge_data G) /\ lighter e = true)
          /\ exists n, In n (nodes G) /\ degree G n = 0)
  /\ (_drawGraph G = Returns tt
      <-> (exists e, In e (edge_data G) /\ lighter e = true)
          /\ forall n, In n (nodes G) -> degree G n <> 0).
Proof.
  intro Hwf. rewrite (drawGraph_reads G Hwf).
  assert (Hheavy : filter lighter (edge_data G) = [] <->
                   forall e w, In e (edge_data G) -> weight (snd e) = Some w ->
                               (1000 <= w)%Q).
  { split.
    - intros Hnil e w He Hw.
      destruct (Qle_bool 1000 w) eqn:E; [now apply Qle_bool_iff |].
      assert (Hin : In e (filter lighter (edge_data G))).
      { apply filter_In. split; [assumption |].
        unfold lighter. now rewrite Hw, E. }
      rewrite Hnil in Hin. destruct Hin.
    - intro Hall. destruct (filter lighter (edge_data G)) as [| e l] eqn:E;
        [reflexivity | exfalso].
      assert (Hin : In e (filter lighter (edge_data G)))
        by (rewrite E; now left).
      apply filter_In in Hin as [He Hl]. unfold lighter in Hl.
      destruct (weight (snd e)) as [w |] eqn:Ew; [| discriminate].
      apply (Hall e w He) in Ew. apply Qle_bool_iff in Ew.
      now rewrite Ew in Hl. }
  assert (Hlight : filter lighter (edge_data G) <> [] <->
                   exists e, In e (edge_data G) /\ lighter e = true).
  { split.
    - intro Hne. destruct (filter lighter (edge_data G)) as [| e l] eqn:E;
        [now elim Hne |].
      exists e. apply filter_In. rewrite E. now left.
    - intros [e He] Hnil. apply filter_In in He. rewrite Hnil in He.
      destruct He. }
  assert (Hdeg : forallb (fun n => negb (degree G n =? 0)) (nodes G) = true <->
                 forall n, In n (nodes G) -> degree G n <> 0).
  { rewrite forallb_forall. split; intros H n Hn; specialize (H n Hn).
    - apply negb_true_iff, Nat.eqb_neq in H. exact H.
    - now apply negb_true_iff, Nat.eqb_neq. }
  assert (Hiso : forallb (fun n => negb (degree G n =? 0)) (nodes G) = false <->
                 exists n, In n (nodes G) /\ degree G n = 0).
  { split.
    - intro H.
      destruct (existsb (fun n => degree G n =? 0) (nodes G)) eqn:E.
      + apply existsb_exists in E as [n [Hn Hd]]. exists n.
        split; [assumption | now apply Nat.eqb_eq].
      + assert (Hall : forallb (fun n => negb (degree G n =? 0)) (nodes G)
                       = true).
        { apply forallb_forall. intros n Hn. apply negb_true_iff.
          destruct (degree G n =? 0) eqn:Ed; [| reflexivity].
          assert (Hex : existsb (fun n => degree G n =? 0) (nodes G) = true).
          { apply existsb_exists. now exists n. }
          congruence. }
        congruence.
    - intros [n [Hn Hd]]. apply not_true_is_false. intro E.
      exact (proj1 Hdeg E n Hn Hd). }
  destruct (filter lighter (edge_data G)) as [| e l] eqn:E.
  - split; [| split].
    + split; [intros _; now apply Hheavy | reflexivity].
    + split; [discriminate |]. intros [Hex _]. apply Hlight in Hex.
      now elim Hex.
    + split; [discriminate |]. intros [Hex _]. apply Hlight in Hex.
      now elim Hex.
  - assert (Hex : exists e, In e (edge_data G) /\ lighter e = true).
    { apply Hlight. discriminate. }
    split; [| split].
    + split.
      * destruct (forallb _ (nodes G)); discriminate.
      * intro Hall. apply Hheavy in Hall. discriminate.
    + split.
      * destruct (forallb _ (nodes G)) eqn:Ef; [discriminate |].
        intros _. split; [assumption | exact (proj1 Hiso eq_refl)].
      * intros [_ Hn]. now rewrite (proj2 Hiso Hn).
    + split.
      * destruct (forallb _ (nodes G)) eqn:Ef; [| discriminate].
        intros _. split; [assumption | exact (proj1 Hdeg eq_refl)].
      * intros [_ Hn]. now rewrite (proj2 Hdeg Hn).
Qed.

(* ================================================================= *)
(** ** More instances *)

Lemma quarter_path_well_formed : well_formed quarter_path.
Proof.
  split; [apply graph_wfb_sound; reflexivity |].
  repeat constructor.
Qed.

Lemma removeRedundantNodes_keeps_connectivity_witness :
  graph_wf quarter_path /\ order quarter_path <> 1
  /\ exists G', removeRedundantNodes quarter_path 0 = Ok G'
       /\ graph_wf G'
       /\ incl (nodes G') (nodes quarter_path)
       /\ (forall u w, In u (nodes G') -> In w (nodes G') ->
                       (connected G' u w <-> connected quarter_path u w))
       /\ (forall v, In v (nodes quarter_path) ->
                     exists x, In x (nodes G') /\ connected quarter_path v x).
Proof.
  assert (Hwf : graph_wf quarter_path) by (apply graph_wfb_sound; reflexivity).
  assert (Hord : order quarter_path <> 1) by (vm_compute; lia).
  split; [exact Hwf |]. split; [exact Hord |].
  exact (removeRedundantNodes_keeps_connectivity quarter_path 0 Hwf Hord).
Defined.

Lemma collapse_pass_removes_chain_nodes_witness :
  graph_wf quarter_path /\ order quarter_path <> 1
  /\ exists G', collapse_pass quarter_path = Ok G'
       /\ incl (nodes G') (nodes quarter_path)
       /\ (forall v, In v (nodes quarter_path) -> degree quarter_path v <> 2 ->
                     In v (nodes G'))
       /\ (forall v, In v (nodes quarter_path) -> ~ In v (nodes G') ->
             degree quarter_path v = 2
             /\ exists x y, x <> y /\ In x (neighbors quarter_path v)
                            /\ In y (neighbors quarter_path v)
                            /\ In x (nodes G') /\ In y (nodes G')
                            /\ has_edge G' x y = true).
Proof.
  assert (Hwf : graph_wf quarter_path) by (apply graph_wfb_sound; reflexivity).
  assert (Hord : order quarter_path <> 1) by (vm_compute; lia).
  split; [exact Hwf |]. split; [exact Hord |].
  exact (collapse_pass_removes_chain_nodes quarter_path Hwf Hord).
Defined.

Lemma removeRedundantNodes_error_behaviour_witness :
  graph_wf quarter_path /\ 0%Z <> 2%Z
  /\ (removeRedundantNodes quarter_path 0 = Raise KeyError
      <-> order quarter_path = 1)
  /\ (order quarter_path <> 1 ->
      exists G', removeRedundantNodes quarter_path 0 = Ok G'
                 /\ order G' <= order quarter_path
                 /\ (2 <= order quarter_path -> 2 <= order G')).
Proof.
  assert (Hwf : graph_wf quarter_path) by (apply graph_wfb_sound; reflexivity).
  assert (Hmode : 0%Z <> 2%Z) by lia.
  split; [exact Hwf |]. split; [exact Hmode |].
  exact (removeRedundantNodes_error_behaviour quarter_path 0 Hwf Hmode).
Defined.

Lemma removeRedundantNodes_unknown_mode_witness :
  7%Z <> 0%Z /\ 7%Z <> 1%Z /\ 7%Z <> 2%Z
  /\ removeRedundantNodes quarter_path 7 = removeRedundantNodes quarter_path 0.
Proof.
  assert (H0 : 7%Z <> 0%Z) by lia.
  assert (H1 : 7%Z <> 1%Z) by lia.
  assert (H2 : 7%Z <> 2%Z) by lia.
  split; [exact H0 |]. split; [exact H1 |]. split; [exact H2 |].
  exact (removeRedundantNodes_unknown_mode quarter_path 7 H0 H1 H2).
Defined.


Lemma cleanAndSaveGraph_writes_one_witness :
  well_formed quarter_path /\ 2 <= order quarter_path
  /\ gpickle <> other_format
  /\ ((0 <= 1 <= 2)%Z ->
      exists G1 g,
        (if (1 =? 2)%Z then G1 = quarter_path
         else removeRedundantNodes quarter_path 1 = Ok G1)
        /\ largest_component G1 = Ok g
        /\ well_formed g /\ incl (nodes g) (nodes quarter_path)
        /\ (true = false \/ (fun _ : Graph => Ok tt) g = Ok tt ->
            snd (cleanAndSaveGraph (fun _ => Ok tt) quarter_path 1 true gpickle)
            = Ok tt
            /\ writes (fst (cleanAndSaveGraph (fun _ => Ok tt) quarter_path 1
                                              true gpickle)) = [g])
        /\ (forall e, true = true -> (fun _ : Graph => Ok tt) g = Raise e ->
              snd (cleanAndSaveGraph (fun _ => Ok tt) quarter_path 1 true
                                     gpickle) = Raise e
              /\ writes (fst (cleanAndSaveGraph (fun _ => Ok tt) quarter_path 1
                                                true gpickle)) = []))
  /\ (~ (0 <= 1 <= 2)%Z ->
      cleanAndSaveGraph (fun _ => Ok tt) quarter_path 1 true gpickle
      = ([], Ok tt)).
Proof.
  assert (H2 : 2 <= order quarter_path) by (vm_compute; lia).
  assert (Hfmt : gpickle <> other_format) by discriminate.
  split; [exact quarter_path_well_formed |]. split; [exact H2 |].
  split; [exact Hfmt |].
  exact (cleanAndSaveGraph_writes_one (fun _ => Ok tt) quarter_path 1 true
           gpickle quarter_path_well_formed H2 Hfmt).
Defined.

Lemma drawAndSave_whole_component_witness :
  graph_wf quarter_path /\ order quarter_path <> 0
  /\ exists g,
      largest_component quarter_path = Ok g
      /\ drawAndSave (fun _ => Ok tt) quarter_path false gpickle
         = ([WriteGraph g], Ok tt)
      /\ graph_wf g
      /\ (forall u w, In u (nodes g) -> In w (nodes g) -> connected g u w)
      /\ (forall n a, In (n, a) (node_data g) ->
                      In (n, a) (node_data quarter_path))
      /\ (forall u w, In u (nodes g) ->
                      has_edge g u w = has_edge quarter_path u w
                      /\ get_edge g u w = get_edge quarter_path u w)
      /\ ((forall u w, In u (nodes quarter_path) -> In w (nodes quarter_path) ->
                       connected quarter_path u w) ->
          Permutation (node_data g) (node_data quarter_path)
          /\ forall u w, get_edge g u w = get_edge quarter_path u w).
Proof.
  assert (Hwf : graph_wf quarter_path) by (apply graph_wfb_sound; reflexivity).
  assert (Hord : order quarter_path <> 0) by (vm_compute; lia).
  split; [exact Hwf |]. split; [exact Hord |].
  exact (drawAndSave_whole_component (fun _ => Ok tt) quarter_path Hwf Hord).
Defined.

Lemma vectorize_stops_at_first_error_witness :
  Forall (fun s => snd (vectorize_slice (stub_collaborators [[(1, 0)]%Z])
                                        default_params s) = Ok tt)
         [[[0; 0]; [0; 0]]%Z]
  /\ snd (vectorize_slice (stub_collaborators [[(1, 0)]%Z]) default_params
                          [[0; 255]; [0; 0]]%Z)
     = Raise UnboundLocalError
  /\ vectorize_slices (stub_collaborators [[(1, 0)]%Z]) default_params
       ([[[0; 0]; [0; 0]]%Z] ++ [[0; 255]; [0; 0]]%Z :: [[[0; 0]; [0; 0]]%Z])
     = (flat_map (fun s => fst (vectorize_slice (stub_collaborators [[(1, 0)]%Z])
                                                default_params s))
                 ([[[0; 0]; [0; 0]]%Z] ++ [[[0; 255]; [0; 0]]%Z]),
        Raise UnboundLocalError)
  /\ vectorize_slices (stub_collaborators [[(1, 0)]%Z]) default_params
       [[[0; 0]; [0; 0]]%Z]
     = (flat_map (fun s => fst (vectorize_slice (stub_collaborators [[(1, 0)]%Z])
                                                default_params s))
                 [[[0; 0]; [0; 0]]%Z],
        Ok tt).
Proof.
  assert (Hdone : Forall (fun s => snd (vectorize_slice
                                          (stub_collaborators [[(1, 0)]%Z])
                                          default_params s) = Ok tt)
                         [[[0; 0]; [0; 0]]%Z]).
  { constructor; [reflexivity | constructor]. }
  assert (Hfail : snd (vectorize_slice (stub_collaborators [[(1, 0)]%Z])
                                       default_params [[0; 255]; [0; 0]]%Z)
                  = Raise UnboundLocalError) by reflexivity.
  split; [exact Hdone |]. split; [exact Hfail |].
  exact (vectorize_stops_at_first_error (stub_collaborators [[(1, 0)]%Z])
           default_params [[[0; 0]; [0; 0]]%Z] [[0; 255]; [0; 0]]%Z
           [[[0; 0]; [0; 0]]%Z] UnboundLocalError Hdone Hfail).
Defined.

Lemma createContours_first_longest_witness :
  Exists (fun c => 4 <= length c) ((fun _ : unit => [square_contour]) tt)
  /\ exists i fc,
      createContours (fun _ : unit => [square_contour]) tt = Ok (i, fc)
      /\ fc = filter (longer_than 3)
                     (flattenContours ((fun _ : unit => [square_contour]) tt))
      /\ i < length fc
      /\ (forall c, In c fc -> 4 <= length c <= length (nth i fc []))
      /\ (forall j, j < i -> length (nth j fc []) < length (nth i fc [])).
Proof.
  assert (Hex : Exists (fun c => 4 <= length c)
                       ((fun _ : unit => [square_contour]) tt)).
  { constructor. simpl. lia. }
  split; [exact Hex |].
  exact (createContours_first_longest unit (fun _ => [square_contour]) tt Hex).
Defined.

Lemma createMesh_closed_rings_witness :
  1 < length [square; pentagon]
  /\ Forall (fun c : Contour => c <> []) [square; pentagon]
  /\ (rectangular [square; pentagon] = false \/ length [square; pentagon] = 1)
  /\ exists longest mesh_points mesh_facets hole_points,
      Vectorisation.createMesh (fun _ => 0%Q) (fun _ => Returns (0, 0)%Q) 1
                               [square; pentagon]
      = Returns (mesh_points, mesh_facets, hole_points)
      /\ nth_error (Vectorisation.jitter_contours (fun _ => 0%Q) 0
                                                  [square; pentagon]) 1
         = Some longest
      /\ mesh_points
         = concat (longest
                     :: other_contours 1
                          (Vectorisation.jitter_contours (fun _ => 0%Q) 0
                                                         [square; pentagon]))
      /\ mesh_facets
         = rings 0 (longest
                      :: other_contours 1
                           (Vectorisation.jitter_contours (fun _ => 0%Q) 0
                                                          [square; pentagon]))
      /\ (forall pre c post i j,
            longest :: other_contours 1
                         (Vectorisation.jitter_contours (fun _ => 0%Q) 0
                                                        [square; pentagon])
            = pre ++ c :: post ->
            (Z.of_nat (length (concat pre)) <= i
             < Z.of_nat (length (concat pre)) + Z.of_nat (length c))%Z ->
            (In (i, j) mesh_facets
             <-> j = next_in_ring (Z.of_nat (length (concat pre))) (length c) i))
      /\ Forall2 (fun c p => (fun _ : Contour => Returns (0, 0)%Q) c = Returns p)
           (other_contours 1
              (Vectorisation.jitter_contours (fun _ => 0%Q) 0
                                             [square; pentagon]))
           hole_points
      /\ S (length hole_points) = length [square; pentagon]
      /\ Permutation mesh_points
           (concat (Vectorisation.jitter_contours (fun _ => 0%Q) 0
                                                  [square; pentagon]))
      /\ length mesh_points = length (concat [square; pentagon])
      /\ ringed mesh_points mesh_facets
      /\ length mesh_facets = length mesh_points.
Proof.
  assert (Hli : 1 < length [square; pentagon]) by (simpl; lia).
  assert (Hne : Forall (fun c : Contour => c <> []) [square; pentagon]).
  { constructor; [discriminate |]. constructor; [discriminate | constructor]. }
  assert (Hfound : forall c : Contour,
             In c (other_contours 1
                     (Vectorisation.jitter_contours (fun _ => 0%Q) 0
                                                    [square; pentagon])) ->
             exists p, (fun _ : Contour => Returns (0, 0)%Q) c = Returns p).
  { intros c _. now exists (0, 0)%Q. }
  assert (Hshape : rectangular [square; pentagon] = false
                   \/ length [square; pentagon] = 1) by (left; reflexivity).
  split; [exact Hli |]. split; [exact Hne |]. split; [exact Hshape |].
  exact (createMesh_closed_rings (fun _ => 0%Q) (fun _ => Returns (0, 0)%Q) 1
           [square; pentagon] Hli Hne Hfound Hshape).
Defined.

Lemma createMesh_equal_lengths_witness :
  rectangular [square; square] = true
  /\ 2 <= length [square; square]
  /\ 0 < length [square; square]
  /\ (forall c : Contour,
        exists p, (fun _ : Contour => Returns (0, 0)%Q) c = Returns p)
  /\ Vectorisation.createMesh (fun _ => 0%Q) (fun _ => Returns (0, 0)%Q) 0
                              [square; square]
     = Fails AttributeError.
Proof.
  assert (Hrect : rectangular [square; square] = true) by reflexivity.
  assert (H2 : 2 <= length [square; square]) by (simpl; lia).
  assert (Hli : 0 < length [square; square]) by (simpl; lia).
  assert (Hfound : forall c : Contour,
             exists p, (fun _ : Contour => Returns (0, 0)%Q) c = Returns p).
  { intro c. now exists (0, 0)%Q. }
  split; [exact Hrect |]. split; [exact H2 |]. split; [exact Hli |].
  split; [exact Hfound |].
  exact (createMesh_equal_lengths (fun _ => 0%Q) (fun _ => Returns (0, 0)%Q) 0
           [square; square] Hrect H2 Hli Hfound).
Defined.

Lemma two_triangles_graph_ok : adjacency_ok two_triangles_graph.
Proof.
  split; [| split].
  - constructor; [intros [H | []]; discriminate |].
    constructor; [intros [] | constructor].
  - constructor; [| constructor]. simpl.
    split; [now left |]. split; [right; now left | discriminate].
  - constructor; [intros [] | constructor].
Qed.

Lemma createGraph_well_formed_witness :
  adjacency_ok two_triangles_graph
  /\ (forall n, In n (nodes two_triangles_graph) -> n < length two_triangles)
  /\ exists G,
      net_utilities.createGraph (fun q => q) two_triangles_graph two_triangles
      = Ok G
      /\ well_formed G
      /\ nodes G = nodes two_triangles_graph
      /\ map fst (edge_data G) = map fst (edge_data two_triangles_graph)
      /\ (forall n a, In (n, a) (node_data G) ->
            exists t, nth_error two_triangles n = Some t /\ a = triangle_attr t)
      /\ (forall u v a, In (u, v, a) (edge_data G) ->
            exists tu tv,
              nth_error two_triangles u = Some tu
              /\ nth_error two_triangles v = Some tv
              /\ a = attrs
                       ((fun q => q)
                          ((center_x tu - center_x tv) * (center_x tu - center_x tv)
                           + (center_y tu - center_y tv)
                             * (center_y tu - center_y tv))%Q)
                       ((radius tu + radius tv) / 2)%Q).
Proof.
  assert (Hcover : forall n, In n (nodes two_triangles_graph) ->
                             n < length two_triangles).
  { intros n [<- | [<- | []]]; simpl; lia. }
  split; [exact two_triangles_graph_ok |]. split; [exact Hcover |].
  exact (createGraph_well_formed (fun q => q) two_triangles_graph two_triangles
           two_triangles_graph_ok Hcover).
Defined.

Lemma createGraph_missing_triangle_witness :
  Forall (fun p : nat * NodeAttr => snd p = no_attr)
         (node_data two_triangles_graph)
  /\ In (0, 1, {| weight := Some 1%Q; conductivity := None |})
        (edge_data two_triangles_graph)
  /\ (length (firstn 1 two_triangles) <= 0
      \/ length (firstn 1 two_triangles) <= 1)
  /\ net_utilities.createGraph (fun q => q) two_triangles_graph
                               (firstn 1 two_triangles)
     = Raise KeyError.
Proof.
  assert (Hno : Forall (fun p : nat * NodeAttr => snd p = no_attr)
                       (node_data two_triangles_graph)).
  { constructor; [reflexivity |]. constructor; [reflexivity | constructor]. }
  assert (Hin : In (0, 1, {| weight := Some 1%Q; conductivity := None |})
                   (edge_data two_triangles_graph)) by (now left).
  assert (Hmiss : length (firstn 1 two_triangles) <= 0
                  \/ length (firstn 1 two_triangles) <= 1)
    by (right; simpl; lia).
  split; [exact Hno |]. split; [exact Hin |]. split; [exact Hmiss |].
  exact (createGraph_missing_triangle (fun q => q) two_triangles_graph
           (firstn 1 two_triangles) 0 1
           {| weight := Some 1%Q; conductivity := None |} Hno Hin Hmiss).
Defined.

Lemma removeRedundantNodes_fixed_point_witness :
  graph_wf quarter_path /\ order quarter_path <> 1
  /\ (no_redundant_node quarter_path ->
      forall mode, removeRedundantNodes quarter_path mode = Ok quarter_path)
  /\ exists G', removeRedundantNodes quarter_path 0 = Ok G'
                /\ forall mode, removeRedundantNodes G' mode = Ok G'.
Proof.
  assert (Hwf : graph_wf quarter_path) by (apply graph_wfb_sound; reflexivity).
  assert (Hord : order quarter_path <> 1) by (vm_compute; lia).
  split; [exact Hwf |]. split; [exact Hord |].
  exact (removeRedundantNodes_fixed_point quarter_path Hwf Hord).
Defined.

Lemma drawGraph_outcome_witness :
  well_formed quarter_path
  /\ (_drawGraph quarter_path = Fails ValueError
      <-> forall e w, In e (edge_data quarter_path) ->
                      weight (snd e) = Some w -> (1000 <= w)%Q)
  /\ (_drawGraph quarter_path = Fails (Builtin KeyError)
      <-> (exists e, In e (edge_data quarter_path) /\ lighter e = true)
          /\ exists n, In n (nodes quarter_path) /\ degree quarter_path n = 0)
  /\ (_drawGraph quarter_path = Returns tt
      <-> (exists e, In e (edge_data quarter_path) /\ lighter e = true)
          /\ forall n, In n (nodes quarter_path) -> degree quarter_path n <> 0).
Proof.
  split; [exact quarter_path_well_formed |].
  exact (drawGraph_outcome quarter_path quarter_path_well_formed).
Defined.

Lemma vectorize_slice_returns_witness :
  (0 < np_sum [[0; 255]; [0; 0]])%Z
  /\ Exists (fun c => 4 <= length c)
            (getContours path_collaborators [[0; 255]; [0; 0]]%Z)
  /\ well_formed quarter_path /\ 2 <= order quarter_path
  /\ graph_format default_params <> other_format
  /\ (0 <= redundancy default_params <= 2)%Z
  /\ vectorize_slice path_collaborators default_params [[0; 255]; [0; 0]]%Z
     = ((if smoothing default_params then [Invoke Smoothing] else [])
          ++ [Invoke DistanceTransform; Invoke ContourExtraction;
              Invoke Meshing; Invoke Triangulation; Invoke Classification;
              Invoke Pruning; Invoke GraphBuilding; Invoke GraphBuilding]
          ++ fst (cleanAndSaveGraph (drawGraph path_collaborators) quarter_path
                                    (redundancy default_params)
                                    (plot default_params)
                                    (graph_format default_params)),
        snd (cleanAndSaveGraph (drawGraph path_collaborators) quarter_path
                               (redundancy default_params)
                               (plot default_params)
                               (graph_format default_params)))
  /\ exists G1 g,
      (if (redundancy default_params =? 2)%Z then G1 = quarter_path
       else removeRedundantNodes quarter_path (redundancy default_params)
            = Ok G1)
      /\ largest_component G1 = Ok g
      /\ well_formed g /\ incl (nodes g) (nodes quarter_path)
      /\ (plot default_params = false \/ drawGraph path_collaborators g = Ok tt ->
          snd (vectorize_slice path_collaborators default_params
                               [[0; 255]; [0; 0]]%Z) = Ok tt
          /\ writes (fst (vectorize_slice path_collaborators default_params
                                          [[0; 255]; [0; 0]]%Z)) = [g])
      /\ (forall e, plot default_params = true ->
                    drawGraph path_collaborators g = Raise e ->
            snd (vectorize_slice path_collaborators default_params
                                 [[0; 255]; [0; 0]]%Z) = Raise e
            /\ writes (fst (vectorize_slice path_collaborators default_params
                                            [[0; 255]; [0; 0]]%Z)) = []).
Proof.
  assert (Hsum : (0 < np_sum [[0; 255]; [0; 0]])%Z) by reflexivity.
  assert (Hcont : Exists (fun c => 4 <= length c)
                         (getContours path_collaborators [[0; 255]; [0; 0]]%Z)).
  { constructor. simpl. lia. }
  assert (H2 : 2 <= order quarter_path) by (vm_compute; lia).
  assert (Hfmt : graph_format default_params <> other_format) by discriminate.
  assert (Hr : (0 <= redundancy default_params <= 2)%Z) by (simpl; lia).
  split; [exact Hsum |]. split; [exact Hcont |].
  split; [exact quarter_path_well_formed |]. split; [exact H2 |].
  split; [exact Hfmt |]. split; [exact Hr |].
  exact (vectorize_slice_returns path_collaborators default_params
           [[0; 255]; [0; 0]]%Z [[0; 255]; [0; 0]]%Z tt tt tt [] [] tt
           quarter_path Hsum eq_refl eq_refl Hcont
           (fun _ _ _ => eq_refl) eq_refl eq_refl eq_refl eq_refl eq_refl
           quarter_path_well_formed H2 Hfmt Hr).
Defined.
